(** * TaskFlow voice assistant: the live audio pipeline

    A shallow embedding of the streaming audio pipeline of the live voice
    assistant: the PCM encoder and the text encoding of byte buffers
    (services/audioUtils, used by components/LiveAssistant.tsx), and the
    LiveAssistant component itself (connect, the session callbacks,
    the playback scheduler, disconnect).

    Numbers.  A JavaScript number that carries a time or a sample is
    modelled as an exact rational ([Q]); an [Int16Array] element is a [Z]
    with the wrap-around of the typed-array store written out; a byte is a
    [Byte.byte]; a JavaScript string is a [string].  Where a quotient is
    rounded before its whole part is taken (the timer display of
    components/TaskCard.tsx), the rounding to binary64 is written out. *)

From Stdlib Require Import List ZArith NArith QArith Qminmax Lia Lqa Bool.
From Stdlib Require Import Ascii String.
From Stdlib Require Import Strings.Byte.
From Stdlib Require Import Qround Permutation Sorted DecimalString.
Import ListNotations.

Set Implicit Arguments.

(* ================================================================== *)
(** ** services/audioUtils *)
(* ================================================================== *)

Module AudioUtils.

Local Open Scope Z_scope.
Local Open Scope Q_scope.

(** *** float32ToPCM16 *)

(** [Math.max(-1, Math.min(1, s))]. *)
Definition clamp_sample (s : Q) : Q := Qmax (-1) (Qmin 1 s).

(** The asymmetric scaling: the negative side uses 0x8000, the other
    side 0x7FFF. *)
Definition scale_sample (s : Q) : Q :=
  if Qle_bool 0 s then s * 32767 else s * 32768.

(** Truncation towards zero of a rational (the number-to-integer step of a
    typed-array store). *)
Definition Qtrunc (q : Q) : Z := Z.quot (Qnum q) (Zpos (Qden q)).

Local Close Scope Q_scope.

(** The wrap-around of a store into an [Int16Array] element. *)
Definition to_int16 (z : Z) : Z := (z + 32768) mod 65536 - 32768.

(** Modelled from the spec: services/audioUtils.ts is not among the
    sources; one sample of [float32ToPCM16] (the spec's floatToInt16Pcm)
    follows the contract of the PCM Encoder: clamp to [-1, 1], scale with
    the asymmetric bound, store into an Int16Array. *)
Definition pcm16_of_sample (s : Q) : Z :=
  to_int16 (Qtrunc (scale_sample (clamp_sample s))).

(** Modelled from the spec: services/audioUtils.ts is not among the
    sources; [float32ToPCM16] converts the samples one by one, in order. *)
Definition float32ToPCM16 (samples : list Q) : list Z :=
  map pcm16_of_sample samples.

(** [pcm16.buffer]: the bytes of an Int16Array, two per element, low byte
    first. *)
Definition byte_of_Z (z : Z) : byte :=
  match Byte.of_N (Z.to_N (z mod 256)) with
  | Some b => b
  | None => x00
  end.

Definition int16_bytes (z : Z) : list byte :=
  let u := z mod 65536 in
  [byte_of_Z u; byte_of_Z (u / 256)].

Definition int16_buffer (pcm : list Z) : list byte :=
  flat_map int16_bytes pcm.

(** *** arrayBufferToBase64 and base64ToUint8Array *)

Local Open Scope N_scope.

Definition b64_alphabet : string :=
  "ABCDEFGHIJKLMNOPQRSTUVWXYZabcdefghijklmnopqrstuvwxyz0123456789+/"%string.

Definition b64_pad : ascii := "="%char.

(** The character of a 6-bit value. *)
Definition b64_char (n : N) : ascii :=
  match String.get (N.to_nat n) b64_alphabet with
  | Some c => c
  | None => b64_pad
  end.

(** The 6-bit value of a character of the alphabet. *)
Definition b64_index (c : ascii) : option N :=
  let n := N_of_ascii c in
  if (65 <=? n) && (n <=? 90) then Some (n - 65)
  else if (97 <=? n) && (n <=? 122) then Some (n - 97 + 26)
  else if (48 <=? n) && (n <=? 57) then Some (n - 48 + 52)
  else if n =? 43 then Some 62
  else if n =? 47 then Some 63
  else None.

(** Modelled from the spec: services/audioUtils.ts is not among the
    sources; [arrayBufferToBase64] (the spec's bytesToPortableText) is the
    standard base64 encoding with padding: three bytes give four
    characters. *)
Fixpoint arrayBufferToBase64 (bytes : list byte) : string :=
  match bytes with
  | [] => EmptyString
  | [a] =>
      let n := Byte.to_N a * 16 in
      String (b64_char (n / 64)) (String (b64_char (n mod 64))
        (String b64_pad (String b64_pad EmptyString)))
  | [a; b] =>
      let n := (Byte.to_N a * 256 + Byte.to_N b) * 4 in
      String (b64_char (n / 4096)) (String (b64_char (n / 64 mod 64))
        (String (b64_char (n mod 64)) (String b64_pad EmptyString)))
  | a :: b :: c :: rest =>
      let n := Byte.to_N a * 65536 + Byte.to_N b * 256 + Byte.to_N c in
      String (b64_char (n / 262144)) (String (b64_char (n / 4096 mod 64))
        (String (b64_char (n / 64 mod 64)) (String (b64_char (n mod 64))
          (arrayBufferToBase64 rest))))
  end.

(** A small option monad for the decoder, which fails on text that is not
    base64. *)
Definition obind {A B} (o : option A) (k : A -> option B) : option B :=
  match o with
  | Some a => k a
  | None => None
  end.

Notation "x <-? o ;; k" := (obind o (fun x => k))
  (at level 61, o at next level, right associativity).

(** Modelled from the spec: services/audioUtils.ts is not among the
    sources; [base64ToUint8Array] (the spec's textToBytes) is the inverse
    of the standard base64 encoding: four characters give three bytes, the
    last group may carry one or two padding characters.  [None] is the
    exception raised on text that is not base64. *)
Fixpoint base64ToUint8Array (text : string) : option (list byte) :=
  match text with
  | EmptyString => Some []
  | String c1 (String c2 (String c3 (String c4 rest))) =>
      i1 <-? b64_index c1 ;;
      i2 <-? b64_index c2 ;;
      if Ascii.eqb c3 b64_pad then
        if Ascii.eqb c4 b64_pad then
          match rest with
          | EmptyString =>
              a <-? Byte.of_N ((i1 * 64 + i2) / 16) ;;
              Some [a]
          | _ => None
          end
        else None
      else
        i3 <-? b64_index c3 ;;
        if Ascii.eqb c4 b64_pad then
          match rest with
          | EmptyString =>
              let n := (i1 * 64 + i2) * 64 + i3 in
              a <-? Byte.of_N (n / 1024) ;;
              b <-? Byte.of_N (n / 4 mod 256) ;;
              Some [a; b]
          | _ => None
          end
        else
          i4 <-? b64_index c4 ;;
          let n := ((i1 * 64 + i2) * 64 + i3) * 64 + i4 in
          a <-? Byte.of_N (n / 65536) ;;
          b <-? Byte.of_N (n / 256 mod 256) ;;
          c <-? Byte.of_N (n mod 256) ;;
          tail <-? base64ToUint8Array rest ;;
          Some (a :: b :: c :: tail)
  | _ => None
  end.

(** Every 6-bit value has a character that is not the padding character
    and that reads back as the value. *)
Definition sextet_ok (k : nat) : bool :=
  let n := N.of_nat k in
  match b64_index (b64_char n) with
  | Some m => N.eqb m n
  | None => false
  end && negb (Ascii.eqb (b64_char n) b64_pad).

(** The bytes of a text of 8-bit characters, as the tests build them. *)
Definition bytes_of_string (s : string) : list byte :=
  map byte_of_ascii (list_ascii_of_string s).

End AudioUtils.

Import AudioUtils.

(* ================================================================== *)
(** ** components/LiveAssistant.tsx *)
(* ================================================================== *)

Module LiveAssistant.

Local Open Scope Z_scope.

(** *** Platform objects *)

Record MediaStreamTrack := { track_id : nat; track_live : bool }.

Record MediaStream := { stream_tracks : list MediaStreamTrack }.

Record AudioContext := { ctx_sampleRate : Z; ctx_closed : bool }.

(** A [MediaStreamAudioSourceNode]. *)
Record StreamSourceNode := { ssn_connected : bool }.

(** A [ScriptProcessorNode] together with its [onaudioprocess] handler.
    The handler is a closure: [proc_isMuted] is the [isMuted] binding it
    closed over when it was created. *)
Record ScriptProcessor := {
  proc_bufferSize : Z;
  proc_connected : bool;
  proc_isMuted : bool
}.

(** An [AudioBufferSourceNode] that was started: when it starts and how
    long its buffer lasts. *)
Record BufferSource := {
  src_id : nat;
  src_start : Q;
  src_duration : Q
}.

Inductive PromiseState := Pending | Fulfilled | Rejected.

(** What was chained on the session promise with [.then]. *)
Inductive Deferred :=
| DSend (data : string)
| DClose.

(** The promise returned by [ai.live.connect], with the callbacks given to
    it.  The callbacks are closures of the render in which [connect] ran:
    [sess_isMuted] is that render's [isMuted]. *)
Record Session := {
  sess_state : PromiseState;
  sess_deferred : list Deferred;
  sess_isMuted : bool
}.

(** An [onmessage] call suspended at [await decodeAudioData(...)]: the
    bytes being decoded and what the rest of the handler still reads from
    the message. *)
Record PendingDecode := {
  pd_bytes : list byte;
  pd_interrupted : bool
}.

Inductive ContextRole := InputContext | OutputContext.

(** The calls into the platform that can be observed, oldest first. *)
Inductive Effect :=
| EAlert (msg : string)
| EConsoleError
| ENewAudioContext (role : ContextRole) (rate : Z)
| EGetUserMedia (granted : bool)
| ELiveConnect
| ECreateMediaStreamSource
| ECreateScriptProcessor (bufferSize : Z)
| ESendRealtimeInput (mimeType data : string)
| ESourceStart (id : nat) (when : Q)
| ESourceStop (id : nat) (threw : bool)
| ETrackStop (id : nat)
| EStreamSourceDisconnect
| EProcessorDisconnect
| EContextClose (role : ContextRole)
| ESessionClose.

(** *** The component: React state, refs, suspended handlers *)

Record World := {
  isConnected : bool;
  isMuted : bool;
  logs : list string;
  inputContextRef : option AudioContext;
  outputContextRef : option AudioContext;
  streamRef : option MediaStream;
  processorRef : option ScriptProcessor;
  sourceRef : option StreamSourceNode;
  nextStartTimeRef : Q;
  scheduledSourcesRef : list BufferSource;
  sessionRef : option Session;
  pendingDecodes : list PendingDecode;
  nextSourceId : nat;
  trace : list Effect
}.

Definition initial : World := {|
  isConnected := false;
  isMuted := false;
  logs := [];
  inputContextRef := None;
  outputContextRef := None;
  streamRef := None;
  processorRef := None;
  sourceRef := None;
  nextStartTimeRef := 0%Q;
  scheduledSourcesRef := [];
  sessionRef := None;
  pendingDecodes := [];
  nextSourceId := O;
  trace := []
|}.

Definition setIsConnected (b : bool) (w : World) : World :=
  {| isConnected := b; isMuted := isMuted w; logs := logs w;
     inputContextRef := inputContextRef w; outputContextRef := outputContextRef w;
     streamRef := streamRef w; processorRef := processorRef w;
     sourceRef := sourceRef w; nextStartTimeRef := nextStartTimeRef w;
     scheduledSourcesRef := scheduledSourcesRef w; sessionRef := sessionRef w;
     pendingDecodes := pendingDecodes w; nextSourceId := nextSourceId w;
     trace := trace w |}.

Definition setIsMuted (b : bool) (w : World) : World :=
  {| isConnected := isConnected w; isMuted := b; logs := logs w;
     inputContextRef := inputContextRef w; outputContextRef := outputContextRef w;
     streamRef := streamRef w; processorRef := processorRef w;
     sourceRef := sourceRef w; nextStartTimeRef := nextStartTimeRef w;
     scheduledSourcesRef := scheduledSourcesRef w; sessionRef := sessionRef w;
     pendingDecodes := pendingDecodes w; nextSourceId := nextSourceId w;
     trace := trace w |}.

Definition setLogs (l : list string) (w : World) : World :=
  {| isConnected := isConnected w; isMuted := isMuted w; logs := l;
     inputContextRef := inputContextRef w; outputContextRef := outputContextRef w;
     streamRef := streamRef w; processorRef := processorRef w;
     sourceRef := sourceRef w; nextStartTimeRef := nextStartTimeRef w;
     scheduledSourcesRef := scheduledSourcesRef w; sessionRef := sessionRef w;
     pendingDecodes := pendingDecodes w; nextSourceId := nextSourceId w;
     trace := trace w |}.

Definition set_inputContext (c : option AudioContext) (w : World) : World :=
  {| isConnected := isConnected w; isMuted := isMuted w; logs := logs w;
     inputContextRef := c; outputContextRef := outputContextRef w;
     streamRef := streamRef w; processorRef := processorRef w;
     sourceRef := sourceRef w; nextStartTimeRef := nextStartTimeRef w;
     scheduledSourcesRef := scheduledSourcesRef w; sessionRef := sessionRef w;
     pendingDecodes := pendingDecodes w; nextSourceId := nextSourceId w;
     trace := trace w |}.

Definition set_outputContext (c : option AudioContext) (w : World) : World :=
  {| isConnected := isConnected w; isMuted := isMuted w; logs := logs w;
     inputContextRef := inputContextRef w; outputContextRef := c;
     streamRef := streamRef w; processorRef := processorRef w;
     sourceRef := sourceRef w; nextStartTimeRef := nextStartTimeRef w;
     scheduledSourcesRef := scheduledSourcesRef w; sessionRef := sessionRef w;
     pendingDecodes := pendingDecodes w; nextSourceId := nextSourceId w;
     trace := trace w |}.

Definition set_stream (s : option MediaStream) (w : World) : World :=
  {| isConnected := isConnected w; isMuted := isMuted w; logs := logs w;
     inputContextRef := inputContextRef w; outputContextRef := outputContextRef w;
     streamRef := s; processorRef := processorRef w;
     sourceRef := sourceRef w; nextStartTimeRef := nextStartTimeRef w;
     scheduledSourcesRef := scheduledSourcesRef w; sessionRef := sessionRef w;
     pendingDecodes := pendingDecodes w; nextSourceId := nextSourceId w;
     trace := trace w |}.

Definition set_processor (p : option ScriptProcessor) (w : World) : World :=
  {| isConnected := isConnected w; isMuted := isMuted w; logs := logs w;
     inputContextRef := inputContextRef w; outputContextRef := outputContextRef w;
     streamRef := streamRef w; processorRef := p;
     sourceRef := sourceRef w; nextStartTimeRef := nextStartTimeRef w;
     scheduledSourcesRef := scheduledSourcesRef w; sessionRef := sessionRef w;
     pendingDecodes := pendingDecodes w; nextSourceId := nextSourceId w;
     trace := trace w |}.

Definition set_source (s : option StreamSourceNode) (w : World) : World :=
  {| isConnected := isConnected w; isMuted := isMuted w; logs := logs w;
     inputContextRef := inputContextRef w; outputContextRef := outputContextRef w;
     streamRef := streamRef w; processorRef := processorRef w;
     sourceRef := s; nextStartTimeRef := nextStartTimeRef w;
     scheduledSourcesRef := scheduledSourcesRef w; sessionRef := sessionRef w;
     pendingDecodes := pendingDecodes w; nextSourceId := nextSourceId w;
     trace := trace w |}.

Definition set_nextStartTime (t : Q) (w : World) : World :=
  {| isConnected := isConnected w; isMuted := isMuted w; logs := logs w;
     inputContextRef := inputContextRef w; outputContextRef := outputContextRef w;
     streamRef := streamRef w; processorRef := processorRef w;
     sourceRef := sourceRef w; nextStartTimeRef := t;
     scheduledSourcesRef := scheduledSourcesRef w; sessionRef := sessionRef w;
     pendingDecodes := pendingDecodes w; nextSourceId := nextSourceId w;
     trace := trace w |}.

Definition set_scheduledSources (l : list BufferSource) (w : World) : World :=
  {| isConnected := isConnected w; isMuted := isMuted w; logs := logs w;
     inputContextRef := inputContextRef w; outputContextRef := outputContextRef w;
     streamRef := streamRef w; processorRef := processorRef w;
     sourceRef := sourceRef w; nextStartTimeRef := nextStartTimeRef w;
     scheduledSourcesRef := l; sessionRef := sessionRef w;
     pendingDecodes := pendingDecodes w; nextSourceId := nextSourceId w;
     trace := trace w |}.

Definition set_session (s : option Session) (w : World) : World :=
  {| isConnected := isConnected w; isMuted := isMuted w; logs := logs w;
     inputContextRef := inputContextRef w; outputContextRef := outputContextRef w;
     streamRef := streamRef w; processorRef := processorRef w;
     sourceRef := sourceRef w; nextStartTimeRef := nextStartTimeRef w;
     scheduledSourcesRef := scheduledSourcesRef w; sessionRef := s;
     pendingDecodes := pendingDecodes w; nextSourceId := nextSourceId w;
     trace := trace w |}.

Definition set_pendingDecodes (l : list PendingDecode) (w : World) : World :=
  {| isConnected := isConnected w; isMuted := isMuted w; logs := logs w;
     inputContextRef := inputContextRef w; outputContextRef := outputContextRef w;
     streamRef := streamRef w; processorRef := processorRef w;
     sourceRef := sourceRef w; nextStartTimeRef := nextStartTimeRef w;
     scheduledSourcesRef := scheduledSourcesRef w; sessionRef := sessionRef w;
     pendingDecodes := l; nextSourceId := nextSourceId w;
     trace := trace w |}.

Definition set_nextSourceId (n : nat) (w : World) : World :=
  {| isConnected := isConnected w; isMuted := isMuted w; logs := logs w;
     inputContextRef := inputContextRef w; outputContextRef := outputContextRef w;
     streamRef := streamRef w; processorRef := processorRef w;
     sourceRef := sourceRef w; nextStartTimeRef := nextStartTimeRef w;
     scheduledSourcesRef := scheduledSourcesRef w; sessionRef := sessionRef w;
     pendingDecodes := pendingDecodes w; nextSourceId := n;
     trace := trace w |}.

Definition set_trace (t : list Effect) (w : World) : World :=
  {| isConnected := isConnected w; isMuted := isMuted w; logs := logs w;
     inputContextRef := inputContextRef w; outputContextRef := outputContextRef w;
     streamRef := streamRef w; processorRef := processorRef w;
     sourceRef := sourceRef w; nextStartTimeRef := nextStartTimeRef w;
     scheduledSourcesRef := scheduledSourcesRef w; sessionRef := sessionRef w;
     pendingDecodes := pendingDecodes w; nextSourceId := nextSourceId w;
     trace := t |}.

(** Record one platform call, or several in order. *)
Definition emit (e : Effect) (w : World) : World :=
  set_trace (trace w ++ [e]) w.

Definition emits (es : list Effect) (w : World) : World :=
  set_trace (trace w ++ es) w.

(** [addLog]: [setLogs(prev => [msg, ...prev].slice(0, 5))]. *)
Definition addLog (msg : string) (w : World) : World :=
  setLogs (firstn 5 (msg :: logs w)) w.

(** *** The session promise *)

Definition perform (d : Deferred) : Effect :=
  match d with
  | DSend data => ESendRealtimeInput "audio/pcm;rate=16000" data
  | DClose => ESessionClose
  end.

Definition with_state (st : PromiseState) (ds : list Deferred) (s : Session)
  : Session :=
  {| sess_state := st; sess_deferred := ds; sess_isMuted := sess_isMuted s |}.

(** [promise.then(cb)] on the session promise: [cb] runs at once (as a
    microtask, after the synchronous code that chained it) when the promise
    is fulfilled, waits while it is pending, and never runs when it was
    rejected.  With no promise in the ref, [?.] skips the call. *)
Definition session_then (d : Deferred) (w : World) : World :=
  match sessionRef w with
  | None => w
  | Some s =>
      match sess_state s with
      | Fulfilled => emit (perform d) w
      | Pending =>
          set_session (Some (with_state Pending (sess_deferred s ++ [d]) s)) w
      | Rejected => w
      end
  end.

(** The promise of [ai.live.connect] is fulfilled: the chained callbacks
    run in the order they were chained. *)
Definition session_resolved (w : World) : World :=
  match sessionRef w with
  | Some s =>
      match sess_state s with
      | Pending =>
          emits (map perform (sess_deferred s))
                (set_session (Some (with_state Fulfilled [] s)) w)
      | _ => w
      end
  | None => w
  end.

(** The promise of [ai.live.connect] is rejected: the connection could not
    be established.  Nothing in the component handles the rejection. *)
Definition session_rejected (w : World) : World :=
  match sessionRef w with
  | Some s =>
      match sess_state s with
      | Pending => set_session (Some (with_state Rejected [] s)) w
      | _ => w
      end
  | None => w
  end.

(** *** connect *)

Record ConnectEnv := {
  env_apiKey : option string;       (* process.env.API_KEY *)
  env_microphone : option MediaStream  (* getUserMedia: a stream, or rejected *)
}.

Definition truthy (o : option string) : bool :=
  match o with
  | Some s => negb (String.eqb s "")
  | None => false
  end.

(** The body of [connect].  The [await] on [getUserMedia] is taken in one
    step, with what it yields given by the environment; a rejection lands
    in the [catch] block.  [ai.live.connect] is not awaited: the promise it
    returns goes into [sessionRef] as it is.  [isMuted w] is the [isMuted]
    of the render whose [connect] this is; the callbacks close over it. *)
Definition connect (env : ConnectEnv) (w : World) : World :=
  if negb (truthy (env_apiKey env)) then emit (EAlert "API Key missing") w
  else
    let w1 := set_inputContext
                (Some {| ctx_sampleRate := 16000; ctx_closed := false |})
                (emit (ENewAudioContext InputContext 16000) w) in
    let w2 := set_outputContext
                (Some {| ctx_sampleRate := 24000; ctx_closed := false |})
                (emit (ENewAudioContext OutputContext 24000) w1) in
    match env_microphone env with
    | Some stream =>
        let w3 := set_stream (Some stream) (emit (EGetUserMedia true) w2) in
        let w4 := addLog "Connecting to Live API..." w3 in
        set_session
          (Some {| sess_state := Pending; sess_deferred := [];
                   sess_isMuted := isMuted w |})
          (emit ELiveConnect w4)
    | None =>
        (* catch (e) *)
        addLog "Connection failed" (emit EConsoleError
          (emit (EGetUserMedia false) w2))
    end.

(** *** The capture callbacks *)

(** [onopen], a closure of the render in which [connect] ran; [closed_isMuted]
    is that render's [isMuted], which the [onaudioprocess] handler created
    here closes over in turn. *)
Definition onopen (closed_isMuted : bool) (w : World) : World :=
  let w1 := setIsConnected true (addLog "Session Open" w) in
  match inputContextRef w1 with
  | None => w1
  | Some _ =>
      let w2 := set_source (Some {| ssn_connected := false |})
                  (emit ECreateMediaStreamSource w1) in
      let w3 := set_processor
                  (Some {| proc_bufferSize := 4096; proc_connected := false;
                           proc_isMuted := closed_isMuted |})
                  (emit (ECreateScriptProcessor 4096) w2) in
      let w4 := set_source (Some {| ssn_connected := true |}) w3 in
      set_processor
        (Some {| proc_bufferSize := 4096; proc_connected := true;
                 proc_isMuted := closed_isMuted |}) w4
  end.

(** [processor.onaudioprocess], for the processor [p] it was installed
    on. *)
Definition onaudioprocess (p : ScriptProcessor) (inputData : list Q)
  (w : World) : World :=
  if proc_isMuted p then w
  else
    let pcm16 := float32ToPCM16 inputData in
    let base64Data := arrayBufferToBase64 (int16_buffer pcm16) in
    session_then (DSend base64Data) w.

(** The mute button: [setIsMuted(!isMuted)]. *)
Definition toggleMute (w : World) : World := setIsMuted (negb (isMuted w)) w.

(** *** disconnect *)

Definition stop_track (t : MediaStreamTrack) : MediaStreamTrack :=
  {| track_id := track_id t; track_live := false |}.

Definition stop_tracks (w : World) : World :=
  match streamRef w with
  | Some st =>
      set_stream (Some {| stream_tracks := map stop_track (stream_tracks st) |})
        (emits (map (fun t => ETrackStop (track_id t)) (stream_tracks st)) w)
  | None => w
  end.

Definition disconnect_source (w : World) : World :=
  match sourceRef w with
  | Some _ =>
      set_source (Some {| ssn_connected := false |})
        (emit EStreamSourceDisconnect w)
  | None => w
  end.

Definition disconnect_processor (w : World) : World :=
  match processorRef w with
  | Some p =>
      set_processor
        (Some {| proc_bufferSize := proc_bufferSize p; proc_connected := false;
                 proc_isMuted := proc_isMuted p |})
        (emit EProcessorDisconnect w)
  | None => w
  end.

Definition close_context (c : AudioContext) : AudioContext :=
  {| ctx_sampleRate := ctx_sampleRate c; ctx_closed := true |}.

Definition close_input (w : World) : World :=
  match inputContextRef w with
  | Some c =>
      set_inputContext (Some (close_context c))
        (emit (EContextClose InputContext) w)
  | None => w
  end.

Definition close_output (w : World) : World :=
  match outputContextRef w with
  | Some c =>
      set_outputContext (Some (close_context c))
        (emit (EContextClose OutputContext) w)
  | None => w
  end.

(** The body of [disconnect], statement by statement.  The callback chained
    on the session promise runs after the synchronous rest of the function,
    which only sets React state. *)
Definition disconnect (w : World) : World :=
  let w1 := stop_tracks w in
  let w2 := disconnect_source w1 in
  let w3 := disconnect_processor w2 in
  let w4 := close_input w3 in
  let w5 := close_output w4 in
  let w6 := setLogs [] (setIsMuted false (setIsConnected false w5)) in
  session_then DClose w6.

(** *** The playback scheduler: onmessage *)

Record LiveServerMessage := {
  (* msg.serverContent?.modelTurn?.parts?.[0]?.inlineData?.data *)
  msg_audio : option string;
  (* msg.serverContent?.interrupted *)
  msg_interrupted : bool
}.

(** The two inbound events of the spec, as messages. *)
Definition AudioChunk (data : string) : LiveServerMessage :=
  {| msg_audio := Some data; msg_interrupted := false |}.

Definition Interrupted : LiveServerMessage :=
  {| msg_audio := None; msg_interrupted := true |}.

(** [x < y] on numbers. *)
Definition Qltb (x y : Q) : bool := negb (Qle_bool y x).

Section Platform.

(** Whether [stop()] raises for a given source node; the platform decides. *)
Variable stop_throws : BufferSource -> bool.

(** [try { s.stop(); } catch (e) {}] *)
Definition stop_source (s : BufferSource) : Effect :=
  ESourceStop (src_id s) (stop_throws s).

(** The [if (msg.serverContent?.interrupted)] block. *)
Definition handle_interruption (interrupted : bool) (w : World) : World :=
  if interrupted then
    let w1 := addLog "Interrupted" w in
    let w2 := emits (map stop_source (scheduledSourcesRef w1)) w1 in
    set_nextStartTime 0%Q (set_scheduledSources [] w2)
  else w.

(** [onmessage] up to the [await]: with audio in the message and an output
    context, the handler suspends while the chunk is decoded (when the text
    is not base64 the handler ends with an exception and does nothing
    more); otherwise it goes on to the interruption block at once. *)
Definition onmessage (msg : LiveServerMessage) (w : World) : World :=
  match msg_audio msg, outputContextRef w with
  | Some base64Audio, Some _ =>
      if truthy (Some base64Audio) then
        match base64ToUint8Array base64Audio with
        | Some bytes =>
            set_pendingDecodes
              (pendingDecodes w ++
                 [{| pd_bytes := bytes;
                     pd_interrupted := msg_interrupted msg |}]) w
        | None => w
        end
      else handle_interruption (msg_interrupted msg) w
  | _, _ => handle_interruption (msg_interrupted msg) w
  end.

(** The gapless playback logic: what [nextStartTimeRef.current] is once the
    cursor has caught up with the clock. *)
Definition catch_up (nextStartTime currentTime : Q) : Q :=
  if Qltb nextStartTime currentTime then currentTime else nextStartTime.

(** [onmessage] after the [await]: [duration] is [audioBuffer.duration] of
    the decoded chunk and [currentTime] is [ctx.currentTime] at that
    moment. *)
Definition onmessage_resume (pd : PendingDecode) (duration currentTime : Q)
  (w : World) : World :=
  let start := catch_up (nextStartTimeRef w) currentTime in
  let source := {| src_id := nextSourceId w; src_start := start;
                   src_duration := duration |} in
  let w1 := set_nextSourceId (S (nextSourceId w)) w in
  let w2 := set_nextStartTime start w1 in
  let w3 := emit (ESourceStart (src_id source) start) w2 in
  let w4 := set_nextStartTime (nextStartTimeRef w3 + duration)%Q w3 in
  let w5 := set_scheduledSources (scheduledSourcesRef w4 ++ [source]) w4 in
  handle_interruption (pd_interrupted pd) w5.

(** [onclose] and [onerror]. *)
Definition onclose (w : World) : World :=
  disconnect (addLog "Session Closed" w).

Definition onerror (w : World) : World :=
  disconnect (addLog "Error occurred" (emit EConsoleError w)).

(** *** Events *)

Inductive Event :=
| EvConnect (env : ConnectEnv)          (* the Connect Live button *)
| EvToggleMute                          (* the mute button *)
| EvDisconnect                          (* the End Session button *)
| EvSessionResolved                     (* the session promise is fulfilled *)
| EvSessionRejected                     (* the session promise is rejected *)
| EvOpen                                (* callbacks.onopen *)
| EvMessage (msg : LiveServerMessage)   (* callbacks.onmessage *)
| EvClose                               (* callbacks.onclose *)
| EvError                               (* callbacks.onerror *)
| EvDecoded (i : nat) (duration currentTime : Q)
                                        (* the i-th pending decode is done *)
| EvDecodeFailed (i : nat)              (* the i-th pending decode failed *)
| EvAudioProcess (inputData : list Q).  (* one captured frame *)

Fixpoint remove_nth {A} (i : nat) (l : list A) : list A :=
  match i, l with
  | _, [] => []
  | O, _ :: t => t
  | S j, x :: t => x :: remove_nth j t
  end.

(** One turn of the event loop.  The buttons exist only in the renders
    that show them; a frame is delivered only to a connected processor;
    the session callbacks belong to the session in the ref. *)
Definition step (ev : Event) (w : World) : World :=
  match ev with
  | EvConnect env => if isConnected w then w else connect env w
  | EvToggleMute => if isConnected w then toggleMute w else w
  | EvDisconnect => if isConnected w then disconnect w else w
  | EvSessionResolved => session_resolved w
  | EvSessionRejected => session_rejected w
  | EvOpen =>
      match sessionRef w with
      | Some s => onopen (sess_isMuted s) w
      | None => w
      end
  | EvMessage msg => onmessage msg w
  | EvClose => onclose w
  | EvError => onerror w
  | EvDecoded i duration currentTime =>
      match nth_error (pendingDecodes w) i with
      | Some pd =>
          onmessage_resume pd duration currentTime
            (set_pendingDecodes (remove_nth i (pendingDecodes w)) w)
      | None => w
      end
  | EvDecodeFailed i =>
      set_pendingDecodes (remove_nth i (pendingDecodes w)) w
  | EvAudioProcess inputData =>
      match processorRef w with
      | Some p =>
          if proc_connected p then onaudioprocess p inputData w else w
      | None => w
      end
  end.

Definition run (evs : list Event) (w : World) : World :=
  fold_left (fun w ev => step ev w) evs w.

(** Chunks handed to the scheduler one after the other: each is a handler
    resumed after its decode, with the duration of its buffer and the
    reading of the output clock at that moment. *)
Record Chunk := {
  chunk_decode : PendingDecode;
  chunk_duration : Q;
  chunk_currentTime : Q
}.

Definition deliver (c : Chunk) (w : World) : World :=
  onmessage_resume (chunk_decode c) (chunk_duration c) (chunk_currentTime c) w.

Definition deliver_chunks (chunks : list Chunk) (w : World) : World :=
  fold_left (fun w c => deliver c w) chunks w.

Definition no_interruption (chunks : list Chunk) : bool :=
  forallb (fun c => negb (pd_interrupted (chunk_decode c))) chunks.

End Platform.

(** *** Reading a trace *)

(** No chunk is delivered after the cursor has fallen behind the clock:
    starting from the cursor [cursor], every chunk arrives while the clock
    has not passed the end of the chunk before it. *)
Fixpoint on_time (cursor : Q) (chunks : list Chunk) : Prop :=
  match chunks with
  | [] => True
  | c :: rest =>
      (chunk_currentTime c <= cursor)%Q
      /\ on_time (cursor + chunk_duration c)%Q rest
  end.

(** Start times laid end to end from [t0]. *)
Fixpoint contiguous_from (t0 : Q) (durations : list Q) : list Q :=
  match durations with
  | [] => []
  | d :: rest => t0 :: contiguous_from (t0 + d)%Q rest
  end.

(** Each source starts no earlier than the end of the one before. *)
Fixpoint non_overlapping (srcs : list BufferSource) : Prop :=
  match srcs with
  | s1 :: ((s2 :: _) as rest) =>
      (src_start s1 + src_duration s1 <= src_start s2)%Q
      /\ non_overlapping rest
  | _ => True
  end.

(** The sources that were started and not told to stop since. *)
Definition observe_playback (acc : list nat) (e : Effect) : list nat :=
  match e with
  | ESourceStart id _ => acc ++ [id]
  | ESourceStop id _ => remove Nat.eq_dec id acc
  | _ => acc
  end.

Definition playing (tr : list Effect) : list nat :=
  fold_left observe_playback tr [].

Definition is_send (e : Effect) : bool :=
  match e with
  | ESendRealtimeInput _ _ => true
  | _ => false
  end.

(** The frames that reached the transport. *)
Definition frames_sent (w : World) : nat :=
  List.length (filter is_send (trace w)).

(** The calls that start the capture pipeline. *)
Definition starts_capture (e : Effect) : bool :=
  match e with
  | ECreateMediaStreamSource | ECreateScriptProcessor _
  | ESendRealtimeInput _ _ => true
  | _ => false
  end.

(** Which component of the pipeline a call releases a resource of. *)
Inductive Component := Capture | Transport | Playback.

Definition releases (e : Effect) : option Component :=
  match e with
  | ETrackStop _ | EStreamSourceDisconnect | EProcessorDisconnect
  | EContextClose InputContext => Some Capture
  | EContextClose OutputContext => Some Playback
  | ESessionClose => Some Transport
  | _ => None
  end.

Fixpoint release_order (tr : list Effect) : list Component :=
  match tr with
  | [] => []
  | e :: rest =>
      match releases e with
      | Some c => c :: release_order rest
      | None => release_order rest
      end
  end.

(** Capture, then Transport, then Playback. *)
Definition rank_capture_transport_playback (c : Component) : nat :=
  match c with Capture => 0 | Transport => 1 | Playback => 2 end%nat.

(** Capture, then Playback, then Transport. *)
Definition rank_capture_playback_transport (c : Component) : nat :=
  match c with Capture => 0 | Playback => 1 | Transport => 2 end%nat.

Fixpoint in_order (rank : Component -> nat) (l : list Component) : bool :=
  match l with
  | c1 :: ((c2 :: _) as rest) =>
      Nat.leb (rank c1) (rank c2) && in_order rank rest
  | _ => true
  end.

(** A chunk of audio with no interruption flag on its message. *)
Definition chunk_at (currentTime duration : Q) : Chunk :=
  {| chunk_decode := {| pd_bytes := []; pd_interrupted := false |};
     chunk_duration := duration;
     chunk_currentTime := currentTime |}.

(** The sources the scheduler creates for a run of chunks, from the cursor
    and the next free source identifier. *)
Fixpoint scheduled (cursor : Q) (id : nat) (chunks : list Chunk)
  : list BufferSource :=
  match chunks with
  | [] => []
  | c :: rest =>
      let start := catch_up cursor (chunk_currentTime c) in
      {| src_id := id; src_start := start; src_duration := chunk_duration c |}
      :: scheduled (start + chunk_duration c)%Q (S id) rest
  end.

Definition start_call (s : BufferSource) : Effect :=
  ESourceStart (src_id s) (src_start s).

(** A call that neither starts nor stops a source. *)
Definition playback_neutral (e : Effect) : bool :=
  match e with
  | ESourceStart _ _ | ESourceStop _ _ => false
  | _ => true
  end.

(** [w'] comes from [w] by calls that leave playback alone. *)
Definition quiet (w w' : World) : Prop :=
  scheduledSourcesRef w' = scheduledSourcesRef w
  /\ exists es, trace w' = trace w ++ es
                /\ forallb playback_neutral es = true.

(** [w'] comes from [w] by more calls into the platform. *)
Definition grows (w w' : World) : Prop :=
  exists es, trace w' = trace w ++ es.

(** Every source that is playing or scheduled is in the scheduled-source
    set. *)
Definition tracked (w : World) : Prop :=
  incl (playing (trace w)) (map src_id (scheduledSourcesRef w)).

(** In a run of calls, the microphone is acquired before the connection
    to the remote endpoint is requested. *)
Fixpoint microphone_first (acquired : bool) (es : list Effect) : bool :=
  match es with
  | [] => true
  | EGetUserMedia true :: rest => microphone_first true rest
  | ELiveConnect :: rest => acquired && microphone_first acquired rest
  | _ :: rest => microphone_first acquired rest
  end.

Definition is_context_close (e : Effect) : bool :=
  match e with
  | EContextClose _ => true
  | _ => false
  end.

(** *** The environments and frames of the scenarios *)

Definition microphone : MediaStream :=
  {| stream_tracks := [{| track_id := 0; track_live := true |}] |}.

(** An API key is configured and the user grants the microphone. *)
Definition granted : ConnectEnv :=
  {| env_apiKey := Some "key"%string; env_microphone := Some microphone |}.

(** An API key is configured and [getUserMedia] is rejected. *)
Definition denied : ConnectEnv :=
  {| env_apiKey := Some "key"%string; env_microphone := None |}.

(** The microphone as a later [getUserMedia] hands it out: a stream of its
    own, with a track of its own. *)
Definition second_microphone : MediaStream :=
  {| stream_tracks := [{| track_id := 1; track_live := true |}] |}.

Definition granted_again : ConnectEnv :=
  {| env_apiKey := Some "key"%string;
     env_microphone := Some second_microphone |}.

(** One frame of 4096 silent samples. *)
Definition silent_frame : list Q := repeat 0%Q 4096.

(** No source ever raises on [stop()]. *)
Definition never_throws (s : BufferSource) : bool := false.

(** The session controller is in [Disconnected]. *)
Definition Disconnected (w : World) : Prop := isConnected w = false.

Definition tracks_ended (o : option MediaStream) : bool :=
  match o with
  | Some st => forallb (fun t => negb (track_live t)) (stream_tracks st)
  | None => true
  end.

Definition context_released (o : option AudioContext) : bool :=
  match o with
  | Some c => ctx_closed c
  | None => true
  end.

(** The microphone stream and the capture graph that the refs hold are
    released: no track of the stream in [streamRef] is live, the nodes in
    [sourceRef] and [processorRef] are taken apart, and the context in
    [inputContextRef] is closed.  Only what the refs hold now is looked at:
    an object that a later [connect] has overwritten in its ref is out of
    sight. *)
Definition microphone_released (w : World) : bool :=
  tracks_ended (streamRef w)
  && match sourceRef w with Some n => negb (ssn_connected n) | None => true end
  && match processorRef w with
     | Some p => negb (proc_connected p)
     | None => true
     end
  && context_released (inputContextRef w).

(** The output context that [outputContextRef] holds is closed. *)
Definition output_released (w : World) : bool :=
  context_released (outputContextRef w).

(** The session promise that [sessionRef] holds: a [close()] was called on
    a session, or is queued on the promise, or the promise was rejected, or
    there is none. *)
Definition transport_released (w : World) : Prop :=
  match sessionRef w with
  | None => True
  | Some s =>
      match sess_state s with
      | Fulfilled => In ESessionClose (trace w)
      | Pending => In DClose (sess_deferred s)
      | Rejected => True
      end
  end.

(** A stream after [getTracks().forEach(t => t.stop())]. *)
Definition stopped_stream (st : MediaStream) : MediaStream :=
  {| stream_tracks := map stop_track (stream_tracks st) |}.

(** A processor node after [disconnect()]; its handler stays as it is. *)
Definition unplugged (p : ScriptProcessor) : ScriptProcessor :=
  {| proc_bufferSize := proc_bufferSize p; proc_connected := false;
     proc_isMuted := proc_isMuted p |}.

(** The refs of [w'] hold the objects the refs of [w] held, each one
    released: the stream with its tracks stopped, the capture nodes
    disconnected, the two contexts closed. *)
Definition released_from (w w' : World) : Prop :=
  streamRef w' = option_map stopped_stream (streamRef w)
  /\ sourceRef w'
     = option_map (fun _ => {| ssn_connected := false |}) (sourceRef w)
  /\ processorRef w' = option_map unplugged (processorRef w)
  /\ inputContextRef w' = option_map close_context (inputContextRef w)
  /\ outputContextRef w' = option_map close_context (outputContextRef w).

Definition is_track_stop (e : Effect) : bool :=
  match e with
  | ETrackStop _ => true
  | _ => false
  end.

Definition is_session_close (e : Effect) : bool :=
  match e with
  | ESessionClose => true
  | _ => false
  end.

(** What becomes of the session promise that [sessionRef] holds in [w],
    when [w'] comes from [w] by the calls [es]: a fulfilled session gets
    one [close()], as the last of the calls; on a pending promise the
    [close()] is queued behind what was chained before; a rejected promise
    and an empty ref are left alone, and no session is closed. *)
Definition closes_session (w w' : World) (es : list Effect) : Prop :=
  match sessionRef w with
  | Some s =>
      match sess_state s with
      | Fulfilled =>
          sessionRef w' = Some s
          /\ exists es0, es = es0 ++ [ESessionClose]
                         /\ filter is_session_close es0 = []
      | Pending =>
          sessionRef w'
          = Some (with_state Pending (sess_deferred s ++ [DClose]) s)
          /\ filter is_session_close es = []
      | Rejected =>
          sessionRef w' = Some s /\ filter is_session_close es = []
      end
  | None => sessionRef w' = None /\ filter is_session_close es = []
  end.

(** Two states with the same React state and the same objects, in the same
    condition, in the refs; the record of the calls made and what is queued
    on the session promise may differ. *)
Definition same_state (w w' : World) : Prop :=
  isConnected w' = isConnected w
  /\ isMuted w' = isMuted w
  /\ logs w' = logs w
  /\ inputContextRef w' = inputContextRef w
  /\ outputContextRef w' = outputContextRef w
  /\ streamRef w' = streamRef w
  /\ processorRef w' = processorRef w
  /\ sourceRef w' = sourceRef w
  /\ nextStartTimeRef w' = nextStartTimeRef w
  /\ scheduledSourcesRef w' = scheduledSourcesRef w
  /\ pendingDecodes w' = pendingDecodes w
  /\ nextSourceId w' = nextSourceId w
  /\ option_map sess_state (sessionRef w')
     = option_map sess_state (sessionRef w).

End LiveAssistant.

(* ================================================================== *)
(** ** LiveAssistant: what holds in every execution *)
(* ================================================================== *)

Module Reachable.

Import LiveAssistant.

Definition is_some {A} (o : option A) : bool :=
  match o with
  | Some _ => true
  | None => false
  end.

(** The mute flag is on only while the controller shows the session as
    connected. *)
Definition mute_needs_connection (w : World) : bool :=
  isConnected w || negb (isMuted w).

(** No callback of the session and no [onaudioprocess] handler has closed
    over a mute flag that was on. *)
Definition closures_unmuted (w : World) : bool :=
  match sessionRef w with
  | Some s => negb (sess_isMuted s)
  | None => true
  end
  && match processorRef w with
     | Some p => negb (proc_isMuted p)
     | None => true
     end.

(** When there is a session, there are the two audio contexts and the
    microphone stream [connect] sets up before it asks for one. *)
Definition session_has_resources (w : World) : bool :=
  match sessionRef w with
  | Some _ =>
      is_some (inputContextRef w) && is_some (outputContextRef w)
      && is_some (streamRef w)
  | None => true
  end.

Definition healthy (w : World) : Prop :=
  (List.length (logs w) <= 5)%nat
  /\ mute_needs_connection w = true
  /\ closures_unmuted w = true
  /\ session_has_resources w = true.

(** What [onaudioprocess] sends for a frame. *)
Definition frame_payload (inputData : list Q) : string :=
  arrayBufferToBase64 (int16_buffer (float32ToPCM16 inputData)).

Definition send_call (inputData : list Q) : Effect :=
  ESendRealtimeInput "audio/pcm;rate=16000" (frame_payload inputData).

(** Where the cursor is once a run of chunks has been scheduled. *)
Fixpoint cursor_after (cursor : Q) (chunks : list Chunk) : Q :=
  match chunks with
  | [] => cursor
  | c :: rest =>
      cursor_after
        (catch_up cursor (chunk_currentTime c) + chunk_duration c)%Q rest
  end.

(** When a source has played its buffer to the end. *)
Definition src_end (s : BufferSource) : Q :=
  (src_start s + src_duration s)%Q.

(** A message that carries both a chunk of audio and the interruption
    flag. *)
Definition InterruptedChunk (data : string) : LiveServerMessage :=
  {| msg_audio := Some data; msg_interrupted := true |}.

End Reachable.

(* ================================================================== *)
(** ** services/geminiService.ts: the guards in front of the API *)
(* ================================================================== *)

Module GeminiService.

Local Open Scope Z_scope.

(** What a function gives back: a value, or the message of the [Error] it
    throws. *)
Inductive Result (A : Type) :=
| Ok (a : A)
| Throw (message : string).

Arguments Ok {A} a.
Arguments Throw {A} message.

(** *** checkRateLimit *)

Record RateEntry := { count : Z; resetTime : Z }.

(** [rateLimitMap], a [Map] from action names to entries. *)
Definition RateLimitMap := list (string * RateEntry).

Fixpoint map_get (key : string) (m : RateLimitMap) : option RateEntry :=
  match m with
  | [] => None
  | (k, e) :: rest => if String.eqb k key then Some e else map_get key rest
  end.

(** [Map.set]: an entry under a key already there is replaced where it
    is, a new key goes last. *)
Fixpoint map_set (key : string) (e : RateEntry) (m : RateLimitMap)
  : RateLimitMap :=
  match m with
  | [] => [(key, e)]
  | (k, e') :: rest =>
      if String.eqb k key then (k, e) :: rest
      else (k, e') :: map_set key e rest
  end.

Definition RATE_LIMIT : Z := 30.
Definition RATE_WINDOW : Z := 60000.

(** [checkRateLimit(action)], with [now] what [Date.now()] reads.  The
    entry is an object held by the map: [entry.count++] changes the map. *)
Definition checkRateLimit (action : string) (now : Z) (m : RateLimitMap)
  : Result RateLimitMap :=
  match map_get action m with
  | None =>
      Ok (map_set action {| count := 1; resetTime := now + RATE_WINDOW |} m)
  | Some entry =>
      if now >? resetTime entry then
        Ok (map_set action {| count := 1; resetTime := now + RATE_WINDOW |} m)
      else if count entry >=? RATE_LIMIT then
        Throw "RATE_LIMIT_EXCEEDED: Too many requests. Please wait a moment before trying again."
      else
        Ok (map_set action
              {| count := count entry + 1; resetTime := resetTime entry |} m)
  end.

(** A run of calls for one action at the given times: which ones are let
    through, and the map at the end.  A call that throws leaves the map as
    it is. *)
Fixpoint attempts (action : string) (times : list Z) (m : RateLimitMap)
  : list bool * RateLimitMap :=
  match times with
  | [] => ([], m)
  | now :: rest =>
      match checkRateLimit action now m with
      | Ok m' =>
          let (outcomes, final) := attempts action rest m' in
          (true :: outcomes, final)
      | Throw _ =>
          let (outcomes, final) := attempts action rest m in
          (false :: outcomes, final)
      end
  end.

(** Calls for any actions at any times, in order. *)
Fixpoint requests (calls : list (string * Z)) (m : RateLimitMap)
  : RateLimitMap :=
  match calls with
  | [] => m
  | (action, now) :: rest =>
      match checkRateLimit action now m with
      | Ok m' => requests rest m'
      | Throw _ => requests rest m
      end
  end.

(** Every entry counts at least one call and at most [RATE_LIMIT]. *)
Definition counts_in_range (m : RateLimitMap) : Prop :=
  Forall (fun ke => 1 <= count (snd ke) <= RATE_LIMIT) m.

(** *** validateAudioBlob *)

(** A [Blob], as far as the check reads it; [None] stands for a value that
    is missing or is not a [Blob]. *)
Record Blob := { blob_size : N; blob_type : string }.

Definition MAX_AUDIO_SIZE : N := 25 * 1024 * 1024.

Definition ALLOWED_TYPES : list string :=
  ["audio/webm"; "audio/mp3"; "audio/wav"; "audio/ogg"; "audio/mpeg"]%string.

(** [t.split('/')[0]] *)
Fixpoint split_head (t : string) : string :=
  match t with
  | EmptyString => EmptyString
  | String c rest =>
      if Ascii.eqb c "/" then EmptyString else String c (split_head rest)
  end.

(** [s.startsWith(p)] *)
Definition startsWith (s p : string) : bool := String.prefix p s.

Definition validateAudioBlob (blob : option Blob) : Result unit :=
  match blob with
  | None => Throw "INVALID_INPUT: Audio blob is required"
  | Some b =>
      if (MAX_AUDIO_SIZE <? blob_size b)%N then
        Throw "INVALID_INPUT: Audio file too large (max 25MB)"
      else if (blob_size b =? 0)%N then
        Throw "INVALID_INPUT: Audio file is empty"
      else if negb (String.eqb (blob_type b) "")
              && negb (existsb (fun t => startsWith (blob_type b) (split_head t))
                               ALLOWED_TYPES) then
        Throw "INVALID_INPUT: Invalid audio format"
      else Ok tt
  end.

(** *** sanitizeTextInput *)

(** A JavaScript string, as its UTF-16 code units. *)
Definition jsstring := list N.

(** White space and line terminators, which [trim] strips. *)
Definition is_white_space (c : N) : bool :=
  ((c =? 9) || (c =? 10) || (c =? 11) || (c =? 12) || (c =? 13)
   || (c =? 32) || (c =? 160) || (c =? 5760)
   || ((8192 <=? c) && (c <=? 8202))
   || (c =? 8232) || (c =? 8233) || (c =? 8239) || (c =? 8287)
   || (c =? 12288) || (c =? 65279))%N.

Fixpoint trimStart (s : jsstring) : jsstring :=
  match s with
  | [] => []
  | c :: rest => if is_white_space c then trimStart rest else s
  end.

Definition trimEnd (s : jsstring) : jsstring := rev (trimStart (rev s)).

Definition trim (s : jsstring) : jsstring := trimEnd (trimStart s).

(** The class [[\x00-\x08\x0B\x0C\x0E-\x1F\x7F]]. *)
Definition is_control (c : N) : bool :=
  ((c <=? 8) || (c =? 11) || (c =? 12) || ((14 <=? c) && (c <=? 31))
   || (c =? 127))%N.

(** [sanitizeTextInput(text, maxLength)], for a [text] that is a string
    and a [maxLength] that is a natural number, as at every call. *)
Definition sanitizeTextInput (text : jsstring) (maxLength : nat)
  : Result jsstring :=
  match text with
  | [] => Throw "INVALID_INPUT: Text input is required"
  | _ =>
      let sanitized := firstn maxLength (trim text) in
      Ok (filter (fun c => negb (is_control c)) sanitized)
  end.

(** A text with nothing for [sanitizeTextInput] to take away. *)
Definition is_clean (text : jsstring) : Prop :=
  trim text = text /\ forallb (fun c => negb (is_control c)) text = true.

(** *** handleApiError *)

(** [s.includes(sub)] *)
Fixpoint includes (s sub : string) : bool :=
  String.prefix sub s
  || match s with
     | EmptyString => false
     | String _ rest => includes rest sub
     end.

(** [handleApiError(error, context)] never returns: this is the message
    of the error it throws, from [error?.message]. *)
Definition handleApiError (message : option string) : string :=
  match message with
  | None =>
      "SERVICE_ERROR: An error occurred while processing your request. Please try again."
  | Some msg =>
      if includes msg "API key not valid" then
        "API_KEY_INVALID: Your API key is invalid. Please check your configuration."
      else if includes msg "quota" then
        "QUOTA_EXCEEDED: API quota exceeded. Please try again later."
      else if includes msg "rate" then
        "RATE_LIMIT: Too many requests. Please slow down."
      else if includes msg "INVALID_INPUT" || includes msg "API_KEY"
              || includes msg "RATE_LIMIT" then msg
      else
        "SERVICE_ERROR: An error occurred while processing your request. Please try again."
  end.

(** The messages [handleApiError] makes up itself. *)
Definition api_error_messages : list string :=
  ["API_KEY_INVALID: Your API key is invalid. Please check your configuration.";
   "QUOTA_EXCEEDED: API quota exceeded. Please try again later.";
   "RATE_LIMIT: Too many requests. Please slow down.";
   "SERVICE_ERROR: An error occurred while processing your request. Please try again."
  ]%string.

(** *** transcribeAudio *)

(** What the world outside does during one call: reading the blob fails,
    or the model call is rejected with an error, or it resolves with a
    response whose [text] may be missing. *)
Inductive ApiOutcome :=
| ReadFailed (message : string)
| CallRejected (message : option string)
| CallResolved (text : option jsstring).

(** [validateApiKey()] on the module's [apiKey]. *)
Definition validateApiKey (apiKey : jsstring) : Result unit :=
  match trim apiKey with
  | [] =>
      Throw "API_KEY_MISSING: Please set GEMINI_API_KEY in your .env.local file."
  | _ => Ok tt
  end.

(** [transcribeAudio(audioBlob)]: the three guards in order, the read of
    the blob outside the [try], the model call and the sanitized text
    inside it, with every error caught there handed to
    [handleApiError]. *)
Definition transcribeAudio (apiKey : jsstring) (now : Z) (m : RateLimitMap)
  (audioBlob : option Blob) (world : ApiOutcome)
  : Result jsstring * RateLimitMap :=
  match validateApiKey apiKey with
  | Throw msg => (Throw msg, m)
  | Ok _ =>
      match checkRateLimit "transcribe" now m with
      | Throw msg => (Throw msg, m)
      | Ok m' =>
          match validateAudioBlob audioBlob with
          | Throw msg => (Throw msg, m')
          | Ok _ =>
              match world with
              | ReadFailed msg => (Throw msg, m')
              | CallRejected msg => (Throw (handleApiError msg), m')
              | CallResolved text =>
                  let text := match text with Some t => t | None => [] end in
                  match sanitizeTextInput text 50000 with
                  | Ok r => (Ok r, m')
                  | Throw msg => (Throw (handleApiError (Some msg)), m')
                  end
              end
          end
      end
  end.

(** *** analyzeTasksFromText: what is made of the model's answer *)

(** A task as the model's JSON gives it: the fields the function reads,
    each possibly missing, and the rest of the object. *)
Record RawTask (Rest : Type) := {
  raw_id : option jsstring;
  raw_title : option jsstring;
  raw_description : option jsstring;
  raw_rest : Rest
}.

(** A task as the function returns it. *)
Record ExtractedTask (Rest : Type) := {
  ext_id : jsstring;
  ext_title : jsstring;
  ext_description : jsstring;
  ext_completed : bool;
  ext_createdAt : string;
  ext_rest : Rest
}.

(** [x || ''] and [x || fallback] on a string that may be missing. *)
Definition or_else (x : option jsstring) (fallback : jsstring) : jsstring :=
  match x with
  | Some (c :: s) => c :: s
  | _ => fallback
  end.

(** The callback of [tasks.map]: [Throw] when one of the two calls of
    [sanitizeTextInput] throws.  [random] is what
    [Math.random().toString(36).substr(2, 9)] gives for this task and
    [now] what [new Date().toISOString()] gives. *)
Definition extract_one {Rest} (random : jsstring) (now : string)
  (t : RawTask Rest) : Result (ExtractedTask Rest) :=
  match sanitizeTextInput (or_else (raw_title t) []) 200 with
  | Throw msg => Throw msg
  | Ok title =>
      match sanitizeTextInput (or_else (raw_description t) []) 1000 with
      | Throw msg => Throw msg
      | Ok description =>
          Ok {| ext_id := or_else (raw_id t) random;
                ext_title := title;
                ext_description := description;
                ext_completed := false;
                ext_createdAt := now;
                ext_rest := raw_rest t |}
      end
  end.

Fixpoint extract_all {Rest} (randoms : list jsstring) (now : string)
  (tasks : list (RawTask Rest)) : Result (list (ExtractedTask Rest)) :=
  match tasks with
  | [] => Ok []
  | t :: rest =>
      match extract_one (hd [] randoms) now t with
      | Throw msg => Throw msg
      | Ok e =>
          match extract_all (tl randoms) now rest with
          | Throw msg => Throw msg
          | Ok es => Ok (e :: es)
          end
      end
  end.

(** The [try] block of [analyzeTasksFromText] once the guards have passed:
    [answer] is the parsed answer of the model, or [None] when the call or
    [JSON.parse] threw; whatever is thrown inside ends in [return []]. *)
Definition analyze_answer {Rest} (randoms : list jsstring) (now : string)
  (answer : option (list (RawTask Rest))) : list (ExtractedTask Rest) :=
  match answer with
  | None => []
  | Some tasks =>
      match extract_all randoms now tasks with
      | Ok es => es
      | Throw _ => []
      end
  end.

(** The title or the description of a task is missing or empty. *)
Definition lacks_text {Rest} (t : RawTask Rest) : bool :=
  match or_else (raw_title t) [], or_else (raw_description t) [] with
  | _ :: _, _ :: _ => false
  | _, _ => true
  end.

End GeminiService.

(* ================================================================== *)
(** ** The task list of the SmartTaskListener component, as it is in
       components/SmartTaskListener.tsx and in src/unnamed/part_003 *)
(* ================================================================== *)

Module TaskList.

Inductive TaskPriority := CRITICAL | HIGH | MEDIUM | LOW.

(** The [Task] of types.ts. *)
Record Task := {
  task_id : string;
  task_title : string;
  task_description : string;
  task_priority : TaskPriority;
  task_dueDate : option string;
  task_assignee : option string;
  task_completed : bool;
  task_createdAt : option string
}.

(** A [Partial<Task>]: for each field, whether the object has it.  An
    optional field can be there and hold [undefined]. *)
Record TaskUpdates := {
  upd_id : option string;
  upd_title : option string;
  upd_description : option string;
  upd_priority : option TaskPriority;
  upd_dueDate : option (option string);
  upd_assignee : option (option string);
  upd_completed : option bool;
  upd_createdAt : option (option string)
}.

Definition or_keep {A} (update : option A) (old : A) : A :=
  match update with
  | Some a => a
  | None => old
  end.

(** [{ ...t, ...updates }] *)
Definition apply_updates (t : Task) (u : TaskUpdates) : Task :=
  {| task_id := or_keep (upd_id u) (task_id t);
     task_title := or_keep (upd_title u) (task_title t);
     task_description := or_keep (upd_description u) (task_description t);
     task_priority := or_keep (upd_priority u) (task_priority t);
     task_dueDate := or_keep (upd_dueDate u) (task_dueDate t);
     task_assignee := or_keep (upd_assignee u) (task_assignee t);
     task_completed := or_keep (upd_completed u) (task_completed t);
     task_createdAt := or_keep (upd_createdAt u) (task_createdAt t) |}.

(** [{ ...t, completed: !t.completed }] *)
Definition flip_completed (t : Task) : Task :=
  {| task_id := task_id t;
     task_title := task_title t;
     task_description := task_description t;
     task_priority := task_priority t;
     task_dueDate := task_dueDate t;
     task_assignee := task_assignee t;
     task_completed := negb (task_completed t);
     task_createdAt := task_createdAt t |}.

(** [toggleTask] of the task list of src/unnamed/part_003 (l.124-126):
    [tasks.map(t => t.id === id ? { ...t, completed: !t.completed } : t)].
    (The [toggleTask] of components/SmartTaskListener.tsx is another
    function: it looks up the first task with the id, may add a task for a
    recurrence, and gives every task with the id the negated flag of the
    first.  It is not modelled.) *)
Definition toggleTask (id : string) (tasks : list Task) : list Task :=
  map (fun t => if String.eqb (task_id t) id then flip_completed t else t)
      tasks.

(** [updateTask], the same in both files:
    [prev.map(t => t.id === id ? { ...t, ...updates } : t)]. *)
Definition updateTask (id : string) (updates : TaskUpdates)
  (tasks : list Task) : list Task :=
  map (fun t => if String.eqb (task_id t) id then apply_updates t updates
                else t)
      tasks.

(** [deleteTask] of components/SmartTaskListener.tsx (l.218-221):
    [prev.filter(t => t.id !== id)]. *)
Definition deleteTask (id : string) (tasks : list Task) : list Task :=
  filter (fun t => negb (String.eqb (task_id t) id)) tasks.

(** *** processedTasks *)

Inductive Filter := FilterAll | FilterActive | FilterCompleted.

Inductive Sort := SortNewest | SortPriority | SortDate.

(** [pOrder] *)
Definition pOrder (p : TaskPriority) : Z :=
  match p with
  | CRITICAL => 0
  | HIGH => 1
  | MEDIUM => 2
  | LOW => 3
  end%Z.

(** [Array.prototype.sort] with a comparator: the sort is stable, so for a
    comparator that orders the elements consistently the result is the one
    order given here, by insertion from the right.  (For a comparator that
    is not consistent the language leaves the order open.) *)
Fixpoint sort_insert {A} (cmp : A -> A -> Z) (x : A) (l : list A) : list A :=
  match l with
  | [] => [x]
  | y :: rest =>
      if (cmp x y <=? 0)%Z then x :: y :: rest
      else y :: sort_insert cmp x rest
  end.

Fixpoint Array_sort {A} (cmp : A -> A -> Z) (l : list A) : list A :=
  match l with
  | [] => []
  | x :: rest => sort_insert cmp x (Array_sort cmp rest)
  end.

Definition by_priority (a b : Task) : Z :=
  (pOrder (task_priority a) - pOrder (task_priority b))%Z.

Section Locale.

(** [a.localeCompare(b)], which the platform provides. *)
Variable localeCompare : string -> string -> Z.

(** A date that is [undefined] or the empty string is falsy. *)
Definition has_date (t : Task) : option string :=
  match task_dueDate t with
  | Some d => if String.eqb d "" then None else Some d
  | None => None
  end.

Definition by_date (a b : Task) : Z :=
  match has_date a, has_date b with
  | Some da, Some db => localeCompare da db
  | Some _, None => (-1)%Z
  | None, Some _ => 1%Z
  | None, None => 0%Z
  end.

Definition apply_filter (f : Filter) (tasks : list Task) : list Task :=
  match f with
  | FilterAll => tasks
  | FilterActive => filter (fun t => negb (task_completed t)) tasks
  | FilterCompleted => filter task_completed tasks
  end.

Definition processedTasks (f : Filter) (s : Sort) (tasks : list Task)
  : list Task :=
  let result := apply_filter f tasks in
  match s with
  | SortNewest => result
  | SortPriority => Array_sort by_priority result
  | SortDate => Array_sort by_date result
  end.

End Locale.

(** A task comes no later than another in the order Critical, High,
    Medium, Low. *)
Definition priority_le (a b : Task) : Prop :=
  (pOrder (task_priority a) <= pOrder (task_priority b))%Z.

(** The tasks of one priority, in the order they have in a list. *)
Definition of_priority (p : TaskPriority) (tasks : list Task) : list Task :=
  filter (fun t => (pOrder (task_priority t) =? pOrder p)%Z) tasks.

End TaskList.

(* ================================================================== *)
(** ** components/TaskCard.tsx: the timer display *)
(* ================================================================== *)

Module TaskCard.

Local Open Scope Q_scope.

(** *** Numbers

    A number is a binary64 floating-point number.  A finite one is a
    rational, and that is how it is written here; [x / y] on numbers is
    the exact quotient rounded to the nearest binary64 number, a tie going
    to the one whose last digit is even. *)

(** 2^e *)
Definition pow2 (e : Z) : Q :=
  match e with
  | Zneg p => 1 # (2 ^ p)
  | _ => inject_Z (2 ^ e)
  end.

(** [floor (log2 q)], for [q > 0]: the difference of the bit lengths of
    numerator and denominator, or one less. *)
Definition floor_log2 (q : Q) : Z :=
  let l := (Z.log2 (Qnum q) - Z.log2 (Zpos (Qden q)))%Z in
  if Qle_bool (pow2 l) q then l else (l - 1)%Z.

(** The exponent of the unit in the last place of the binary64 numbers
    around [q > 0]: 53 digits from the leading one, and never below the
    exponent of the subnormal numbers. *)
Definition quantum (q : Q) : Z := Z.max (floor_log2 q - 52) (-1074).

(** The nearest integer, a tie going to the even one. *)
Definition round_half_even (q : Q) : Z :=
  let f := Qfloor q in
  match Qcompare (q - inject_Z f)%Q (1 # 2)%Q with
  | Lt => f
  | Gt => (f + 1)%Z
  | Eq => if Z.even f then f else (f + 1)%Z
  end.

Definition nearest (q : Q) : Q :=
  let u := pow2 (quantum q) in
  inject_Z (round_half_even (q / u)) * u.

(** A real number rounded to binary64.  (The numbers [formatTime] comes
    to are far from the overflow threshold, which is left out.) *)
Definition binary64 (q : Q) : Q :=
  match Qnum q with
  | Z0 => 0
  | Zpos _ => nearest q
  | Zneg _ => - nearest (- q)
  end.

(** [x / y] on numbers. *)
Definition js_div (x y : Q) : Q := binary64 (x / y).

(** [x % y] on numbers: the remainder has the sign of the dividend.  The
    remainder of two binary64 numbers is a binary64 number, so nothing is
    rounded. *)
Definition js_rem (x y : Q) : Q := x - y * inject_Z (Qtrunc (x / y)).

(** The three numbers [formatTime] prints.  The divisors [1000 * 60] and
    [1000 * 60 * 60] are whole numbers computed exactly. *)
Definition time_parts (ms : Q) : Z * Z * Z :=
  let seconds := Qfloor (js_rem (js_div ms 1000) 60) in
  let minutes := Qfloor (js_rem (js_div ms (1000 * 60)) 60) in
  let hours := Qfloor (js_div ms (1000 * 60 * 60)) in
  (hours, minutes, seconds).

(** A whole number in a template literal (below 10^21, where all its
    digits are printed). *)
Definition show (z : Z) : string :=
  DecimalString.NilZero.string_of_int (Z.to_int z).

(** [formatTime(ms)] *)
Definition formatTime (ms : Q) : string :=
  let '(hours, minutes, seconds) := time_parts ms in
  (show hours ++ "h " ++ show minutes ++ "m " ++ show seconds ++ "s")%string.

End TaskCard.

(* ================================================================== *)
(** ** The text encoding of byte buffers is reversible *)
(* ================================================================== *)

Module Base64Facts.

Local Open Scope N_scope.

Ltac Zify.zify_post_hook ::= Z.to_euclidean_division_equations.

Lemma sextets_ok : forallb sextet_ok (seq 0 64) = true.
Proof. vm_compute. reflexivity. Qed.

Lemma sextet_ok_lt (n : N) : n < 64 -> sextet_ok (N.to_nat n) = true.
Proof.
  intros H. apply (proj1 (forallb_forall sextet_ok (seq 0 64)) sextets_ok).
  apply in_seq. lia.
Qed.

Lemma b64_index_char (n : N) : n < 64 -> b64_index (b64_char n) = Some n.
Proof.
  intros H. pose proof (sextet_ok_lt H) as K. unfold sextet_ok in K.
  rewrite N2Nat.id in K. apply andb_prop in K. destruct K as [K _].
  destruct (b64_index (b64_char n)) as [m|]; [|discriminate].
  apply N.eqb_eq in K. now subst.
Qed.

Lemma b64_char_not_pad (n : N) :
  n < 64 -> Ascii.eqb (b64_char n) b64_pad = false.
Proof.
  intros H. pose proof (sextet_ok_lt H) as K. unfold sextet_ok in K.
  rewrite N2Nat.id in K. apply andb_prop in K. destruct K as [_ K].
  now apply negb_true_iff in K.
Qed.

Lemma byte_lt (a : byte) : Byte.to_N a < 256.
Proof. pose proof (Byte.to_N_bounded a). lia. Qed.

(** Lists three elements at a time. *)
Lemma list_ind3 (A : Type) (P : list A -> Prop) :
  P [] -> (forall a, P [a]) -> (forall a b, P [a; b]) ->
  (forall a b c l, P l -> P (a :: b :: c :: l)) ->
  forall l, P l.
Proof.
  intros H0 H1 H2 H3.
  assert (G : forall l, P l /\ (forall a, P (a :: l))
                        /\ (forall a b, P (a :: b :: l))).
  { induction l as [|x l [IH0 [IH1 IH2]]].
    - repeat split; auto.
    - repeat split; auto. }
  intros l. apply G.
Qed.

Lemma decode_one (a : byte) :
  base64ToUint8Array (arrayBufferToBase64 [a]) = Some [a].
Proof.
  pose proof (byte_lt a) as Ha.
  cbn [arrayBufferToBase64 base64ToUint8Array].
  set (n := Byte.to_N a * 16).
  assert (n / 64 < 64) by (subst n; lia).
  assert (n mod 64 < 64) by lia.
  rewrite !b64_index_char by assumption. cbn [obind].
  replace (Ascii.eqb b64_pad b64_pad) with true by reflexivity.
  replace ((n / 64 * 64 + n mod 64) / 16) with (Byte.to_N a) by (subst n; lia).
  rewrite Byte.of_to_N. reflexivity.
Qed.

Lemma decode_two (a b : byte) :
  base64ToUint8Array (arrayBufferToBase64 [a; b]) = Some [a; b].
Proof.
  pose proof (byte_lt a) as Ha. pose proof (byte_lt b) as Hb.
  cbn [arrayBufferToBase64 base64ToUint8Array].
  set (n := (Byte.to_N a * 256 + Byte.to_N b) * 4).
  assert (n / 4096 < 64) by (subst n; lia).
  assert (n / 64 mod 64 < 64) by lia.
  assert (n mod 64 < 64) by lia.
  rewrite ?b64_index_char by assumption. cbn [obind].
  rewrite b64_char_not_pad by assumption.
  rewrite ?b64_index_char by assumption. cbn [obind].
  replace (Ascii.eqb b64_pad b64_pad) with true by reflexivity.
  cbv zeta.
  replace (((n / 4096 * 64 + n / 64 mod 64) * 64 + n mod 64) / 1024)
    with (Byte.to_N a) by (subst n; lia).
  replace (((n / 4096 * 64 + n / 64 mod 64) * 64 + n mod 64) / 4 mod 256)
    with (Byte.to_N b) by (subst n; lia).
  rewrite !Byte.of_to_N. reflexivity.
Qed.

Lemma decode_three (a b c : byte) (rest : list byte) :
  base64ToUint8Array (arrayBufferToBase64 (a :: b :: c :: rest))
  = obind (base64ToUint8Array (arrayBufferToBase64 rest))
          (fun tail => Some (a :: b :: c :: tail)).
Proof.
  pose proof (byte_lt a) as Ha. pose proof (byte_lt b) as Hb.
  pose proof (byte_lt c) as Hc.
  cbn [arrayBufferToBase64 base64ToUint8Array].
  set (n := Byte.to_N a * 65536 + Byte.to_N b * 256 + Byte.to_N c).
  assert (n / 262144 < 64) by (subst n; lia).
  assert (n / 4096 mod 64 < 64) by lia.
  assert (n / 64 mod 64 < 64) by lia.
  assert (n mod 64 < 64) by lia.
  rewrite ?b64_index_char by assumption. cbn [obind].
  rewrite b64_char_not_pad by assumption.
  rewrite ?b64_index_char by assumption. cbn [obind].
  rewrite b64_char_not_pad by assumption.
  rewrite ?b64_index_char by assumption. cbn [obind].
  cbv zeta.
  replace (((n / 262144 * 64 + n / 4096 mod 64) * 64 + n / 64 mod 64) * 64
           + n mod 64) with n by lia.
  replace (n / 65536) with (Byte.to_N a) by (subst n; lia).
  replace (n / 256 mod 256) with (Byte.to_N b) by (subst n; lia).
  replace (n mod 256) with (Byte.to_N c) by (subst n; lia).
  rewrite !Byte.of_to_N. reflexivity.
Qed.

End Base64Facts.

(** C4.  Decoding the text encoding of a byte buffer gives the buffer
    back, for every byte sequence, the empty one included:
    [base64ToUint8Array (arrayBufferToBase64 b)] is [b]. *)
Theorem base64_roundtrip (b : list byte) :
  base64ToUint8Array (arrayBufferToBase64 b) = Some b.
Proof.
  induction b as [ | a | a b | a b c rest IH] using Base64Facts.list_ind3.
  - reflexivity.
  - apply Base64Facts.decode_one.
  - apply Base64Facts.decode_two.
  - rewrite Base64Facts.decode_three, IH. reflexivity.
Qed.

(* ================================================================== *)
(** ** The PCM encoder clamps, never wraps *)
(* ================================================================== *)

Module PcmFacts.

Local Open Scope Z_scope.


(** Truncation keeps a rational between two integers of opposite sign
    between them. *)
Lemma Qtrunc_between (lo hi : Z) (q : Q) :
  lo <= 0 <= hi -> (inject_Z lo <= q <= inject_Z hi)%Q ->
  lo <= Qtrunc q <= hi.
Proof.
  destruct q as [n d]. unfold Qle, Qtrunc, inject_Z. cbn [Qnum Qden].
  intros [Hlo Hhi] [H1 H2]. rewrite Z.mul_1_r in H1, H2.
  destruct (Z_le_gt_dec 0 n) as [Hn|Hn].
  - rewrite Z.quot_div_nonneg by lia. split.
    + transitivity 0; [assumption | apply Z.div_pos; lia].
    + apply Z.div_le_upper_bound; lia.
  - replace (Z.quot n (Zpos d)) with (- Z.quot (- n) (Zpos d))
      by (rewrite Z.quot_opp_l by lia; apply Z.opp_involutive).
    rewrite Z.quot_div_nonneg by lia.
    assert (0 <= - n / Zpos d) by (apply Z.div_pos; lia).
    assert (- n / Zpos d <= - lo) by (apply Z.div_le_upper_bound; lia).
    lia.
Qed.

Lemma clamp_sample_bounds (s : Q) : (-1 <= clamp_sample s <= 1)%Q.
Proof.
  unfold clamp_sample. split.
  - apply Q.le_max_l.
  - apply Q.max_lub; [discriminate | apply Q.le_min_l].
Qed.


Lemma scale_sample_bounds (c : Q) :
  (-1 <= c <= 1)%Q ->
  (inject_Z (-32768) <= scale_sample c <= inject_Z 32767)%Q.
Proof.
  intros [H1 H2]. unfold scale_sample.
  destruct (Qle_bool 0 c) eqn:E.
  - apply Qle_bool_iff in E.
    change (inject_Z (-32768)) with (-32768)%Q.
    change (inject_Z 32767) with 32767%Q. split; lra.
  - assert (~ (0 <= c)%Q) by (rewrite <- Qle_bool_iff; congruence).
    change (inject_Z (-32768)) with (-32768)%Q.
    change (inject_Z 32767) with 32767%Q. split; lra.
Qed.


Lemma to_int16_id (z : Z) : -32768 <= z <= 32767 -> to_int16 z = z.
Proof. unfold to_int16. lia. Qed.

(** No wrap-around ever happens in the store. *)
Lemma pcm16_no_wrap (s : Q) :
  pcm16_of_sample s = Qtrunc (scale_sample (clamp_sample s))
  /\ -32768 <= pcm16_of_sample s <= 32767.
Proof.
  assert (B : -32768 <= Qtrunc (scale_sample (clamp_sample s)) <= 32767).
  { apply Qtrunc_between; [lia|].
    apply scale_sample_bounds, clamp_sample_bounds. }
  unfold pcm16_of_sample. rewrite to_int16_id by assumption. now split.
Qed.





End PcmFacts.



(* ================================================================== *)
(** ** The playback scheduler *)
(* ================================================================== *)

Module PlaybackFacts.

Import LiveAssistant.

Lemma catch_up_clock (cursor now : Q) : (now <= catch_up cursor now)%Q.
Proof.
  unfold catch_up, Qltb. destruct (Qle_bool now cursor) eqn:E; cbn [negb].
  - now apply Qle_bool_iff.
  - apply Qle_refl.
Qed.

Lemma catch_up_cursor (cursor now : Q) : (cursor <= catch_up cursor now)%Q.
Proof.
  unfold catch_up, Qltb. destruct (Qle_bool now cursor) eqn:E; cbn [negb].
  - apply Qle_refl.
  - apply Qlt_le_weak, Qnot_le_lt. rewrite <- Qle_bool_iff. congruence.
Qed.

Lemma catch_up_on_time (cursor now : Q) :
  (now <= cursor)%Q -> catch_up cursor now = cursor.
Proof.
  intros H. unfold catch_up, Qltb.
  now rewrite (proj2 (Qle_bool_iff now cursor) H).
Qed.

Section Scheduler.

Variable stop_throws : BufferSource -> bool.

(** One chunk, no interruption flag: one [start] call at the caught-up
    cursor, one more source in the set, the cursor at the end of it. *)
Lemma deliver_one (c : Chunk) (w : World) :
  pd_interrupted (chunk_decode c) = false ->
  let start := catch_up (nextStartTimeRef w) (chunk_currentTime c) in
  let s := {| src_id := nextSourceId w; src_start := start;
              src_duration := chunk_duration c |} in
  let w' := deliver stop_throws c w in
  scheduledSourcesRef w' = scheduledSourcesRef w ++ [s]
  /\ trace w' = trace w ++ [start_call s]
  /\ nextStartTimeRef w' = (start + chunk_duration c)%Q
  /\ nextSourceId w' = S (nextSourceId w).
Proof.
  intros H. unfold deliver, onmessage_resume. rewrite H.
  cbn. repeat split.
Qed.

Lemma deliver_chunks_scheduled (chunks : list Chunk) (w : World) :
  no_interruption chunks = true ->
  let srcs := scheduled (nextStartTimeRef w) (nextSourceId w) chunks in
  let w' := deliver_chunks stop_throws chunks w in
  scheduledSourcesRef w' = scheduledSourcesRef w ++ srcs
  /\ trace w' = trace w ++ map start_call srcs.
Proof.
  revert w. induction chunks as [|c rest IH]; intros w H.
  - cbn. now rewrite !app_nil_r.
  - cbn [no_interruption forallb] in H. apply andb_prop in H.
    destruct H as [Hc Hrest]. apply negb_true_iff in Hc.
    destruct (deliver_one c w Hc) as (E1 & E2 & E3 & E4).
    specialize (IH (deliver stop_throws c w) Hrest).
    cbv zeta in IH. rewrite E1, E2, E3, E4 in IH.
    destruct IH as [IH1 IH2]. cbv zeta.
    change (deliver_chunks stop_throws (c :: rest) w)
      with (deliver_chunks stop_throws rest (deliver stop_throws c w)).
    cbn [scheduled map].
    rewrite IH1, IH2, <- !app_assoc. now split.
Qed.

End Scheduler.

Lemma scheduled_durations (cursor : Q) (id : nat) (chunks : list Chunk) :
  map src_duration (scheduled cursor id chunks) = map chunk_duration chunks.
Proof.
  revert cursor id. induction chunks as [|c rest IH]; intros; cbn;
    [reflexivity | now rewrite IH].
Qed.

Lemma scheduled_after_clock (cursor : Q) (id : nat) (chunks : list Chunk) :
  Forall2 (fun s c => (chunk_currentTime c <= src_start s)%Q)
          (scheduled cursor id chunks) chunks.
Proof.
  revert cursor id. induction chunks as [|c rest IH]; intros; cbn;
    constructor; [apply catch_up_clock | apply IH].
Qed.

Lemma scheduled_non_overlapping (cursor : Q) (id : nat) (chunks : list Chunk) :
  non_overlapping (scheduled cursor id chunks).
Proof.
  revert cursor id. induction chunks as [|c rest IH]; intros; [exact I|].
  destruct rest as [|c2 rest2]; [exact I|].
  cbn [scheduled]. cbn [non_overlapping src_start src_duration]. split.
  - apply catch_up_cursor.
  - apply (IH (catch_up cursor (chunk_currentTime c) + chunk_duration c)%Q
              (S id)).
Qed.

Lemma scheduled_contiguous (cursor : Q) (id : nat) (chunks : list Chunk) :
  on_time cursor chunks ->
  map src_start (scheduled cursor id chunks)
  = contiguous_from cursor (map chunk_duration chunks).
Proof.
  revert cursor id. induction chunks as [|c rest IH]; intros cursor id H.
  - reflexivity.
  - destruct H as [H1 H2]. cbn [scheduled map contiguous_from src_start].
    rewrite (catch_up_on_time H1). f_equal. now apply IH.
Qed.

End PlaybackFacts.

Import LiveAssistant.

(** C1, as stated, fails: three chunks of one second each, the first
    scheduled when the output clock reads 0, the second when it reads 5
    (a stall), the third when it reads 6, start at 0, 5 and 6, which is not
    [t0, t0 + 1, t0 + 2] for any [t0]. *)
Lemma stalled_chunks_are_not_contiguous :
  let chunks := [chunk_at 0 1; chunk_at 5 1; chunk_at 6 1] in
  let w' := deliver_chunks (fun _ => false) chunks initial in
  map src_start (scheduledSourcesRef w') = [0; 5; 6]%Q
  /\ ~ exists t0,
         Forall2 Qeq (map src_start (scheduledSourcesRef w'))
                 (contiguous_from t0 (map chunk_duration chunks)).
Proof.
  cbv zeta. split; [reflexivity|].
  intros [t0 F]. cbn in F.
  inversion F as [|a b l l' E0 F1]; subst.
  inversion F1 as [|a b l l' E1 F2]; subst.
  lra.
Qed.

(** C1, amended.  Chunks delivered one after the other with no
    interruption are started in order of arrival, one [start] call each;
    every start time is at least the reading of the output clock when the
    chunk is scheduled; no chunk starts before the end of the one before;
    and when no chunk after the first is scheduled later than the end of
    the one before (no stall), the start times are contiguous: [t0],
    [t0 + d1], [t0 + d1 + d2], ... with [t0] the cursor caught up with the
    clock at the first chunk. *)
Theorem chunks_scheduled_back_to_back
  (stop_throws : BufferSource -> bool) (w : World) (chunks : list Chunk) :
  no_interruption chunks = true ->
  exists srcs,
    scheduledSourcesRef (deliver_chunks stop_throws chunks w)
      = scheduledSourcesRef w ++ srcs
    /\ trace (deliver_chunks stop_throws chunks w)
       = trace w ++ map start_call srcs
    /\ map src_duration srcs = map chunk_duration chunks
    /\ Forall2 (fun s c => (chunk_currentTime c <= src_start s)%Q) srcs chunks
    /\ non_overlapping srcs
    /\ (forall c rest, chunks = c :: rest ->
          let t0 := catch_up (nextStartTimeRef w) (chunk_currentTime c) in
          on_time (t0 + chunk_duration c)%Q rest ->
          map src_start srcs = contiguous_from t0 (map chunk_duration chunks)).
Proof.
  intros H.
  exists (scheduled (nextStartTimeRef w) (nextSourceId w) chunks).
  destruct (PlaybackFacts.deliver_chunks_scheduled stop_throws chunks w H)
    as [E1 E2].
  repeat split.
  - exact E1.
  - exact E2.
  - apply PlaybackFacts.scheduled_durations.
  - apply PlaybackFacts.scheduled_after_clock.
  - apply PlaybackFacts.scheduled_non_overlapping.
  - intros c rest -> t0 T. cbn [scheduled map contiguous_from src_start].
    fold t0. f_equal. now apply PlaybackFacts.scheduled_contiguous.
Qed.

Lemma chunks_scheduled_back_to_back_witness :
  let chunks := [chunk_at 0 1; chunk_at (1 # 2) 1; chunk_at (3 # 2) 1] in
  no_interruption chunks = true
  /\ on_time (0 + 1)%Q (tl chunks)
  /\ map src_start
       (scheduledSourcesRef (deliver_chunks (fun _ => false) chunks initial))
     = [0; 0 + 1; 0 + 1 + 1]%Q.
Proof.
  cbv zeta. split; [reflexivity|]. split.
  - cbn. repeat split; discriminate.
  - destruct (chunks_scheduled_back_to_back (fun _ => false) initial
                [chunk_at 0 1; chunk_at (1 # 2) 1; chunk_at (3 # 2) 1]
                eq_refl) as (srcs & E & _ & _ & _ & _ & C).
    rewrite E. cbn [initial scheduledSourcesRef app].
    apply (C _ _ eq_refl). cbn. repeat split; discriminate.
Defined.

(* ================================================================== *)
(** ** Interruption: the scheduled-source set tracks what is playing *)
(* ================================================================== *)

Module InterruptionFacts.

Lemma playing_app (tr es : list Effect) :
  playing (tr ++ es) = fold_left observe_playback es (playing tr).
Proof. unfold playing. apply fold_left_app. Qed.

Lemma observe_neutral (es : list Effect) (acc : list nat) :
  forallb playback_neutral es = true ->
  fold_left observe_playback es acc = acc.
Proof.
  revert acc. induction es as [|e es IH]; intros acc H; [reflexivity|].
  cbn [forallb] in H. apply andb_prop in H. destruct H as [He Hes].
  cbn [fold_left]. rewrite IH by assumption.
  destruct e; try reflexivity; discriminate.
Qed.

Lemma observe_stops (stop_throws : BufferSource -> bool)
  (srcs : list BufferSource) (acc : list nat) :
  incl acc (map src_id srcs) ->
  fold_left observe_playback (map (stop_source stop_throws) srcs) acc = [].
Proof.
  revert acc. induction srcs as [|s srcs IH]; intros acc H.
  - cbn. destruct acc as [|x acc]; [reflexivity|].
    destruct (H x (or_introl eq_refl)).
  - cbn [map fold_left stop_source observe_playback]. apply IH.
    intros x Hx. apply in_remove in Hx. destruct Hx as [Hx Hne].
    destruct (H x Hx) as [E|Hin]; [|exact Hin].
    cbn in E. congruence.
Qed.

(** A run of [stop()] calls takes each source it names out of what is
    playing, and starts nothing. *)
Lemma stops_remove (stop_throws : BufferSource -> bool)
  (srcs : list BufferSource) (acc : list nat) (x : nat) :
  In x (fold_left observe_playback (map (stop_source stop_throws) srcs) acc) ->
  In x acc /\ ~ In x (map src_id srcs).
Proof.
  revert acc. induction srcs as [|s srcs IH]; intros acc H.
  - split; [exact H | intros []].
  - cbn [map fold_left stop_source observe_playback] in H.
    apply IH in H. destruct H as [H N]. apply in_remove in H.
    destruct H as [H Hne]. split; [exact H|].
    cbn [map]. intros [E|Hin]; [now apply Hne | now apply N].
Qed.

(** *** Handlers that leave playback alone *)

Lemma quiet_refl (w : World) : quiet w w.
Proof. split; [reflexivity|]. exists []. now rewrite app_nil_r. Qed.

Lemma quiet_trans (w x y : World) : quiet w x -> quiet x y -> quiet w y.
Proof.
  intros [S1 (es1 & T1 & N1)] [S2 (es2 & T2 & N2)]. split; [congruence|].
  exists (es1 ++ es2). rewrite T2, T1, <- app_assoc. split; [reflexivity|].
  rewrite forallb_app, N1, N2. reflexivity.
Qed.

Lemma quiet_same (w x y : World) :
  quiet w x -> trace y = trace x ->
  scheduledSourcesRef y = scheduledSourcesRef x -> quiet w y.
Proof.
  intros [S1 (es & T & N)] Ht Hs. split; [congruence|].
  exists es. now rewrite Ht.
Qed.

Lemma quiet_emits (w x : World) (es : list Effect) :
  forallb playback_neutral es = true -> quiet w x -> quiet w (emits es x).
Proof.
  intros N Q. apply (quiet_trans Q). split; [reflexivity|]. now exists es.
Qed.

Lemma quiet_emit (w x : World) (e : Effect) :
  playback_neutral e = true -> quiet w x -> quiet w (emit e x).
Proof. intros N. apply (@quiet_emits w x [e]). cbn. now rewrite N. Qed.

Lemma performs_neutral (ds : list Deferred) :
  forallb playback_neutral (map perform ds) = true.
Proof. induction ds as [|[d|] ds IH]; cbn; auto. Qed.

Lemma track_stops_neutral (ts : list MediaStreamTrack) :
  forallb playback_neutral (map (fun t => ETrackStop (track_id t)) ts) = true.
Proof. induction ts as [|t ts IH]; cbn; auto. Qed.

Section Setters.

Variables w x : World.
Hypothesis Hq : quiet w x.

Local Ltac same := apply (@quiet_same w x _ Hq); reflexivity.

Lemma quiet_setIsConnected a : quiet w (setIsConnected a x).
Proof. same. Qed.

Lemma quiet_setIsMuted a : quiet w (setIsMuted a x).
Proof. same. Qed.

Lemma quiet_setLogs a : quiet w (setLogs a x).
Proof. same. Qed.

Lemma quiet_set_inputContext a : quiet w (set_inputContext a x).
Proof. same. Qed.

Lemma quiet_set_outputContext a : quiet w (set_outputContext a x).
Proof. same. Qed.

Lemma quiet_set_stream a : quiet w (set_stream a x).
Proof. same. Qed.

Lemma quiet_set_processor a : quiet w (set_processor a x).
Proof. same. Qed.

Lemma quiet_set_source a : quiet w (set_source a x).
Proof. same. Qed.

Lemma quiet_set_nextStartTime a : quiet w (set_nextStartTime a x).
Proof. same. Qed.

Lemma quiet_set_session a : quiet w (set_session a x).
Proof. same. Qed.

Lemma quiet_set_pendingDecodes a : quiet w (set_pendingDecodes a x).
Proof. same. Qed.

Lemma quiet_set_nextSourceId a : quiet w (set_nextSourceId a x).
Proof. same. Qed.

Lemma quiet_addLog a : quiet w (addLog a x).
Proof. same. Qed.

End Setters.

Create HintDb quiet.

#[export] Hint Resolve quiet_refl quiet_setIsConnected quiet_setIsMuted
  quiet_setLogs quiet_set_inputContext quiet_set_outputContext
  quiet_set_stream quiet_set_processor quiet_set_source
  quiet_set_nextStartTime quiet_set_session quiet_set_pendingDecodes
  quiet_set_nextSourceId quiet_addLog performs_neutral track_stops_neutral
  : quiet.

(** Peel the outermost update of a world off a [quiet] goal.  The goal is
    matched by its shape, never unified up to unfolding. *)
Ltac quiet_step :=
  lazymatch goal with
  | H : quiet ?w ?x |- quiet ?w ?x => exact H
  | |- quiet ?w ?w => apply quiet_refl
  | |- quiet _ (emit _ _) => apply quiet_emit; [reflexivity|]
  | |- quiet _ (emits _ _) => apply quiet_emits; [solve [auto with quiet]|]
  | |- quiet _ (match ?o with _ => _ end) => destruct o eqn:?
  | |- quiet _ (setIsConnected _ _) => apply quiet_setIsConnected
  | |- quiet _ (setIsMuted _ _) => apply quiet_setIsMuted
  | |- quiet _ (setLogs _ _) => apply quiet_setLogs
  | |- quiet _ (set_inputContext _ _) => apply quiet_set_inputContext
  | |- quiet _ (set_outputContext _ _) => apply quiet_set_outputContext
  | |- quiet _ (set_stream _ _) => apply quiet_set_stream
  | |- quiet _ (set_processor _ _) => apply quiet_set_processor
  | |- quiet _ (set_source _ _) => apply quiet_set_source
  | |- quiet _ (set_nextStartTime _ _) => apply quiet_set_nextStartTime
  | |- quiet _ (set_session _ _) => apply quiet_set_session
  | |- quiet _ (set_pendingDecodes _ _) => apply quiet_set_pendingDecodes
  | |- quiet _ (set_nextSourceId _ _) => apply quiet_set_nextSourceId
  | |- quiet _ (addLog _ _) => apply quiet_addLog
  end.

Ltac quiet_tac := cbv zeta; repeat quiet_step.

Lemma quiet_session_then (d : Deferred) (w x : World) :
  quiet w x -> quiet w (session_then d x).
Proof.
  intros H. unfold session_then. destruct d; quiet_tac.
Qed.

Lemma quiet_connect (env : ConnectEnv) (w : World) : quiet w (connect env w).
Proof. unfold connect. quiet_tac. Qed.

Lemma quiet_disconnect (w x : World) : quiet w x -> quiet w (disconnect x).
Proof.
  intros H. unfold disconnect. cbv zeta. apply quiet_session_then.
  do 3 quiet_step.
  unfold close_output. quiet_tac; unfold close_input; quiet_tac;
    unfold disconnect_processor; quiet_tac;
    unfold disconnect_source; quiet_tac; unfold stop_tracks; quiet_tac.
Qed.

Lemma quiet_onopen (b : bool) (w : World) : quiet w (onopen b w).
Proof. unfold onopen. quiet_tac. Qed.

Lemma quiet_session_resolved (w : World) : quiet w (session_resolved w).
Proof. unfold session_resolved. quiet_tac. Qed.

Lemma quiet_session_rejected (w : World) : quiet w (session_rejected w).
Proof. unfold session_rejected. quiet_tac. Qed.

Lemma quiet_onaudioprocess (p : ScriptProcessor) (f : list Q) (w : World) :
  quiet w (onaudioprocess p f w).
Proof.
  unfold onaudioprocess. destruct (proc_isMuted p); [apply quiet_refl|].
  cbv zeta. apply quiet_session_then, quiet_refl.
Qed.

(** *** The invariant *)

Lemma tracked_quiet (w w' : World) : tracked w -> quiet w w' -> tracked w'.
Proof.
  unfold tracked. intros T [S (es & E & N)].
  now rewrite E, S, playing_app, observe_neutral.
Qed.

Section Invariant.

Variable stop_throws : BufferSource -> bool.

Lemma interruption_silences (w : World) :
  tracked w ->
  playing (trace (handle_interruption stop_throws true w)) = [].
Proof.
  intros T. cbn [handle_interruption].
  change (trace _) with
    (trace w ++ map (stop_source stop_throws) (scheduledSourcesRef w)).
  rewrite playing_app. now apply observe_stops.
Qed.

Lemma tracked_interruption (b : bool) (w : World) :
  tracked w -> tracked (handle_interruption stop_throws b w).
Proof.
  intros T. destruct b; [|exact T].
  unfold tracked. rewrite (interruption_silences T). intros x [].
Qed.

Lemma tracked_resume (pd : PendingDecode) (d now : Q) (w : World) :
  tracked w -> tracked (onmessage_resume stop_throws pd d now w).
Proof.
  intros T. unfold onmessage_resume. cbv zeta. apply tracked_interruption.
  unfold tracked. cbn [trace scheduledSourcesRef set_scheduledSources
    set_nextStartTime emit set_trace set_nextSourceId src_id].
  rewrite playing_app, map_app. cbn [fold_left observe_playback map src_id].
  intros x Hx. apply in_app_iff in Hx. apply in_app_iff.
  destruct Hx as [Hx|Hx]; [left; now apply T | now right].
Qed.

Lemma tracked_onmessage (msg : LiveServerMessage) (w : World) :
  tracked w -> tracked (onmessage stop_throws msg w).
Proof.
  intros T. unfold onmessage.
  destruct (msg_audio msg) as [a|]; [|now apply tracked_interruption].
  destruct (outputContextRef w); [|now apply tracked_interruption].
  destruct (truthy (Some a)); [|now apply tracked_interruption].
  destruct (base64ToUint8Array a); [|exact T].
  apply (tracked_quiet T). quiet_tac.
Qed.

Lemma tracked_step (ev : Event) (w : World) :
  tracked w -> tracked (step stop_throws ev w).
Proof.
  intros T. destruct ev; cbn [step].
  - destruct (isConnected w); [exact T|].
    apply (tracked_quiet T), quiet_connect.
  - destruct (isConnected w); [|exact T].
    apply (tracked_quiet T). unfold toggleMute. quiet_tac.
  - destruct (isConnected w); [|exact T].
    apply (tracked_quiet T), quiet_disconnect, quiet_refl.
  - apply (tracked_quiet T), quiet_session_resolved.
  - apply (tracked_quiet T), quiet_session_rejected.
  - destruct (sessionRef w); [|exact T].
    apply (tracked_quiet T), quiet_onopen.
  - now apply tracked_onmessage.
  - apply (tracked_quiet T). unfold onclose.
    apply quiet_disconnect. quiet_tac.
  - apply (tracked_quiet T). unfold onerror.
    apply quiet_disconnect. quiet_tac.
  - destruct (nth_error (pendingDecodes w) i); [|exact T].
    apply tracked_resume. apply (tracked_quiet T). quiet_tac.
  - apply (tracked_quiet T). quiet_tac.
  - destruct (processorRef w) as [p|]; [|exact T].
    destruct (proc_connected p); [|exact T].
    apply (tracked_quiet T), quiet_onaudioprocess.
Qed.

Lemma tracked_run (evs : list Event) (w : World) :
  tracked w -> tracked (run stop_throws evs w).
Proof.
  revert w. induction evs as [|ev evs IH]; intros w T; [exact T|].
  cbn [run fold_left]. apply IH. now apply tracked_step.
Qed.

Lemma tracked_initial : tracked initial.
Proof. intros x []. Qed.

(** *** The trace only grows *)

Lemma grows_refl (w : World) : grows w w.
Proof. exists []. now rewrite app_nil_r. Qed.

Lemma grows_trans (w x y : World) : grows w x -> grows x y -> grows w y.
Proof.
  intros [e1 E1] [e2 E2]. exists (e1 ++ e2). now rewrite E2, E1, app_assoc.
Qed.

Lemma quiet_grows (w w' : World) : quiet w w' -> grows w w'.
Proof. intros [_ (es & E & _)]. now exists es. Qed.

Lemma grows_interruption (b : bool) (w : World) :
  grows w (handle_interruption stop_throws b w).
Proof.
  destruct b; [|apply grows_refl].
  now exists (map (stop_source stop_throws) (scheduledSourcesRef w)).
Qed.

Lemma grows_resume (pd : PendingDecode) (d now : Q) (w : World) :
  grows w (onmessage_resume stop_throws pd d now w).
Proof.
  unfold onmessage_resume. cbv zeta.
  eapply grows_trans; [|apply grows_interruption].
  now exists [ESourceStart (nextSourceId w) (catch_up (nextStartTimeRef w) now)].
Qed.

Lemma grows_step (ev : Event) (w : World) : grows w (step stop_throws ev w).
Proof.
  destruct ev; cbn [step].
  - destruct (isConnected w); [apply grows_refl|].
    apply quiet_grows, quiet_connect.
  - destruct (isConnected w); [|apply grows_refl].
    apply quiet_grows. unfold toggleMute. quiet_tac.
  - destruct (isConnected w); [|apply grows_refl].
    apply quiet_grows, quiet_disconnect, quiet_refl.
  - apply quiet_grows, quiet_session_resolved.
  - apply quiet_grows, quiet_session_rejected.
  - destruct (sessionRef w); [|apply grows_refl].
    apply quiet_grows, quiet_onopen.
  - unfold onmessage.
    destruct (msg_audio msg) as [a|]; [|apply grows_interruption].
    destruct (outputContextRef w); [|apply grows_interruption].
    destruct (truthy (Some a)); [|apply grows_interruption].
    destruct (base64ToUint8Array a); [|apply grows_refl].
    apply quiet_grows. quiet_tac.
  - apply quiet_grows. unfold onclose. apply quiet_disconnect. quiet_tac.
  - apply quiet_grows. unfold onerror. apply quiet_disconnect. quiet_tac.
  - destruct (nth_error (pendingDecodes w) i); [|apply grows_refl].
    eapply grows_trans; [|apply grows_resume]. apply quiet_grows. quiet_tac.
  - apply quiet_grows. quiet_tac.
  - destruct (processorRef w) as [p|]; [|apply grows_refl].
    destruct (proc_connected p); [|apply grows_refl].
    apply quiet_grows, quiet_onaudioprocess.
Qed.

Lemma grows_run (evs : list Event) (w : World) :
  grows w (run stop_throws evs w).
Proof.
  revert w. induction evs as [|ev evs IH]; intros w; [apply grows_refl|].
  cbn [run fold_left]. eapply grows_trans; [apply grows_step | apply IH].
Qed.

End Invariant.

End InterruptionFacts.

(** C2.  Whatever is scheduled when [Interrupted] is processed, the
    handler calls [stop()] on every source of the scheduled-source set, in
    the order of the set, and goes on to the next one whether or not the
    call raises; none of these sources is playing afterwards; the set is
    left empty; the cursor is back at 0; and the next buffer scheduled
    after that starts at the cursor caught up from 0, which is no earlier
    than the output clock. *)
Theorem interrupted_flushes_playback
  (stop_throws : BufferSource -> bool) (w : World) :
  let w' := onmessage stop_throws Interrupted w in
  trace w'
  = trace w ++ map (fun s => ESourceStop (src_id s) (stop_throws s))
                   (scheduledSourcesRef w)
  /\ Forall (fun s => ~ In (src_id s) (playing (trace w')))
            (scheduledSourcesRef w)
  /\ scheduledSourcesRef w' = []
  /\ nextStartTimeRef w' = 0%Q
  /\ forall pd duration currentTime,
       let w'' := onmessage_resume stop_throws pd duration currentTime w' in
       let start := catch_up 0 currentTime in
       (currentTime <= start)%Q
       /\ exists rest,
            trace w'' = trace w' ++ ESourceStart (nextSourceId w') start :: rest.
Proof.
  cbv zeta. unfold onmessage. cbn [Interrupted msg_audio msg_interrupted].
  split; [reflexivity|]. split.
  - apply Forall_forall. intros s Hs Hin.
    change (trace (handle_interruption stop_throws true w))
      with (trace w ++ map (stop_source stop_throws) (scheduledSourcesRef w))
      in Hin.
    rewrite InterruptionFacts.playing_app in Hin.
    apply InterruptionFacts.stops_remove in Hin.
    destruct Hin as [_ N]. apply N. now apply in_map.
  - split; [reflexivity|]. split; [reflexivity|].
    intros pd duration currentTime. split.
    + apply PlaybackFacts.catch_up_clock.
    + unfold onmessage_resume, handle_interruption.
      destruct (pd_interrupted pd); cbn; eexists; rewrite <- !app_assoc;
        reflexivity.
Qed.

(** C9.  In every execution, when [Interrupted] is processed every
    source that is playing or scheduled is in the scheduled-source set; the
    handler does nothing to playback but call [stop()] on each of them, so
    none remains scheduled; the chunks still being decoded stay pending;
    and whatever is scheduled later, these chunks included, comes after the
    stops. *)
Theorem interruption_takes_effect_at_once
  (stop_throws : BufferSource -> bool) (evs : list Event) :
  let w := run stop_throws evs initial in
  let w' := step stop_throws (EvMessage Interrupted) w in
  tracked w
  /\ trace w' = trace w ++ map (stop_source stop_throws) (scheduledSourcesRef w)
  /\ playing (trace w') = []
  /\ scheduledSourcesRef w' = []
  /\ pendingDecodes w' = pendingDecodes w
  /\ forall later, exists es,
       trace (run stop_throws later w') = trace w' ++ es.
Proof.
  cbv zeta.
  pose proof (InterruptionFacts.tracked_run stop_throws evs
                InterruptionFacts.tracked_initial) as T.
  set (w := run stop_throws evs initial) in *.
  split; [exact T|].
  change (step stop_throws (EvMessage Interrupted) w)
    with (handle_interruption stop_throws true w).
  split; [reflexivity|].
  split; [now apply InterruptionFacts.interruption_silences|].
  split; [reflexivity|]. split; [reflexivity|].
  intros later. apply InterruptionFacts.grows_run.
Qed.

(* ================================================================== *)
(** ** The session lifecycle *)
(* ================================================================== *)

(** C5.  The [onaudioprocess] handler tests the [isMuted] it closed over
    when [connect] ran, not the current mute flag: with the session open
    and the mute button pressed, three captured frames are all sent, where
    none should reach the transport. *)
Lemma muted_frames_are_still_sent :
  let w := run never_throws
             [EvConnect granted; EvOpen; EvSessionResolved; EvToggleMute]
             initial in
  isMuted w = true
  /\ frames_sent w = 0%nat
  /\ frames_sent
       (run never_throws
          [EvAudioProcess silent_frame; EvAudioProcess silent_frame;
           EvAudioProcess silent_frame] w) = 3%nat.
Proof. vm_compute. repeat split. Qed.

(** Pressing the mute button never changes what the installed handler
    does with a frame. *)
Lemma mute_button_does_not_reach_the_handler
  (p : ScriptProcessor) (frame : list Q) (w : World) :
  processorRef (toggleMute w) = processorRef w
  /\ trace (onaudioprocess p frame (toggleMute w))
     = trace (onaudioprocess p frame w).
Proof.
  split; [reflexivity|]. unfold onaudioprocess.
  destruct (proc_isMuted p); [reflexivity|]. cbv zeta. unfold session_then.
  change (sessionRef (toggleMute w)) with (sessionRef w).
  destruct (sessionRef w) as [s|]; [|reflexivity].
  destruct (sess_state s); reflexivity.
Qed.

(** C7.  When [getUserMedia] is rejected, [connect] only logs the failure:
    the controller is in Disconnected, but the two audio contexts it has
    just created, the output device among them, are left open and nothing
    closes them. *)
Lemma denied_microphone_leaves_output_open :
  let w := connect denied initial in
  Disconnected w
  /\ logs w = ["Connection failed"%string]
  /\ output_released w = false
  /\ context_released (inputContextRef w) = false
  /\ filter is_context_close (trace w) = [].
Proof. vm_compute. repeat split. Qed.

(** C8, as stated, fails: the connection is requested only after the
    microphone was acquired, so an attempt whose connection cannot be
    established has acquired the microphone, and still holds it. *)
Lemma failed_connection_has_acquired_the_microphone :
  let w := run never_throws [EvConnect granted; EvSessionRejected] initial in
  option_map sess_state (sessionRef w) = Some Rejected
  /\ In (EGetUserMedia true) (trace w)
  /\ streamRef w = Some microphone
  /\ tracks_ended (streamRef w) = false.
Proof. vm_compute. repeat split. right. right. now left. Qed.

Module LifecycleFacts.

Lemma tracks_stopped (ts : list MediaStreamTrack) :
  forallb (fun t => negb (track_live t)) (map stop_track ts) = true.
Proof. induction ts as [|t ts IH]; cbn; auto. Qed.

Lemma release_order_app (es es' : list Effect) :
  release_order (es ++ es') = release_order es ++ release_order es'.
Proof.
  induction es as [|e es IH]; [reflexivity|]. cbn [app release_order].
  destruct (releases e); cbn [app]; now rewrite IH.
Qed.

Lemma release_order_tracks (ts : list MediaStreamTrack) :
  release_order (map (fun t => ETrackStop (track_id t)) ts)
  = repeat Capture (List.length ts).
Proof. induction ts as [|t ts IH]; cbn; [reflexivity | now rewrite IH]. Qed.

(** Releases of Capture in front of an ordered run that could start with
    one keep it ordered. *)
Lemma in_order_capture_first (rank : Component -> nat) (k : nat)
  (tail : list Component) :
  in_order rank (Capture :: tail) = true ->
  in_order rank (repeat Capture k ++ tail) = true.
Proof.
  intros H.
  assert (G : forall n, in_order rank (Capture :: repeat Capture n ++ tail)
                        = true).
  { induction n as [|n IH]; [exact H|].
    cbn [repeat app in_order] in *. now rewrite Nat.leb_refl, IH. }
  destruct k as [|k]; [|apply G].
  destruct tail as [|c tail]; [reflexivity|].
  cbn [in_order] in H. apply andb_prop in H. apply H.
Qed.

Lemma in_order_captures (rank : Component -> nat) (k : nat) :
  in_order rank (repeat Capture k) = true.
Proof.
  rewrite <- (app_nil_r (repeat Capture k)).
  now apply in_order_capture_first.
Qed.

(** What one call of [disconnect] does, from any state. *)
Lemma disconnect_once (w : World) :
  let w' := disconnect w in
  Disconnected w'
  /\ microphone_released w' = true
  /\ output_released w' = true
  /\ transport_released w'
  /\ isMuted w' = false
  /\ logs w' = []
  /\ exists es, trace w' = trace w ++ es
       /\ in_order rank_capture_playback_transport (release_order es) = true.
Proof.
  destruct w as [conn muted lg ictx octx stream proc src next srcs sess
                 pend nid tr].
  destruct stream as [[ts]|], src as [src|], proc as [proc|],
    ictx as [ictx|], octx as [octx|], sess as [[[| |] ds m]|];
    cbv -[app map forallb In in_order release_order track_id
          rank_capture_playback_transport];
    rewrite ?tracks_stopped;
    (split; [reflexivity|]); (split; [reflexivity|]);
    (split; [reflexivity|]);
    (split; [first [exact I | apply in_or_app; right; now left]|]);
    (split; [reflexivity|]); (split; [reflexivity|]);
    eexists;
    (split;
     [ first [ symmetry; apply app_nil_r
             | rewrite <- ?app_assoc; reflexivity ]
     | rewrite ?release_order_app, ?release_order_tracks;
       first [ apply in_order_capture_first; reflexivity
             | apply in_order_captures
             | reflexivity ] ]).
Qed.

Lemma track_stops_close_nothing (ts : list MediaStreamTrack) :
  filter is_session_close (map (fun t => ETrackStop (track_id t)) ts) = [].
Proof. induction ts as [|t ts IH]; [reflexivity | exact IH]. Qed.

Lemma in_order_front (rank : Component -> nat) (l l' : list Component) :
  in_order rank (l ++ l') = true -> in_order rank l = true.
Proof.
  induction l as [|c l IH]; [reflexivity|].
  destruct l as [|c' l]; [reflexivity|].
  cbn [app in_order]. intros H. apply andb_prop in H. destruct H as [H1 H2].
  rewrite H1. cbn [andb]. apply IH. exact H2.
Qed.

(** The synchronous part of [disconnect], before the callback chained on
    the session promise. *)
Lemma teardown_calls (w : World) :
  let w6 := setLogs [] (setIsMuted false (setIsConnected false
              (close_output (close_input (disconnect_processor
                 (disconnect_source (stop_tracks w))))))) in
  sessionRef w6 = sessionRef w
  /\ exists es, trace w6 = trace w ++ es
       /\ in_order rank_capture_playback_transport
            (release_order es ++ [Transport]) = true
       /\ filter is_session_close es = [].
Proof.
  destruct w as [conn muted lg ictx octx stream proc src next srcs sess
                 pend nid tr].
  destruct stream as [[ts]|], src as [src|], proc as [proc|],
    ictx as [ictx|], octx as [octx|];
    cbv -[app map filter in_order release_order track_id is_session_close
          rank_capture_playback_transport];
    (split; [reflexivity|]); eexists;
    (split;
     [ first [ symmetry; apply app_nil_r
             | rewrite <- ?app_assoc; reflexivity ]
     | split;
       [ rewrite ?release_order_app, ?release_order_tracks, <- ?app_assoc;
         first [ apply in_order_capture_first; reflexivity
               | reflexivity ]
       | rewrite ?filter_app, ?track_stops_close_nothing; reflexivity ] ]).
Qed.

Lemma disconnect_calls (w : World) :
  exists es, trace (disconnect w) = trace w ++ es
    /\ in_order rank_capture_playback_transport (release_order es) = true
    /\ closes_session w (disconnect w) es.
Proof.
  unfold disconnect. cbv zeta.
  destruct (teardown_calls w) as (S & es & E & O & F). cbv zeta in S, E.
  set (w6 := setLogs [] _) in *. clearbody w6.
  unfold closes_session, session_then. rewrite <- S.
  destruct (sessionRef w6) as [s|] eqn:Hs.
  - destruct (sess_state s) eqn:Hst.
    + exists es. split; [exact E|].
      split; [now apply in_order_front with [Transport]|].
      split; [reflexivity | exact F].
    + exists (es ++ [ESessionClose]). split.
      * cbn [emit set_trace trace]. rewrite E. now rewrite app_assoc.
      * split; [now rewrite release_order_app|].
        split; [exact Hs|]. now exists es.
    + exists es. split; [exact E|].
      split; [now apply in_order_front with [Transport]|].
      split; [exact Hs | exact F].
  - exists es. split; [exact E|].
    split; [now apply in_order_front with [Transport]|].
    split; [exact Hs | exact F].
Qed.

Lemma disconnect_releases_refs (w : World) : released_from w (disconnect w).
Proof.
  destruct w as [conn muted lg ictx octx stream proc src next srcs sess
                 pend nid tr].
  destruct stream, src, proc, ictx, octx, sess as [[[] ds sm]|];
    repeat split.
Qed.

Lemma disconnect_twice (w : World) :
  same_state (disconnect w) (disconnect (disconnect w)).
Proof.
  destruct w as [conn muted lg ictx octx stream proc src next srcs sess
                 pend nid tr].
  destruct stream as [[ts]|], src, proc, ictx, octx, sess as [[[] ds sm]|];
    cbv -[map stop_track]; rewrite ?map_map; repeat split.
Qed.

End LifecycleFacts.

(** C6, as stated, fails on the order: closing a connected session
    releases the output context, which is Playback's, before it closes the
    session, which is Transport's. *)
Lemma disconnect_releases_playback_before_transport :
  let w := run never_throws [EvConnect granted; EvOpen; EvSessionResolved]
             initial in
  let calls := skipn (List.length (trace w)) (trace (disconnect w)) in
  release_order calls
  = [Capture; Capture; Capture; Capture; Playback; Transport]
  /\ in_order rank_capture_transport_playback (release_order calls) = false.
Proof. vm_compute. split; reflexivity. Qed.

(** C6, amended.  From any state, [disconnect] completes and leaves the
    controller in Disconnected with what the refs hold released: the refs
    hold the objects they held before, the stream with its tracks stopped,
    the capture nodes disconnected, both contexts closed.  The calls come
    in the order Capture, Playback, Transport, and the session promise in
    the ref gets its [close()]: last of all the calls on an established
    session, queued on a pending one, never on a rejected one.  Called
    again right away, [disconnect] leaves the component's state and the
    objects in the refs exactly as they are; and on a component that was
    never connected it does nothing at all. *)
Theorem disconnect_is_safe_from_any_state (w : World) :
  let w1 := disconnect w in
  let w2 := disconnect w1 in
  (Disconnected w1 /\ microphone_released w1 = true
   /\ output_released w1 = true /\ transport_released w1)
  /\ (Disconnected w2 /\ microphone_released w2 = true
      /\ output_released w2 = true /\ transport_released w2)
  /\ (exists es, trace w1 = trace w ++ es
        /\ in_order rank_capture_playback_transport (release_order es) = true
        /\ closes_session w w1 es)
  /\ released_from w w1
  /\ same_state w1 w2
  /\ disconnect initial = initial.
Proof.
  cbv zeta.
  destruct (LifecycleFacts.disconnect_once w) as (A & B & C & D & _).
  destruct (LifecycleFacts.disconnect_once (disconnect w))
    as (A' & B' & C' & D' & _).
  split; [repeat split; assumption|].
  split; [repeat split; assumption|].
  split; [apply LifecycleFacts.disconnect_calls|].
  split; [apply LifecycleFacts.disconnect_releases_refs|].
  split; [apply LifecycleFacts.disconnect_twice | reflexivity].
Qed.

(** C8, amended.  Whatever the environment, a [connect] attempt whose
    session is not established never builds the capture graph and sends no
    frame: the stream source and the script processor are those of before
    the attempt, and none of the calls made creates them or sends input.
    The microphone, though, is requested before the connection is: whenever
    the attempt gets as far as requesting the connection, it has acquired
    the microphone first. *)
Theorem failed_connection_never_starts_capture
  (env : ConnectEnv) (w : World) :
  let w' := session_rejected (connect env w) in
  processorRef w' = processorRef w
  /\ sourceRef w' = sourceRef w
  /\ exists es, trace w' = trace w ++ es
       /\ forallb (fun e => negb (starts_capture e)) es = true
       /\ microphone_first false es = true.
Proof.
  destruct env as [[[|c key]|] [stream|]];
    destruct w as [conn muted lg ictx octx st proc src next srcs sess
                   pend nid tr];
    destruct sess as [[[| |] ds m]|];
    cbv -[app];
    (split; [reflexivity|]); (split; [reflexivity|]);
    eexists;
    (split;
     [ first [ symmetry; apply app_nil_r
             | rewrite <- ?app_assoc; reflexivity ]
     | split; reflexivity ]).
Qed.

(** C10.  After [disconnect], whatever the state before, the mute flag is
    off and the log is empty; a [connect] that follows (with an API key and
    a microphone) starts from that empty log, its callbacks close over the
    mute flag being off, and so the processor installed when the session
    opens forwards the frames it captures. *)
Theorem disconnect_resets_mute_and_log
  (stop_throws : BufferSource -> bool) (w : World) (env : ConnectEnv)
  (key : string) (stream : MediaStream) :
  env_apiKey env = Some key -> key <> ""%string ->
  env_microphone env = Some stream ->
  let w0 := disconnect w in
  let w1 := connect env w0 in
  isMuted w0 = false
  /\ logs w0 = []
  /\ logs w1 = ["Connecting to Live API..."%string]
  /\ option_map sess_isMuted (sessionRef w1) = Some false
  /\ option_map proc_isMuted (processorRef (step stop_throws EvOpen w1))
     = Some false
  /\ forall frame,
       frames_sent (run stop_throws
                      [EvOpen; EvSessionResolved; EvAudioProcess frame] w1)
       = S (frames_sent w0).
Proof.
  intros Hkey Hne Hmic. cbv zeta.
  destruct (LifecycleFacts.disconnect_once w) as (_ & _ & _ & _ & M & L & _).
  destruct (disconnect w) as [conn muted lg ictx octx st proc src next srcs
                              sess pend nid tr].
  cbn [isMuted logs] in M, L. subst muted lg.
  destruct env as [k mic]. cbn [env_apiKey env_microphone] in Hkey, Hmic.
  subst k mic. destruct key as [|c key]; [contradiction|].
  split; [reflexivity|]. split; [reflexivity|].
  split; [reflexivity|]. split; [reflexivity|].
  split; [reflexivity|].
  intros frame. unfold frames_sent.
  cbv -[app filter List.length float32ToPCM16 int16_buffer
        arrayBufferToBase64].
  rewrite !filter_app, !length_app. cbn. lia.
Qed.

Lemma disconnect_resets_mute_and_log_witness :
  let w := run never_throws [EvConnect granted; EvOpen; EvToggleMute] initial in
  isMuted w = true
  /\ isMuted (disconnect w) = false
  /\ option_map sess_isMuted (sessionRef (connect granted (disconnect w)))
     = Some false.
Proof.
  cbv zeta. split; [reflexivity|].
  destruct (@disconnect_resets_mute_and_log never_throws
              (run never_throws [EvConnect granted; EvOpen; EvToggleMute]
                 initial)
              granted "key"%string microphone eq_refl)
    as (A & _ & _ & B & _).
  - discriminate.
  - reflexivity.
  - split; [exact A | exact B].
Defined.

(** The cases of the test suite of services/audioUtils. *)
Example b64_hello :
  arrayBufferToBase64 (bytes_of_string "Hello World"%string)
  = "SGVsbG8gV29ybGQ="%string.
Proof. reflexivity. Qed.

Example b64_hello_back :
  base64ToUint8Array "SGVsbG8gV29ybGQ="%string
  = Some (bytes_of_string "Hello World"%string).
Proof. reflexivity. Qed.

Example b64_single :
  base64ToUint8Array "QQ=="%string = Some [x41].
Proof. reflexivity. Qed.

Example pcm_samples :
  float32ToPCM16 [0; 1 # 2; 1; - (1 # 2); -1; 2; -2]%Q
  = [0; 16383; 32767; -16384; -32768; 32767; -32768]%Z.
Proof. reflexivity. Qed.

(** The event loop on a short session: a chunk is decoded and started at
    the clock, a second chunk is still being decoded when the interruption
    arrives; the first source is stopped, and the second chunk is started
    afterwards, at the clock again. *)
Example session_with_interruption :
  let w := run never_throws
             [EvConnect granted; EvOpen; EvSessionResolved;
              EvMessage (AudioChunk "QUJD"); EvDecoded 0 (1 # 2) 3;
              EvMessage (AudioChunk "QUJD"); EvMessage Interrupted;
              EvDecoded 0 (1 # 2) 4]
             initial in
  filter (fun e => negb (playback_neutral e)) (trace w)
  = [ESourceStart 0 3; ESourceStop 0 false; ESourceStart 1 4]
  /\ playing (trace w) = [1%nat]
  /\ map src_id (scheduledSourcesRef w) = [1%nat]
  /\ nextStartTimeRef w = (4 + (1 # 2))%Q.
Proof. vm_compute. repeat split. Qed.

(* ================================================================== *)
(** ** LiveAssistant: more of what the component does *)
(* ================================================================== *)

Import Reachable.

Module ReachableFacts.

Ltac split_world w :=
  destruct w as [conn muted lg ictx octx stream proc src next srcs sess
                 pend nid tr].

Ltac crush_healthy :=
  unfold healthy, mute_needs_connection, closures_unmuted,
    session_has_resources;
  cbv -[firstn List.length app map base64ToUint8Array arrayBufferToBase64
        float32ToPCM16 int16_buffer catch_up Qplus nth_error remove_nth];
  intuition (try discriminate; try apply firstn_le_length;
             try (cbn; lia); auto).

Lemma healthy_connect (env : ConnectEnv) (w : World) :
  isConnected w = false -> healthy w -> healthy (connect env w).
Proof.
  destruct env as [[[|c key]|] [mic|]]; split_world w;
    destruct conn, muted, ictx, octx, stream, sess as [[st ds []]|];
    crush_healthy.
Qed.

Lemma healthy_stop_tracks (w : World) : healthy w -> healthy (stop_tracks w).
Proof.
  split_world w. destruct stream as [[ts]|], sess as [[st ds []]|];
    crush_healthy.
Qed.

Lemma healthy_disconnect_source (w : World) :
  healthy w -> healthy (disconnect_source w).
Proof. split_world w. destruct src; exact (fun H => H). Qed.

Lemma healthy_disconnect_processor (w : World) :
  healthy w -> healthy (disconnect_processor w).
Proof.
  split_world w. destruct proc as [[bs pc []]|], sess as [[st ds []]|];
    crush_healthy.
Qed.

Lemma healthy_close_input (w : World) : healthy w -> healthy (close_input w).
Proof.
  split_world w. destruct ictx, sess as [[st ds []]|]; crush_healthy.
Qed.

Lemma healthy_close_output (w : World) : healthy w -> healthy (close_output w).
Proof.
  split_world w. destruct octx, ictx, sess as [[st ds []]|]; crush_healthy.
Qed.

Lemma healthy_reset (w : World) :
  healthy w -> healthy (setLogs [] (setIsMuted false (setIsConnected false w))).
Proof.
  split_world w. unfold healthy. intros (_ & _ & C & R).
  repeat split; [cbn; lia | exact C | exact R].
Qed.

Lemma healthy_addLog (m : string) (w : World) :
  healthy w -> healthy (addLog m w).
Proof.
  split_world w. unfold healthy. intros (_ & M & C & R).
  repeat split; [apply firstn_le_length | exact M | exact C | exact R].
Qed.

Lemma healthy_emit (e : Effect) (w : World) : healthy w -> healthy (emit e w).
Proof. split_world w. exact (fun H => H). Qed.

Lemma healthy_onopen (w : World) : healthy w -> healthy (onopen false w).
Proof.
  split_world w. destruct ictx, octx, stream, sess as [[st ds []]|];
    crush_healthy.
Qed.

Lemma healthy_toggleMute (w : World) :
  isConnected w = true -> healthy w -> healthy (toggleMute w).
Proof.
  split_world w. cbn [isConnected]. intros ->. unfold healthy.
  intros (L & _ & C & R). repeat split; assumption.
Qed.

Lemma healthy_session_then (d : Deferred) (w : World) :
  healthy w -> healthy (session_then d w).
Proof.
  split_world w. destruct d, sess as [[[] ds []]|]; crush_healthy.
Qed.

Lemma healthy_disconnect (w : World) : healthy w -> healthy (disconnect w).
Proof.
  intros H. unfold disconnect. cbv zeta.
  now apply healthy_session_then, healthy_reset, healthy_close_output,
    healthy_close_input, healthy_disconnect_processor,
    healthy_disconnect_source, healthy_stop_tracks.
Qed.

Lemma healthy_session_resolved (w : World) :
  healthy w -> healthy (session_resolved w).
Proof. split_world w. destruct sess as [[[] ds []]|]; crush_healthy. Qed.

Lemma healthy_session_rejected (w : World) :
  healthy w -> healthy (session_rejected w).
Proof. split_world w. destruct sess as [[[] ds []]|]; crush_healthy. Qed.

Lemma healthy_set_pendingDecodes (l : list PendingDecode) (w : World) :
  healthy w -> healthy (set_pendingDecodes l w).
Proof. split_world w. exact (fun H => H). Qed.

Section Playback.

Variable stop_throws : BufferSource -> bool.

Lemma healthy_interruption (b : bool) (w : World) :
  healthy w -> healthy (handle_interruption stop_throws b w).
Proof.
  destruct b; [|exact (fun H => H)]. cbn [handle_interruption]. cbv zeta.
  intros H. apply healthy_addLog with (m := "Interrupted"%string) in H.
  revert H. generalize (addLog "Interrupted" w). clear w. intros w.
  split_world w. exact (fun H => H).
Qed.

Lemma healthy_resume (pd : PendingDecode) (d now : Q) (w : World) :
  healthy w -> healthy (onmessage_resume stop_throws pd d now w).
Proof.
  intros H. unfold onmessage_resume. cbv zeta. apply healthy_interruption.
  revert H. split_world w. exact (fun H => H).
Qed.

Lemma healthy_onmessage (msg : LiveServerMessage) (w : World) :
  healthy w -> healthy (onmessage stop_throws msg w).
Proof.
  intros H. unfold onmessage.
  destruct (msg_audio msg) as [a|]; [|now apply healthy_interruption].
  destruct (outputContextRef w); [|now apply healthy_interruption].
  destruct (truthy (Some a)); [|now apply healthy_interruption].
  destruct (base64ToUint8Array a); [|exact H].
  now apply healthy_set_pendingDecodes.
Qed.

Lemma healthy_step (ev : Event) (w : World) :
  healthy w -> healthy (step stop_throws ev w).
Proof.
  intros H. destruct ev; cbn [step].
  - destruct (isConnected w) eqn:E; [exact H | now apply healthy_connect].
  - destruct (isConnected w) eqn:E; [now apply healthy_toggleMute | exact H].
  - destruct (isConnected w); [now apply healthy_disconnect | exact H].
  - now apply healthy_session_resolved.
  - now apply healthy_session_rejected.
  - destruct (sessionRef w) as [s|] eqn:E; [|exact H].
    assert (S : sess_isMuted s = false).
    { destruct H as (_ & _ & C & _). unfold closures_unmuted in C.
      rewrite E in C. apply andb_prop in C. destruct C as [C _].
      now apply negb_true_iff in C. }
    rewrite S. now apply healthy_onopen.
  - now apply healthy_onmessage.
  - unfold onclose. now apply healthy_disconnect, healthy_addLog.
  - unfold onerror. now apply healthy_disconnect, healthy_addLog, healthy_emit.
  - destruct (nth_error (pendingDecodes w) i); [|exact H].
    now apply healthy_resume, healthy_set_pendingDecodes.
  - now apply healthy_set_pendingDecodes.
  - destruct (processorRef w) as [p|]; [|exact H].
    destruct (proc_connected p); [|exact H].
    unfold onaudioprocess. destruct (proc_isMuted p); [exact H|].
    cbv zeta. now apply healthy_session_then.
Qed.

Lemma healthy_run (evs : list Event) (w : World) :
  healthy w -> healthy (run stop_throws evs w).
Proof.
  revert w. induction evs as [|ev evs IH]; intros w H; [exact H|].
  cbn [run fold_left]. apply IH. now apply healthy_step.
Qed.

End Playback.

Lemma healthy_initial : healthy initial.
Proof. repeat split. cbn. lia. Qed.

End ReachableFacts.

(** X1.  In every execution the status log holds at most five entries. *)
Theorem log_never_exceeds_five_entries
  (stop_throws : BufferSource -> bool) (evs : list Event) :
  (List.length (logs (run stop_throws evs initial)) <= 5)%nat.
Proof.
  apply (ReachableFacts.healthy_run stop_throws evs
           ReachableFacts.healthy_initial).
Qed.

(** X2.  In every execution, while the controller shows the session as
    disconnected the mute flag is off, and neither the callbacks of the
    session nor the installed [onaudioprocess] handler have closed over a
    mute flag that was on. *)
Theorem no_closure_ever_sees_mute_on
  (stop_throws : BufferSource -> bool) (evs : list Event) :
  let w := run stop_throws evs initial in
  mute_needs_connection w = true /\ closures_unmuted w = true.
Proof.
  destruct (ReachableFacts.healthy_run stop_throws evs
              ReachableFacts.healthy_initial) as (_ & M & C & _).
  now split.
Qed.

(** X3.  In every execution, a frame delivered to the connected processor
    while the session is established is sent, whatever the mute flag
    says. *)
Theorem every_captured_frame_is_sent
  (stop_throws : BufferSource -> bool) (evs : list Event)
  (p : ScriptProcessor) (s : Session) (inputData : list Q) :
  let w := run stop_throws evs initial in
  processorRef w = Some p -> proc_connected p = true ->
  sessionRef w = Some s -> sess_state s = Fulfilled ->
  trace (step stop_throws (EvAudioProcess inputData) w)
  = trace w ++ [send_call inputData].
Proof.
  cbv zeta. intros Hp Hc Hs Hf.
  destruct (ReachableFacts.healthy_run stop_throws evs
              ReachableFacts.healthy_initial) as (_ & _ & C & _).
  unfold closures_unmuted in C. rewrite Hp, Hs in C.
  apply andb_prop in C. destruct C as [_ C]. apply negb_true_iff in C.
  cbn [step]. rewrite Hp, Hc. unfold onaudioprocess. rewrite C. cbv zeta.
  unfold session_then. rewrite Hs, Hf. reflexivity.
Qed.

Lemma every_captured_frame_is_sent_witness :
  let w := run never_throws
             [EvConnect granted; EvOpen; EvSessionResolved; EvToggleMute]
             initial in
  isMuted w = true
  /\ trace (step never_throws (EvAudioProcess [1 # 2; -2]%Q) w)
     = trace w ++ [send_call [1 # 2; -2]%Q].
Proof.
  cbv zeta. split; [reflexivity|].
  eapply (@every_captured_frame_is_sent never_throws
           [EvConnect granted; EvOpen; EvSessionResolved; EvToggleMute]);
    reflexivity.
Defined.

(** X4.  In every execution, whenever there is a session there are the
    input context, the output context and the microphone stream: the early
    return of [onopen] and the output-context test of [onmessage] never
    fail for lack of a context. *)
Theorem session_always_has_its_contexts
  (stop_throws : BufferSource -> bool) (evs : list Event) :
  session_has_resources (run stop_throws evs initial) = true.
Proof.
  apply (ReachableFacts.healthy_run stop_throws evs
           ReachableFacts.healthy_initial).
Qed.

Module CaptureFacts.

Lemma set_session_twice (a b : option Session) (w : World) :
  set_session a (set_session b w) = set_session a w.
Proof. destruct w. reflexivity. Qed.

Section Pending.

Variable stop_throws : BufferSource -> bool.

(** Frames captured while the session promise is pending only queue up on
    the promise. *)
Lemma frames_queue_up (frames : list (list Q)) (w : World) (s : Session)
  (p : ScriptProcessor) :
  sessionRef w = Some s -> sess_state s = Pending ->
  processorRef w = Some p -> proc_connected p = true ->
  proc_isMuted p = false ->
  run stop_throws (map EvAudioProcess frames) w
  = set_session
      (Some (with_state Pending
               (sess_deferred s ++ map (fun f => DSend (frame_payload f)) frames)
               s)) w.
Proof.
  revert w s. induction frames as [|f frames IH]; intros w s Hs Hp Hq Hc Hm.
  - cbn [map run fold_left]. rewrite app_nil_r.
    destruct w, s. cbn in *. subst. reflexivity.
  - cbn [map run fold_left].
    change (fold_left (fun w ev => step stop_throws ev w)
              (map EvAudioProcess frames) ?x)
      with (run stop_throws (map EvAudioProcess frames) x).
    assert (E : step stop_throws (EvAudioProcess f) w
                = set_session
                    (Some (with_state Pending
                             (sess_deferred s ++ [DSend (frame_payload f)]) s))
                    w).
    { cbn [step]. rewrite Hq, Hc. unfold onaudioprocess. rewrite Hm.
      cbv zeta. unfold session_then. rewrite Hs, Hp. reflexivity. }
    rewrite E.
    rewrite (IH (set_session
                   (Some (with_state Pending
                            (sess_deferred s ++ [DSend (frame_payload f)]) s))
                   w)
                (with_state Pending
                   (sess_deferred s ++ [DSend (frame_payload f)]) s)).
    + rewrite set_session_twice. cbn [with_state sess_deferred sess_isMuted].
      now rewrite <- app_assoc.
    + destruct w; reflexivity.
    + reflexivity.
    + destruct w; cbn in *; exact Hq.
    + exact Hc.
    + exact Hm.
Qed.

End Pending.

End CaptureFacts.

(** X5.  Frames captured while the session promise is still pending are
    not sent; when the promise is fulfilled they are all sent, after what
    was queued before them and in the order they were captured; when it is
    rejected none of them is ever sent. *)
Theorem frames_wait_for_the_session
  (stop_throws : BufferSource -> bool) (frames : list (list Q)) (w : World)
  (s : Session) (p : ScriptProcessor) :
  sessionRef w = Some s -> sess_state s = Pending ->
  processorRef w = Some p -> proc_connected p = true ->
  proc_isMuted p = false ->
  let captured := map EvAudioProcess frames in
  trace (run stop_throws captured w) = trace w
  /\ trace (run stop_throws (captured ++ [EvSessionResolved]) w)
     = trace w ++ map perform (sess_deferred s) ++ map send_call frames
  /\ trace (run stop_throws (captured ++ [EvSessionRejected]) w) = trace w.
Proof.
  intros Hs Hp Hq Hc Hm. cbv zeta. unfold run at 2 3.
  rewrite !fold_left_app. fold (run stop_throws (map EvAudioProcess frames) w).
  rewrite (@CaptureFacts.frames_queue_up stop_throws frames w s p Hs Hp Hq Hc Hm).
  destruct w, s. cbn in Hp. subst. cbn [fold_left step].
  repeat split.
  cbv -[app map frame_payload]. rewrite map_app, map_map. reflexivity.
Qed.

Lemma frames_wait_for_the_session_witness :
  let w := run never_throws [EvConnect granted; EvOpen] initial in
  let frames := [[1 # 2]; [-2]]%Q in
  trace (run never_throws (map EvAudioProcess frames) w) = trace w
  /\ trace (run never_throws
              (map EvAudioProcess frames ++ [EvSessionResolved]) w)
     = trace w ++ [send_call [1 # 2]%Q; send_call [-2]%Q].
Proof.
  cbv zeta.
  destruct (@frames_wait_for_the_session never_throws [[1 # 2]; [-2]]%Q
              (run never_throws [EvConnect granted; EvOpen] initial)
              {| sess_state := Pending; sess_deferred := [];
                 sess_isMuted := false |}
              {| proc_bufferSize := 4096; proc_connected := true;
                 proc_isMuted := false |}
              eq_refl eq_refl eq_refl eq_refl eq_refl) as (A & B & _).
  split; [exact A | exact B].
Defined.

Module SchedulerFacts.

Lemma cursor_after_grows (cursor : Q) (chunks : list Chunk) :
  Forall (fun c => (0 <= chunk_duration c)%Q) chunks ->
  (cursor <= cursor_after cursor chunks)%Q.
Proof.
  revert cursor. induction chunks as [|c rest IH]; intros cursor F.
  - apply Qle_refl.
  - inversion F as [|c' rest' Hc Hrest]; subst. cbn [cursor_after].
    eapply Qle_trans; [|apply IH, Hrest].
    pose proof (PlaybackFacts.catch_up_cursor cursor (chunk_currentTime c)).
    lra.
Qed.

Lemma scheduled_end_by_cursor (cursor : Q) (id : nat) (chunks : list Chunk) :
  Forall (fun c => (0 <= chunk_duration c)%Q) chunks ->
  Forall (fun s => (src_end s <= cursor_after cursor chunks)%Q)
         (scheduled cursor id chunks).
Proof.
  revert cursor id. induction chunks as [|c rest IH]; intros cursor id F.
  - constructor.
  - inversion F as [|c' rest' Hc Hrest]; subst.
    cbn [scheduled cursor_after]. constructor.
    + unfold src_end. cbn [src_start src_duration].
      now apply cursor_after_grows.
    + now apply IH.
Qed.

Section Cursor.

Variable stop_throws : BufferSource -> bool.

Lemma deliver_chunks_cursor (chunks : list Chunk) (w : World) :
  no_interruption chunks = true ->
  nextStartTimeRef (deliver_chunks stop_throws chunks w)
  = cursor_after (nextStartTimeRef w) chunks.
Proof.
  revert w. induction chunks as [|c rest IH]; intros w H; [reflexivity|].
  cbn [no_interruption forallb] in H. apply andb_prop in H.
  destruct H as [Hc Hrest]. apply negb_true_iff in Hc.
  destruct (PlaybackFacts.deliver_one stop_throws c w Hc) as (_ & _ & E & _).
  change (deliver_chunks stop_throws (c :: rest) w)
    with (deliver_chunks stop_throws rest (deliver stop_throws c w)).
  rewrite (IH _ Hrest), E. reflexivity.
Qed.

End Cursor.

End SchedulerFacts.

(** X6.  While chunks of non-negative duration are scheduled with no
    interruption, the timeline cursor never moves back, and it ends at or
    after the end of every source scheduled on the way. *)
Theorem cursor_never_moves_back
  (stop_throws : BufferSource -> bool) (w : World) (chunks : list Chunk) :
  no_interruption chunks = true ->
  Forall (fun c => (0 <= chunk_duration c)%Q) chunks ->
  let w' := deliver_chunks stop_throws chunks w in
  (nextStartTimeRef w <= nextStartTimeRef w')%Q
  /\ exists srcs,
       scheduledSourcesRef w' = scheduledSourcesRef w ++ srcs
       /\ Forall (fun s => (src_end s <= nextStartTimeRef w')%Q) srcs.
Proof.
  intros H F. cbv zeta.
  rewrite (SchedulerFacts.deliver_chunks_cursor stop_throws chunks w H).
  split; [now apply SchedulerFacts.cursor_after_grows|].
  exists (scheduled (nextStartTimeRef w) (nextSourceId w) chunks). split.
  - apply (PlaybackFacts.deliver_chunks_scheduled stop_throws chunks w H).
  - now apply SchedulerFacts.scheduled_end_by_cursor.
Qed.

Lemma cursor_never_moves_back_witness :
  let chunks := [chunk_at 0 1; chunk_at 5 (1 # 2)] in
  let w' := deliver_chunks never_throws chunks initial in
  (nextStartTimeRef initial <= nextStartTimeRef w')%Q
  /\ exists srcs,
       scheduledSourcesRef w' = scheduledSourcesRef initial ++ srcs
       /\ Forall (fun s => (src_end s <= nextStartTimeRef w')%Q) srcs.
Proof.
  apply (@cursor_never_moves_back never_throws initial
           [chunk_at 0 1; chunk_at 5 (1 # 2)] eq_refl).
  repeat constructor; discriminate.
Defined.

(** X7.  In every execution, when the handler of a message that carries
    both audio and the interruption flag resumes after the decode, it
    starts the chunk and then stops it along with everything else: nothing
    is left playing or scheduled, and the cursor is back at 0. *)
Theorem interrupted_chunk_is_stopped_at_once
  (stop_throws : BufferSource -> bool) (evs : list Event) (i : nat)
  (pd : PendingDecode) (duration currentTime : Q) :
  let w := run stop_throws evs initial in
  nth_error (pendingDecodes w) i = Some pd ->
  pd_interrupted pd = true ->
  let w' := step stop_throws (EvDecoded i duration currentTime) w in
  let new := {| src_id := nextSourceId w;
                src_start := catch_up (nextStartTimeRef w) currentTime;
                src_duration := duration |} in
  trace w' = trace w ++ start_call new
                        :: map (stop_source stop_throws)
                               (scheduledSourcesRef w ++ [new])
  /\ playing (trace w') = []
  /\ scheduledSourcesRef w' = []
  /\ nextStartTimeRef w' = 0%Q.
Proof.
  cbv zeta. intros Hn Hi.
  pose proof (InterruptionFacts.tracked_run stop_throws evs
                InterruptionFacts.tracked_initial) as T.
  set (w := run stop_throws evs initial) in *.
  assert (T' : tracked (step stop_throws (EvDecoded i duration currentTime) w))
    by now apply InterruptionFacts.tracked_step.
  revert T'. cbn [step]. rewrite Hn. unfold onmessage_resume. rewrite Hi.
  clearbody w. destruct w. cbn -[playing catch_up]. intros T'.
  repeat split.
  - now rewrite <- app_assoc.
  - unfold tracked in T'. cbn -[playing catch_up] in T'.
    destruct (playing _) as [|x l]; [reflexivity|].
    destruct (T' x (or_introl eq_refl)).
Qed.

Lemma interrupted_chunk_is_stopped_at_once_witness :
  let evs := [EvConnect granted; EvOpen;
              EvMessage (AudioChunk "QUJD"); EvDecoded 0 1 0;
              EvMessage (InterruptedChunk "QUJD")] in
  let w' := step never_throws (EvDecoded 0 1 (1 # 2))
              (run never_throws evs initial) in
  playing (trace w') = [] /\ scheduledSourcesRef w' = []
  /\ nextStartTimeRef w' = 0%Q.
Proof.
  cbv zeta.
  destruct (@interrupted_chunk_is_stopped_at_once never_throws
              [EvConnect granted; EvOpen;
               EvMessage (AudioChunk "QUJD"); EvDecoded 0 1 0;
               EvMessage (InterruptedChunk "QUJD")]
              0 {| pd_bytes := [x41; x42; x43]; pd_interrupted := true |}
              1 (1 # 2) eq_refl eq_refl) as (_ & A & B & C).
  repeat split; assumption.
Defined.

Module TeardownFacts.

(** [disconnect] and [connect] read and write nothing of the playback
    scheduler. *)
Lemma disconnect_playback (w : World) :
  nextStartTimeRef (disconnect w) = nextStartTimeRef w
  /\ scheduledSourcesRef (disconnect w) = scheduledSourcesRef w
  /\ pendingDecodes (disconnect w) = pendingDecodes w
  /\ nextSourceId (disconnect w) = nextSourceId w.
Proof.
  destruct w as [conn muted lg ictx octx stream proc src next srcs sess
                 pend nid tr].
  destruct stream, src, proc, ictx, octx, sess as [[[] ds sm]|];
    repeat split.
Qed.

Lemma connect_playback (env : ConnectEnv) (w : World) :
  nextStartTimeRef (connect env w) = nextStartTimeRef w
  /\ scheduledSourcesRef (connect env w) = scheduledSourcesRef w
  /\ pendingDecodes (connect env w) = pendingDecodes w
  /\ nextSourceId (connect env w) = nextSourceId w.
Proof.
  destruct env as [[[|c key]|] [mic|]], w; repeat split.
Qed.

End TeardownFacts.

(** X8.  [disconnect] makes no [stop()] call and leaves the playback
    scheduler as it is: the cursor, the scheduled-source set and the
    pending decodes survive it, and the [connect] that follows.  So the
    first chunk of the next session, scheduled while the output clock has
    not yet reached the cursor of the session before, starts at that old
    cursor. *)
Theorem disconnect_keeps_the_playback_cursor
  (stop_throws : BufferSource -> bool) (env : ConnectEnv) (w : World)
  (pd : PendingDecode) (duration currentTime : Q) :
  (currentTime <= nextStartTimeRef w)%Q ->
  let w1 := disconnect w in
  let w2 := connect env w1 in
  quiet w w1
  /\ nextStartTimeRef w2 = nextStartTimeRef w
  /\ scheduledSourcesRef w2 = scheduledSourcesRef w
  /\ pendingDecodes w2 = pendingDecodes w
  /\ exists rest,
       trace (onmessage_resume stop_throws pd duration currentTime w2)
       = trace w2
         ++ ESourceStart (nextSourceId w) (nextStartTimeRef w) :: rest.
Proof.
  intros H. cbv zeta.
  destruct (TeardownFacts.disconnect_playback w) as (D1 & D2 & D3 & D4).
  destruct (TeardownFacts.connect_playback env (disconnect w))
    as (C1 & C2 & C3 & C4).
  rewrite D1 in C1. rewrite D2 in C2. rewrite D3 in C3. rewrite D4 in C4.
  split; [apply InterruptionFacts.quiet_disconnect,
            InterruptionFacts.quiet_refl|].
  split; [exact C1|]. split; [exact C2|]. split; [exact C3|].
  generalize dependent (connect env (disconnect w)). intros w2 C1 C2 C3 C4.
  unfold onmessage_resume. cbv zeta.
  rewrite C1, C4, (PlaybackFacts.catch_up_on_time H).
  destruct w2, (pd_interrupted pd); cbn; eexists; rewrite <- ?app_assoc;
    reflexivity.
Qed.

Lemma disconnect_keeps_the_playback_cursor_witness :
  let w := run never_throws
             [EvConnect granted; EvOpen;
              EvMessage (AudioChunk "QUJD"); EvDecoded 0 30 0]
             initial in
  let w2 := connect granted (disconnect w) in
  nextStartTimeRef w2 = (0 + 30)%Q
  /\ exists rest,
       trace (onmessage_resume never_throws
                {| pd_bytes := []; pd_interrupted := false |} 1 0 w2)
       = trace w2 ++ ESourceStart 1 (0 + 30)%Q :: rest.
Proof.
  cbv zeta.
  destruct (@disconnect_keeps_the_playback_cursor never_throws granted
              (run never_throws
                 [EvConnect granted; EvOpen;
                  EvMessage (AudioChunk "QUJD"); EvDecoded 0 30 0]
                 initial)
              {| pd_bytes := []; pd_interrupted := false |} 1 0)
    as (_ & A & _ & _ & B).
  - discriminate.
  - split; [exact A | exact B].
Defined.

(** X9.  [onclose] does exactly what [disconnect] does, and [onerror]
    what [disconnect] does after one [console.error]: the same calls, the
    same state.  So, from any state, they leave the controller in
    Disconnected, the objects that the refs held released, the mute flag
    off and the log empty: the entry they have just logged is wiped by the
    [disconnect] they call, and is never shown. *)
Theorem session_end_tears_everything_down (w : World) :
  onclose w = disconnect w
  /\ onerror w = disconnect (emit EConsoleError w)
  /\ (Disconnected (onclose w) /\ released_from w (onclose w)
      /\ isMuted (onclose w) = false /\ logs (onclose w) = [])
  /\ (Disconnected (onerror w) /\ released_from w (onerror w)
      /\ isMuted (onerror w) = false /\ logs (onerror w) = []).
Proof.
  assert (C : onclose w = disconnect w).
  { unfold onclose.
    destruct w as [conn muted lg ictx octx stream proc src next srcs sess
                   pend nid tr].
    destruct stream, src, proc, ictx, octx, sess as [[[] ds sm]|];
      reflexivity. }
  assert (E : onerror w = disconnect (emit EConsoleError w)).
  { unfold onerror.
    destruct w as [conn muted lg ictx octx stream proc src next srcs sess
                   pend nid tr].
    destruct stream, src, proc, ictx, octx, sess as [[[] ds sm]|];
      reflexivity. }
  split; [exact C|]. split; [exact E|]. rewrite C, E.
  destruct (LifecycleFacts.disconnect_once w)
    as (A1 & _ & _ & _ & A2 & A3 & _).
  destruct (LifecycleFacts.disconnect_once (emit EConsoleError w))
    as (B1 & _ & _ & _ & B2 & B3 & _).
  split.
  - repeat split; try assumption;
      apply LifecycleFacts.disconnect_releases_refs.
  - repeat split; try assumption;
      apply (LifecycleFacts.disconnect_releases_refs (emit EConsoleError w)).
Qed.

Module OverwriteFacts.

Lemma track_stops_kept (ts : list MediaStreamTrack) :
  filter is_track_stop (map (fun t => ETrackStop (track_id t)) ts)
  = map (fun t => ETrackStop (track_id t)) ts.
Proof. induction ts as [|t ts IH]; [reflexivity|]. cbn. now rewrite IH. Qed.

Lemma track_stops_close_no_context (ts : list MediaStreamTrack) :
  filter is_context_close (map (fun t => ETrackStop (track_id t)) ts) = [].
Proof. induction ts as [|t ts IH]; [reflexivity | exact IH]. Qed.

End OverwriteFacts.

(** X29.  [connect] puts two fresh contexts and the stream it is granted
    into the refs and releases nothing: none of its calls is a release.
    The [disconnect] that follows stops the tracks of that new stream and
    closes one input and one output context, and makes no other such call,
    whatever the refs held before.  So a stream with a live track or an
    open context that was in a ref when [connect] was called (after a
    [connect] whose session has not opened yet, or one that was denied the
    microphone) is released by neither of them. *)
Theorem connect_overwrites_without_releasing
  (env : ConnectEnv) (w : World) (key : string) (mic : MediaStream) :
  env_apiKey env = Some key -> key <> ""%string ->
  env_microphone env = Some mic ->
  let w1 := connect env w in
  let w2 := disconnect w1 in
  (exists es, trace w1 = trace w ++ es /\ release_order es = [])
  /\ streamRef w1 = Some mic
  /\ inputContextRef w1
     = Some {| ctx_sampleRate := 16000; ctx_closed := false |}
  /\ outputContextRef w1
     = Some {| ctx_sampleRate := 24000; ctx_closed := false |}
  /\ exists es, trace w2 = trace w ++ es
       /\ filter is_track_stop es
          = map (fun t => ETrackStop (track_id t)) (stream_tracks mic)
       /\ filter is_context_close es
          = [EContextClose InputContext; EContextClose OutputContext].
Proof.
  intros Hkey Hne Hmic. cbv zeta.
  destruct env as [k m]. cbn [env_apiKey env_microphone] in Hkey, Hmic.
  subst k m. destruct key as [|c key]; [contradiction|]. clear Hne.
  destruct mic as [ts].
  destruct w as [conn muted lg ictx octx stream proc src next srcs sess
                 pend nid tr].
  destruct src as [src|], proc as [proc|];
    cbv -[app map filter is_track_stop is_context_close track_id];
    (split; [eexists; split; [rewrite <- ?app_assoc; reflexivity
                             | reflexivity]|]);
    (split; [reflexivity|]); (split; [reflexivity|]);
    (split; [reflexivity|]);
    eexists; (split; [rewrite <- ?app_assoc; reflexivity|]);
    cbn [app filter is_track_stop is_context_close];
    rewrite ?filter_app, ?OverwriteFacts.track_stops_kept,
      ?OverwriteFacts.track_stops_close_no_context;
    cbn [app filter is_track_stop is_context_close];
    rewrite ?app_nil_r; split; reflexivity.
Qed.

Lemma connect_overwrites_without_releasing_witness :
  let w := connect granted initial in
  let w2 := disconnect (connect granted_again w) in
  tracks_ended (streamRef w) = false
  /\ context_released (inputContextRef w) = false
  /\ output_released w = false
  /\ exists es, trace w2 = trace w ++ es
       /\ filter is_track_stop es = [ETrackStop 1]
       /\ filter is_context_close es
          = [EContextClose InputContext; EContextClose OutputContext].
Proof.
  cbv zeta. split; [reflexivity|]. split; [reflexivity|].
  split; [reflexivity|].
  pose proof (@connect_overwrites_without_releasing granted_again
                (connect granted initial) "key"%string second_microphone
                eq_refl) as P.
  cbv zeta in P. apply P; [discriminate | reflexivity].
Defined.
(* ================================================================== *)
(** ** The encoder on the wire *)
(* ================================================================== *)

Module EncoderFacts.

Local Open Scope Z_scope.

Lemma Qtrunc_floor (q : Q) : (0 <= q)%Q -> Qtrunc q = Qfloor q.
Proof.
  destruct q as [n d]. unfold Qle, Qtrunc, Qfloor. cbn [Qnum Qden].
  intros H. apply Z.quot_div_nonneg; lia.
Qed.

Lemma Qtrunc_ceiling (q : Q) : (q <= 0)%Q -> Qtrunc q = Qceiling q.
Proof.
  destruct q as [n d]. unfold Qle, Qtrunc, Qceiling, Qfloor, Qopp.
  cbn [Qnum Qden]. intros H.
  replace (Z.quot n (Zpos d)) with (- Z.quot (- n) (Zpos d))
    by (rewrite Z.quot_opp_l by lia; apply Z.opp_involutive).
  rewrite Z.quot_div_nonneg by lia. reflexivity.
Qed.

Lemma Qtrunc_le (p q : Q) : (p <= q)%Q -> Qtrunc p <= Qtrunc q.
Proof.
  intros H. destruct (Qlt_le_dec p 0) as [Hp|Hp], (Qlt_le_dec q 0) as [Hq|Hq].
  - rewrite !Qtrunc_ceiling by now apply Qlt_le_weak.
    now apply Qceiling_resp_le.
  - rewrite (Qtrunc_ceiling (Qlt_le_weak _ _ Hp)), (Qtrunc_floor Hq).
    transitivity 0.
    + change 0 with (Qceiling 0). apply Qceiling_resp_le.
      now apply Qlt_le_weak.
    + change 0 with (Qfloor 0). now apply Qfloor_resp_le.
  - exfalso. apply (Qlt_irrefl 0).
    apply Qle_lt_trans with q; [|assumption].
    now apply Qle_trans with p.
  - rewrite !Qtrunc_floor by (try assumption; now apply Qle_trans with p).
    now apply Qfloor_resp_le.
Qed.

Lemma clamp_sample_le (s t : Q) :
  (s <= t)%Q -> (clamp_sample s <= clamp_sample t)%Q.
Proof.
  intros H. unfold clamp_sample.
  apply Q.max_le_compat_l, Q.min_le_compat_l, H.
Qed.

Lemma scale_sample_le (c c' : Q) :
  (c <= c')%Q -> (scale_sample c <= scale_sample c')%Q.
Proof.
  intros H. unfold scale_sample.
  destruct (Qle_bool 0 c) eqn:E, (Qle_bool 0 c') eqn:E'.
  - lra.
  - apply Qle_bool_iff in E.
    assert (~ (0 <= c')%Q) by (rewrite <- Qle_bool_iff; congruence). lra.
  - apply Qle_bool_iff in E'.
    assert (~ (0 <= c)%Q) by (rewrite <- Qle_bool_iff; congruence). lra.
  - lra.
Qed.

End EncoderFacts.

(** X10.  The PCM encoder keeps the order of samples: a louder sample
    never gets a smaller 16-bit value. *)
Theorem float32ToPCM16_is_monotone (s t : Q) :
  (s <= t)%Q -> (pcm16_of_sample s <= pcm16_of_sample t)%Z.
Proof.
  intros H.
  destruct (PcmFacts.pcm16_no_wrap s) as [-> _].
  destruct (PcmFacts.pcm16_no_wrap t) as [-> _].
  now apply EncoderFacts.Qtrunc_le, EncoderFacts.scale_sample_le,
    EncoderFacts.clamp_sample_le.
Qed.

Lemma float32ToPCM16_is_monotone_witness :
  (- (1 # 3) <= 1 # 4)%Q
  /\ (pcm16_of_sample (- (1 # 3)) <= pcm16_of_sample (1 # 4))%Z.
Proof.
  split; [discriminate|]. apply float32ToPCM16_is_monotone. discriminate.
Defined.

Module WireFacts.

Local Open Scope N_scope.

Lemma decode_encode (b : list byte) :
  base64ToUint8Array (arrayBufferToBase64 b) = Some b.
Proof.
  induction b as [ | a | a b | a b c rest IH] using Base64Facts.list_ind3.
  - reflexivity.
  - apply Base64Facts.decode_one.
  - apply Base64Facts.decode_two.
  - rewrite Base64Facts.decode_three, IH. reflexivity.
Qed.

Lemma encoded_length (b : list byte) :
  String.length (arrayBufferToBase64 b)
  = (4 * ((List.length b + 2) / 3))%nat.
Proof.
  induction b as [ | a | a b | a b c rest IH] using Base64Facts.list_ind3;
    try reflexivity.
  cbn [arrayBufferToBase64 String.length List.length]. rewrite IH.
  replace (S (S (S (List.length rest))) + 2)%nat
    with (List.length rest + 2 + 1 * 3)%nat by lia.
  rewrite Nat.div_add by lia. lia.
Qed.

Lemma byte_of_Z_value (z : Z) :
  Z.of_N (Byte.to_N (byte_of_Z z)) = (z mod 256)%Z.
Proof.
  unfold byte_of_Z.
  assert (H : (0 <= z mod 256 < 256)%Z) by (apply Z.mod_pos_bound; lia).
  destruct (Byte.of_N (Z.to_N (z mod 256))) as [b|] eqn:E.
  - apply Byte.to_of_N in E. rewrite E. lia.
  - apply Byte.of_N_None_iff in E. lia.
Qed.

(** The two bytes of an element read back, low byte first, as the
    element. *)
Lemma int16_bytes_value (z : Z) :
  (-32768 <= z <= 32767)%Z ->
  exists lo hi,
    int16_bytes z = [lo; hi]
    /\ to_int16 (Z.of_N (Byte.to_N lo) + 256 * Z.of_N (Byte.to_N hi)) = z.
Proof.
  intros H. unfold int16_bytes. cbv zeta. eexists. eexists.
  split; [reflexivity|]. rewrite !byte_of_Z_value. unfold to_int16. lia.
Qed.

Lemma int16_buffer_pair (pcm : list Z) (k : nat) (z : Z) :
  nth_error pcm k = Some z ->
  exists lo hi,
    int16_bytes z = [lo; hi]
    /\ nth_error (int16_buffer pcm) (2 * k) = Some lo
    /\ nth_error (int16_buffer pcm) (2 * k + 1) = Some hi.
Proof.
  revert k. induction pcm as [|x pcm IH]; intros k H.
  - destruct k; discriminate.
  - destruct k as [|k].
    + cbn in H. injection H as ->. eexists. eexists.
      split; [reflexivity|]. split; reflexivity.
    + cbn [nth_error] in H. destruct (IH k H) as (lo & hi & E & A & B).
      exists lo, hi. split; [exact E|].
      replace (2 * S k)%nat with (S (S (2 * k))) by lia.
      replace (S (S (2 * k)) + 1)%nat with (S (S (2 * k + 1))) by lia.
      split; [exact A | exact B].
Qed.

Lemma int16_buffer_length (pcm : list Z) :
  List.length (int16_buffer pcm) = (2 * List.length pcm)%nat.
Proof.
  induction pcm as [|x pcm IH]; [reflexivity|].
  cbn [int16_buffer flat_map int16_bytes app List.length] in *.
  fold (int16_buffer pcm). lia.
Qed.

End WireFacts.

(** X11.  What [onaudioprocess] sends for a frame is PCM16 little-endian
    in base64: the text decodes to two bytes per sample, and the pair of
    bytes of a sample, low byte first, read as a two's-complement 16-bit
    number, is the 16-bit value of that sample. *)
Theorem frame_payload_is_pcm16le (inputData : list Q) :
  exists bytes,
    base64ToUint8Array (frame_payload inputData) = Some bytes
    /\ List.length bytes = (2 * List.length inputData)%nat
    /\ forall k s, nth_error inputData k = Some s ->
         exists lo hi,
           nth_error bytes (2 * k) = Some lo
           /\ nth_error bytes (2 * k + 1) = Some hi
           /\ to_int16 (Z.of_N (Byte.to_N lo) + 256 * Z.of_N (Byte.to_N hi))
              = pcm16_of_sample s.
Proof.
  exists (int16_buffer (float32ToPCM16 inputData)). split; [|split].
  - apply WireFacts.decode_encode.
  - rewrite WireFacts.int16_buffer_length. unfold float32ToPCM16.
    now rewrite length_map.
  - intros k s H.
    assert (G : nth_error (float32ToPCM16 inputData) k
                = Some (pcm16_of_sample s)).
    { unfold float32ToPCM16. rewrite nth_error_map, H. reflexivity. }
    destruct (WireFacts.int16_buffer_pair _ _ G) as (lo & hi & E & A & B).
    exists lo, hi. split; [exact A|]. split; [exact B|].
    destruct (WireFacts.int16_bytes_value
                (proj2 (PcmFacts.pcm16_no_wrap s)))
      as (lo' & hi' & E' & V).
    rewrite E in E'. injection E' as <- <-. exact V.
Qed.

Lemma frame_payload_is_pcm16le_witness :
  exists lo hi,
    base64ToUint8Array (frame_payload [0; -2]%Q) = Some [x00; x00; lo; hi]
    /\ to_int16 (Z.of_N (Byte.to_N lo) + 256 * Z.of_N (Byte.to_N hi))
       = (-32768)%Z.
Proof.
  destruct (frame_payload_is_pcm16le [0; -2]%Q) as (bytes & D & _ & P).
  destruct (P 1%nat (-2)%Q eq_refl) as (lo & hi & A & B & V).
  exists lo, hi. split.
  - rewrite D in *. vm_compute in D. injection D as <-.
    cbn in A, B. injection A as <-. injection B as <-. reflexivity.
  - exact V.
Defined.

(** X12.  A frame of [n] samples is sent as a text of [4 * ceil(2n / 3)]
    characters. *)
Theorem frame_payload_length (inputData : list Q) :
  String.length (frame_payload inputData)
  = (4 * ((2 * List.length inputData + 2) / 3))%nat.
Proof.
  unfold frame_payload.
  rewrite WireFacts.encoded_length, WireFacts.int16_buffer_length.
  unfold float32ToPCM16. now rewrite length_map.
Qed.

(* ================================================================== *)
(** ** geminiService: the rate limiter and the input checks *)
(* ================================================================== *)

Import GeminiService.

Module RateLimitFacts.

Local Open Scope Z_scope.

Lemma map_get_set_same (key : string) (e : RateEntry) (m : RateLimitMap) :
  map_get key (map_set key e m) = Some e.
Proof.
  induction m as [|[k e'] m IH]; cbn [map_set map_get].
  - now rewrite String.eqb_refl.
  - destruct (String.eqb k key) eqn:E; cbn [map_get]; now rewrite E.
Qed.

Lemma map_get_set_other (key other : string) (e : RateEntry)
  (m : RateLimitMap) :
  key <> other -> map_get other (map_set key e m) = map_get other m.
Proof.
  intros N. induction m as [|[k e'] m IH]; cbn [map_set map_get].
  - destruct (String.eqb key other) eqn:E; [|reflexivity].
    apply String.eqb_eq in E. contradiction.
  - destruct (String.eqb k key) eqn:E; cbn [map_get].
    + apply String.eqb_eq in E. subst k.
      destruct (String.eqb key other) eqn:E'; [|reflexivity].
      apply String.eqb_eq in E'. contradiction.
    + now rewrite IH.
Qed.

Lemma map_set_in_range (key : string) (e : RateEntry) (m : RateLimitMap) :
  1 <= count e <= RATE_LIMIT -> counts_in_range m ->
  counts_in_range (map_set key e m).
Proof.
  intros He. unfold counts_in_range.
  induction m as [|[k e'] m IH]; intros F; cbn [map_set].
  - constructor; [exact He | constructor].
  - inversion F as [|x l Hx Hl]; subst.
    destruct (String.eqb k key); constructor; auto.
Qed.

Lemma map_get_in_range (key : string) (e : RateEntry) (m : RateLimitMap) :
  counts_in_range m -> map_get key m = Some e -> 1 <= count e <= RATE_LIMIT.
Proof.
  unfold counts_in_range. induction m as [|[k e'] m IH]; intros F H.
  - discriminate.
  - inversion F as [|x l Hx Hl]; subst. cbn [map_get] in H.
    destruct (String.eqb k key); [injection H as <-; exact Hx | now apply IH].
Qed.

Lemma checkRateLimit_in_range (action : string) (now : Z)
  (m m' : RateLimitMap) :
  counts_in_range m -> checkRateLimit action now m = Ok m' ->
  counts_in_range m'.
Proof.
  intros F. unfold checkRateLimit.
  destruct (map_get action m) as [e|] eqn:G.
  - pose proof (map_get_in_range _ F G) as R. unfold RATE_LIMIT in *.
    destruct (now >? resetTime e).
    + intros [= <-]. apply map_set_in_range; [cbn; unfold RATE_LIMIT; lia|exact F].
    + destruct (Z.geb_spec (count e) 30) as [C|C]; [discriminate|].
      intros [= <-]. apply map_set_in_range; [|exact F].
      cbn [count]. unfold RATE_LIMIT. lia.
  - intros [= <-]. apply map_set_in_range; [cbn; unfold RATE_LIMIT; lia|exact F].
Qed.

(** Inside the window of an entry that has counted [c] calls, the call
    number [k] from now is let through exactly when [c + k < 30]. *)
Lemma attempts_in_window (action : string) (times : list Z)
  (m : RateLimitMap) (e : RateEntry) :
  map_get action m = Some e -> 0 <= count e ->
  Forall (fun now => now <= resetTime e) times ->
  fst (attempts action times m)
  = map (fun k => count e + Z.of_nat k <? RATE_LIMIT)
        (seq 0 (List.length times)).
Proof.
  revert m e. induction times as [|now rest IH]; intros m e G C F.
  - reflexivity.
  - inversion F as [|x l Hnow Hrest]; subst.
    cbn [attempts List.length seq map]. unfold checkRateLimit. rewrite G.
    destruct (Z.gtb_spec now (resetTime e)) as [Hgt|_]; [lia|].
    rewrite <- seq_shift, map_map. unfold RATE_LIMIT in *.
    destruct (Z.geb_spec (count e) 30) as [L|L].
    + specialize (IH m e G C Hrest).
      destruct (attempts action rest m) as [outcomes final].
      cbn [fst] in *. rewrite IH. f_equal.
      * symmetry. apply Z.ltb_ge. lia.
      * apply map_ext. intros k.
        transitivity false; [apply Z.ltb_ge | symmetry; apply Z.ltb_ge]; lia.
    + set (e' := {| count := count e + 1; resetTime := resetTime e |}).
      specialize (IH (map_set action e' m) e' (map_get_set_same _ _ _)).
      cbn [count resetTime e'] in IH.
      specialize (IH ltac:(lia) Hrest).
      destruct (attempts action rest (map_set action e' m))
        as [outcomes final].
      cbn [fst] in *. rewrite IH. f_equal.
      * symmetry. apply Z.ltb_lt. lia.
      * apply map_ext. intros k. f_equal. lia.
Qed.

End RateLimitFacts.

(** X13.  Once an action has no entry, or its window is over, the call
    that starts a new window and the calls that follow within it (none
    later than [RATE_WINDOW] after the first) are let through up to the
    thirtieth, and every further one is refused. *)
Theorem rate_limit_lets_thirty_through
  (action : string) (first : Z) (later : list Z) (m : RateLimitMap) :
  match map_get action m with
  | Some e => (resetTime e < first)%Z
  | None => True
  end ->
  Forall (fun now => (now <= first + RATE_WINDOW)%Z) later ->
  fst (attempts action (first :: later) m)
  = map (fun k => Nat.ltb k 30) (seq 0 (S (List.length later))).
Proof.
  intros Hm F.
  set (e := {| count := 1; resetTime := (first + RATE_WINDOW)%Z |}).
  assert (E : checkRateLimit action first m = Ok (map_set action e m)).
  { unfold checkRateLimit. destruct (map_get action m) as [e0|]; [|reflexivity].
    destruct (Z.gtb_spec first (resetTime e0)); [reflexivity | lia]. }
  cbn [attempts]. rewrite E.
  pose proof (@RateLimitFacts.attempts_in_window action later
                (map_set action e m) e
                (RateLimitFacts.map_get_set_same _ _ _)) as W.
  cbn [count resetTime e] in W. specialize (W ltac:(lia) F).
  destruct (attempts action later (map_set action e m)) as [outcomes final].
  cbn [fst] in *. rewrite W. cbn [seq map]. f_equal.
  rewrite <- seq_shift, map_map. apply map_ext. intros k.
  unfold RATE_LIMIT. destruct (Nat.ltb_spec (S k) 30); lia.
Qed.

Lemma rate_limit_lets_thirty_through_witness :
  fst (attempts "chat" (1000%Z :: repeat 2000%Z 31) [])
  = repeat true 30 ++ [false; false].
Proof.
  rewrite (@rate_limit_lets_thirty_through "chat" 1000%Z (repeat 2000%Z 31)
             []).
  - reflexivity.
  - exact I.
  - apply Forall_forall. intros x Hx. apply repeat_spec in Hx. subst x.
    unfold RATE_WINDOW. lia.
Defined.

(** X14.  Whatever calls are made, for whatever actions and at whatever
    times, every entry of the map counts between 1 and [RATE_LIMIT]
    calls. *)
Theorem rate_counts_stay_in_range (calls : list (string * Z)) :
  counts_in_range (requests calls []).
Proof.
  assert (G : forall m, counts_in_range m -> counts_in_range (requests calls m)).
  { induction calls as [|[action now] rest IH]; intros m F; [exact F|].
    cbn [requests].
    destruct (checkRateLimit action now m) as [m'|msg] eqn:E.
    - apply IH. exact (RateLimitFacts.checkRateLimit_in_range _ _ F E).
    - now apply IH. }
  apply G. constructor.
Qed.

(** X15.  Actions are limited apart from one another: a call for one
    action never changes the entry of another. *)
Theorem rate_limit_is_per_action
  (action other : string) (now : Z) (m m' : RateLimitMap) :
  action <> other -> checkRateLimit action now m = Ok m' ->
  map_get other m' = map_get other m.
Proof.
  intros N. unfold checkRateLimit.
  destruct (map_get action m) as [e|].
  - destruct (now >? resetTime e)%Z.
    + intros [= <-]. now apply RateLimitFacts.map_get_set_other.
    + destruct (count e >=? RATE_LIMIT)%Z; [discriminate|].
      intros [= <-]. now apply RateLimitFacts.map_get_set_other.
  - intros [= <-]. now apply RateLimitFacts.map_get_set_other.
Qed.

Lemma rate_limit_is_per_action_witness :
  exists m', checkRateLimit "chat" 5%Z (requests [("analyze"%string, 1%Z)] [])
             = Ok m'
             /\ map_get "analyze" m'
                = map_get "analyze" (requests [("analyze"%string, 1%Z)] []).
Proof.
  eexists. split; [reflexivity|].
  apply (@rate_limit_is_per_action "chat" "analyze" 5%Z
           (requests [("analyze"%string, 1%Z)] [])).
  - discriminate.
  - reflexivity.
Defined.

(** X16.  [validateAudioBlob] accepts a blob exactly when it is not empty,
    holds at most 25 MB, and its type is empty or starts with [audio]:
    the list of allowed types only ever contributes that prefix. *)
Theorem validateAudioBlob_accepts (b : Blob) :
  validateAudioBlob (Some b) = Ok tt
  <-> (blob_size b <> 0%N /\ (blob_size b <= MAX_AUDIO_SIZE)%N
       /\ (blob_type b = ""%string
           \/ startsWith (blob_type b) "audio" = true)).
Proof.
  unfold validateAudioBlob.
  assert (A : existsb (fun t => startsWith (blob_type b) (split_head t))
                      ALLOWED_TYPES
              = startsWith (blob_type b) "audio").
  { cbn [ALLOWED_TYPES existsb].
    change (split_head "audio/webm") with "audio"%string.
    change (split_head "audio/mp3") with "audio"%string.
    change (split_head "audio/wav") with "audio"%string.
    change (split_head "audio/ogg") with "audio"%string.
    change (split_head "audio/mpeg") with "audio"%string.
    destruct (startsWith (blob_type b) "audio"); reflexivity. }
  rewrite A.
  destruct (N.ltb_spec MAX_AUDIO_SIZE (blob_size b)) as [L|L].
  - split; [discriminate | intros (_ & H & _); lia].
  - destruct (N.eqb_spec (blob_size b) 0) as [Z|Z].
    + split; [discriminate | intros (H & _); contradiction].
    + destruct (String.eqb_spec (blob_type b) "") as [T|T]; cbn [negb andb].
      * split; [intros _; repeat split; auto | reflexivity].
      * destruct (startsWith (blob_type b) "audio"); cbn [negb].
        -- split; [intros _; repeat split; auto | reflexivity].
        -- split; [discriminate|].
           intros (_ & _ & [H|H]); [contradiction | discriminate].
Qed.

Lemma validateAudioBlob_accepts_witness :
  validateAudioBlob
    (Some {| blob_size := 10; blob_type := "audiobook/pdf" |}) = Ok tt.
Proof.
  apply validateAudioBlob_accepts. cbn [blob_size blob_type].
  split; [discriminate|]. split; [discriminate|]. right. reflexivity.
Defined.

Module SanitizeFacts.

Lemma trimStart_incl (s : jsstring) : incl (trimStart s) s.
Proof.
  induction s as [|c s IH]; [apply incl_refl|]. cbn [trimStart].
  destruct (is_white_space c); [now apply incl_tl | apply incl_refl].
Qed.

Lemma trim_incl (s : jsstring) : incl (trim s) s.
Proof.
  unfold trim, trimEnd. intros x H. apply trimStart_incl.
  apply in_rev in H. apply trimStart_incl in H. now apply in_rev in H.
Qed.

Lemma firstn_incl (n : nat) (s : jsstring) : incl (firstn n s) s.
Proof.
  revert n. induction s as [|c s IH]; intros n.
  - rewrite firstn_nil. apply incl_refl.
  - destruct n as [|n]; cbn [firstn]; [intros x []|].
    intros x [<-|H]; [now left | right; now apply (IH n)].
Qed.

Lemma filter_clean (s : jsstring) :
  forallb (fun c => negb (is_control c)) s = true ->
  filter (fun c => negb (is_control c)) s = s.
Proof.
  induction s as [|c s IH]; [reflexivity|]. cbn [forallb filter].
  intros H. apply andb_prop in H. destruct H as [Hc Hs].
  rewrite Hc. f_equal. now apply IH.
Qed.

Lemma sanitized_length (text r : jsstring) (maxLength : nat) :
  sanitizeTextInput text maxLength = Ok r -> (List.length r <= maxLength)%nat.
Proof.
  destruct text as [|c text]; [discriminate|].
  cbn [sanitizeTextInput]. cbv zeta. intros [= <-].
  eapply Nat.le_trans; [apply filter_length_le | apply firstn_le_length].
Qed.

End SanitizeFacts.

(** X17.  What [sanitizeTextInput] returns is at most [maxLength] code
    units long, holds none of the control characters of its class, and is
    made of code units of the text; the empty text, and only the empty
    text, is refused. *)
Theorem sanitizeTextInput_is_bounded_and_clean
  (text : jsstring) (maxLength : nat) :
  (text = [] <->
   sanitizeTextInput text maxLength
   = Throw "INVALID_INPUT: Text input is required")
  /\ forall r, sanitizeTextInput text maxLength = Ok r ->
       (List.length r <= maxLength)%nat
       /\ Forall (fun c => is_control c = false) r
       /\ incl r text.
Proof.
  split.
  - destruct text; cbn; split; congruence.
  - intros r H. destruct text as [|c text]; [discriminate|].
    cbn [sanitizeTextInput] in H. cbv zeta in H. injection H as <-.
    split; [|split].
    + eapply Nat.le_trans; [apply filter_length_le | apply firstn_le_length].
    + apply Forall_forall. intros x Hx. apply filter_In in Hx.
      now apply negb_true_iff.
    + intros x Hx. apply filter_In in Hx. destruct Hx as [Hx _].
      apply SanitizeFacts.trim_incl. eapply SanitizeFacts.firstn_incl, Hx.
Qed.

Lemma sanitizeTextInput_is_bounded_and_clean_witness :
  sanitizeTextInput [32; 72; 0; 105; 10; 33; 9]%N 3 = Ok [72; 105]%N
  /\ (List.length [72; 105]%N <= 3)%nat.
Proof.
  split; [reflexivity|].
  destruct (sanitizeTextInput_is_bounded_and_clean
              [32; 72; 0; 105; 10; 33; 9]%N 3) as [_ H].
  apply (H [72; 105]%N eq_refl).
Defined.

(** X18.  A text that is not empty, has no white space at either end, no
    control character and at most [maxLength] code units comes back from
    [sanitizeTextInput] as it is; tabs and line breaks inside it are
    kept. *)
Theorem sanitizeTextInput_keeps_clean_text
  (text : jsstring) (maxLength : nat) :
  text <> [] -> is_clean text -> (List.length text <= maxLength)%nat ->
  sanitizeTextInput text maxLength = Ok text.
Proof.
  intros N [T C] L. destruct text as [|c text]; [contradiction|].
  cbn [sanitizeTextInput]. cbv zeta. rewrite T.
  rewrite firstn_all2 by exact L.
  now rewrite SanitizeFacts.filter_clean.
Qed.

Lemma sanitizeTextInput_keeps_clean_text_witness :
  sanitizeTextInput [72; 9; 105; 10; 33]%N 5 = Ok [72; 9; 105; 10; 33]%N.
Proof.
  apply sanitizeTextInput_keeps_clean_text.
  - discriminate.
  - split; reflexivity.
  - cbn. lia.
Defined.

Module TranscribeFacts.

Local Open Scope Z_scope.

(** A call that is let through always changes the entry of its action. *)
Lemma counted_call_changes_entry (action : string) (now : Z)
  (m m' : RateLimitMap) :
  checkRateLimit action now m = Ok m' ->
  map_get action m' <> map_get action m.
Proof.
  unfold checkRateLimit. destruct (map_get action m) as [[c r]|] eqn:G.
  - cbn [count resetTime].
    destruct (Z.gtb_spec now r) as [L|L].
    + intros [= <-]. rewrite RateLimitFacts.map_get_set_same.
      intros [= _ E]. unfold RATE_WINDOW in E. lia.
    + destruct (c >=? RATE_LIMIT); [discriminate|].
      intros [= <-]. rewrite RateLimitFacts.map_get_set_same.
      intros [= E]. lia.
  - intros [= <-]. rewrite RateLimitFacts.map_get_set_same. discriminate.
Qed.

End TranscribeFacts.

(** X19.  [transcribeAudio] counts the call against the rate limit before
    it looks at the blob: a blob that is refused has still used up a call
    of the window, while a missing API key uses up none. *)
Theorem refused_blob_still_counts
  (apiKey : jsstring) (now : Z) (m m' : RateLimitMap)
  (audioBlob : option Blob) (msg : string) (world : ApiOutcome) :
  trim apiKey <> [] ->
  checkRateLimit "transcribe" now m = Ok m' ->
  validateAudioBlob audioBlob = Throw msg ->
  transcribeAudio apiKey now m audioBlob world = (Throw msg, m')
  /\ map_get "transcribe" m' <> map_get "transcribe" m
  /\ forall blank, trim blank = [] ->
       snd (transcribeAudio blank now m audioBlob world) = m.
Proof.
  intros K R V. unfold transcribeAudio, validateApiKey.
  destruct (trim apiKey) as [|c k] eqn:T; [contradiction|].
  rewrite R, V. split; [reflexivity|]. split.
  - exact (TranscribeFacts.counted_call_changes_entry _ _ _ R).
  - intros blank B. now rewrite B.
Qed.

Lemma refused_blob_still_counts_witness :
  exists m',
    transcribeAudio [107; 101; 121]%N 1000%Z [] None (CallResolved None)
    = (Throw "INVALID_INPUT: Audio blob is required", m')
    /\ map_get "transcribe" m' <> map_get "transcribe" [].
Proof.
  pose proof (fun m' H =>
                @refused_blob_still_counts [107; 101; 121]%N 1000%Z [] m'
                  None "INVALID_INPUT: Audio blob is required"
                  (CallResolved None) ltac:(discriminate) H eq_refl) as P.
  specialize (P _ eq_refl). destruct P as (A & B & _).
  eexists. split; [exact A | exact B].
Defined.

(** X20.  When the model answers with no text, or with the empty text,
    [transcribeAudio] does not return the empty transcript: the sanitizer
    refuses the empty text inside the [try], and the call fails with its
    [INVALID_INPUT] error. *)
Theorem empty_transcript_is_an_error
  (apiKey : jsstring) (now : Z) (m m' : RateLimitMap) (b : Blob)
  (text : option jsstring) :
  trim apiKey <> [] ->
  checkRateLimit "transcribe" now m = Ok m' ->
  validateAudioBlob (Some b) = Ok tt ->
  text = None \/ text = Some [] ->
  transcribeAudio apiKey now m (Some b) (CallResolved text)
  = (Throw "INVALID_INPUT: Text input is required", m').
Proof.
  intros K R V T. unfold transcribeAudio, validateApiKey.
  destruct (trim apiKey) as [|c k] eqn:E; [contradiction|].
  rewrite R, V. destruct T as [-> | ->]; reflexivity.
Qed.

Lemma empty_transcript_is_an_error_witness :
  fst (transcribeAudio [107; 101; 121]%N 1000%Z []
         (Some {| blob_size := 10; blob_type := "audio/webm" |})
         (CallResolved None))
  = Throw "INVALID_INPUT: Text input is required".
Proof.
  pose proof (fun m' H =>
                @empty_transcript_is_an_error [107; 101; 121]%N 1000%Z []
                  m' {| blob_size := 10; blob_type := "audio/webm" |} None
                  ltac:(discriminate) H eq_refl (or_introl eq_refl)) as P.
  specialize (P _ eq_refl). rewrite P. reflexivity.
Defined.

(** X21.  The message [handleApiError] throws is one of its own four, or
    it is the message it was given, and then that message carries one of
    the tags [INVALID_INPUT], [API_KEY] or [RATE_LIMIT]: no other message
    of the API gets through. *)
Theorem handleApiError_hides_unknown_errors (message : option string) :
  In (handleApiError message) api_error_messages
  \/ (message = Some (handleApiError message)
      /\ (includes (handleApiError message) "INVALID_INPUT"
          || includes (handleApiError message) "API_KEY"
          || includes (handleApiError message) "RATE_LIMIT") = true).
Proof.
  unfold handleApiError, api_error_messages.
  destruct message as [msg|]; [|left; cbn; tauto].
  destruct (includes msg "API key not valid"); [left; cbn; tauto|].
  destruct (includes msg "quota"); [left; cbn; tauto|].
  destruct (includes msg "rate"); [left; cbn; tauto|].
  destruct (includes msg "INVALID_INPUT" || includes msg "API_KEY"
            || includes msg "RATE_LIMIT") eqn:E.
  - right. now split.
  - left. cbn. tauto.
Qed.

Module AnalyzeFacts.

Lemma extract_one_throws {Rest} (random : jsstring) (now : string)
  (t : RawTask Rest) :
  lacks_text t = true -> exists msg, extract_one random now t = Throw msg.
Proof.
  unfold lacks_text, extract_one. intros H.
  destruct (or_else (raw_title t) []) as [|c s].
  - eexists. reflexivity.
  - destruct (or_else (raw_description t) []) as [|d s']; [|discriminate].
    cbn [sanitizeTextInput]. eexists. reflexivity.
Qed.

Lemma extract_one_ok {Rest} (random : jsstring) (now : string)
  (t : RawTask Rest) :
  lacks_text t = false ->
  exists e, extract_one random now t = Ok e
            /\ ext_rest e = raw_rest t
            /\ ext_completed e = false
            /\ (List.length (ext_title e) <= 200)%nat
            /\ (List.length (ext_description e) <= 1000)%nat.
Proof.
  unfold lacks_text, extract_one. intros H.
  destruct (or_else (raw_title t) []) as [|c s] eqn:T; [discriminate|].
  destruct (or_else (raw_description t) []) as [|d s'] eqn:D; [discriminate|].
  destruct (sanitizeTextInput (c :: s) 200) as [title|msg] eqn:E1;
    [|discriminate].
  destruct (sanitizeTextInput (d :: s') 1000) as [description|msg] eqn:E2;
    [|discriminate].
  eexists. split; [reflexivity|].
  cbn [ext_rest ext_completed ext_title ext_description].
  split; [reflexivity|]. split; [reflexivity|]. split.
  - exact (SanitizeFacts.sanitized_length _ _ E1).
  - exact (SanitizeFacts.sanitized_length _ _ E2).
Qed.

Lemma extract_all_throws {Rest} (randoms : list jsstring) (now : string)
  (tasks : list (RawTask Rest)) :
  existsb lacks_text tasks = true ->
  exists msg, extract_all randoms now tasks = Throw msg.
Proof.
  revert randoms. induction tasks as [|t tasks IH]; intros randoms H;
    [discriminate|].
  cbn [existsb] in H. cbn [extract_all].
  destruct (lacks_text t) eqn:L.
  - destruct (extract_one_throws (hd [] randoms) now t L) as [msg ->].
    now exists msg.
  - cbn [orb] in H. destruct (IH (tl randoms) H) as [msg ->].
    destruct (extract_one (hd [] randoms) now t) as [e|msg'];
      eexists; reflexivity.
Qed.

Lemma extract_all_ok {Rest} (randoms : list jsstring) (now : string)
  (tasks : list (RawTask Rest)) :
  existsb lacks_text tasks = false ->
  exists es, extract_all randoms now tasks = Ok es
             /\ map (@ext_rest Rest) es = map (@raw_rest Rest) tasks
             /\ Forall (fun e => ext_completed e = false
                                 /\ (List.length (ext_title e) <= 200)%nat
                                 /\ (List.length (ext_description e) <= 1000)%nat)
                       es.
Proof.
  revert randoms. induction tasks as [|t tasks IH]; intros randoms H.
  - exists []. repeat split. constructor.
  - cbn [existsb] in H. apply orb_false_iff in H. destruct H as [L H].
    destruct (IH (tl randoms) H) as (es & E & M & F).
    destruct (extract_one_ok (hd [] randoms) now t L)
      as (e & E1 & R & C & T & D).
    exists (e :: es). cbn [extract_all]. rewrite E1, E. split; [reflexivity|].
    split.
    + cbn [map]. now rewrite R, M.
    + constructor; [now repeat split | exact F].
Qed.

End AnalyzeFacts.

(** X28.  [analyzeTasksFromText] drops the whole answer of the model as
    soon as one task in it has a missing or empty title or description:
    the sanitizer throws inside the [try], and the function returns no
    task at all.  When every task has both, each one comes back, in order,
    not completed, with a title of at most 200 and a description of at
    most 1000 code units. *)
Theorem one_blank_task_loses_them_all
  (Rest : Type) (randoms : list jsstring) (now : string)
  (tasks : list (RawTask Rest)) :
  (existsb lacks_text tasks = true ->
   analyze_answer randoms now (Some tasks) = [])
  /\ (existsb lacks_text tasks = false ->
      let es := analyze_answer randoms now (Some tasks) in
      map (@ext_rest Rest) es = map (@raw_rest Rest) tasks
      /\ Forall (fun e => ext_completed e = false
                          /\ (List.length (ext_title e) <= 200)%nat
                          /\ (List.length (ext_description e) <= 1000)%nat)
                es).
Proof.
  unfold analyze_answer. split.
  - intros H.
    destruct (AnalyzeFacts.extract_all_throws randoms now tasks H)
      as [msg ->].
    reflexivity.
  - intros H. cbv zeta.
    destruct (AnalyzeFacts.extract_all_ok randoms now tasks H)
      as (es & -> & M & F).
    now split.
Qed.

Lemma one_blank_task_loses_them_all_witness :
  let good := {| raw_id := Some [49]%N; raw_title := Some [72; 105]%N;
                 raw_description := Some [33]%N; raw_rest := 1%nat |} in
  let blank := {| raw_id := Some [50]%N; raw_title := Some [72; 111]%N;
                  raw_description := None; raw_rest := 2%nat |} in
  analyze_answer [] "2026-01-01T00:00:00.000Z" (Some [good; blank; good]) = []
  /\ map (@ext_rest nat)
         (analyze_answer [] "2026-01-01T00:00:00.000Z" (Some [good; good]))
     = [1; 1]%nat.
Proof.
  cbv zeta. split.
  - match goal with
    | |- analyze_answer ?r ?n (Some ?ts) = _ =>
        apply (proj1 (@one_blank_task_loses_them_all _ r n ts))
    end.
    reflexivity.
  - match goal with
    | |- map _ (analyze_answer ?r ?n (Some ?ts)) = _ =>
        destruct (proj2 (@one_blank_task_loses_them_all _ r n ts) eq_refl)
          as [M _]
    end.
    exact M.
Defined.

(* ================================================================== *)
(** ** SmartTaskListener: the task list *)
(* ================================================================== *)

Import TaskList.

Module TaskListFacts.

Lemma flip_completed_twice (t : Task) : flip_completed (flip_completed t) = t.
Proof. destruct t as [i ti de pr du a [] cr]; reflexivity. Qed.

Lemma sort_insert_perm {A} (cmp : A -> A -> Z) (x : A) (l : list A) :
  Permutation (sort_insert cmp x l) (x :: l).
Proof.
  induction l as [|y l IH]; cbn [sort_insert]; [reflexivity|].
  destruct (cmp x y <=? 0)%Z; [reflexivity|].
  rewrite IH. apply perm_swap.
Qed.

Lemma Array_sort_perm {A} (cmp : A -> A -> Z) (l : list A) :
  Permutation (Array_sort cmp l) l.
Proof.
  induction l as [|x l IH]; cbn [Array_sort]; [reflexivity|].
  rewrite sort_insert_perm. now constructor.
Qed.

Lemma sort_insert_sorted (x : Task) (l : list Task) :
  Sorted priority_le l -> Sorted priority_le (sort_insert by_priority x l).
Proof.
  induction l as [|y l IH]; intros S; cbn [sort_insert].
  - repeat constructor.
  - unfold by_priority at 1.
    destruct (Z.leb_spec (pOrder (task_priority x) - pOrder (task_priority y)) 0)
      as [L|L].
    + constructor; [exact S|]. constructor. unfold priority_le. lia.
    + inversion S as [|y' l' Sl Hd]; subst. constructor; [now apply IH|].
      destruct l as [|z l]; cbn [sort_insert].
      * constructor. unfold priority_le. lia.
      * unfold by_priority.
        destruct (pOrder (task_priority x) - pOrder (task_priority z) <=? 0)%Z.
        -- constructor. unfold priority_le. lia.
        -- inversion Hd; subst. now constructor.
Qed.

Lemma of_priority_insert (p : TaskPriority) (x : Task) (l : list Task) :
  Sorted priority_le l ->
  of_priority p (sort_insert by_priority x l) = of_priority p (x :: l).
Proof.
  induction l as [|y l IH]; intros S; cbn [sort_insert]; [reflexivity|].
  unfold by_priority at 1.
  destruct (Z.leb_spec (pOrder (task_priority x) - pOrder (task_priority y)) 0)
    as [L|L]; [reflexivity|].
  inversion S as [|y' l' Sl Hd]; subst.
  unfold of_priority in *. cbn [filter] in *. rewrite (IH Sl).
  destruct (Z.eqb_spec (pOrder (task_priority y)) (pOrder p)) as [Ey|Ey],
           (Z.eqb_spec (pOrder (task_priority x)) (pOrder p)) as [Ex|Ex];
    try reflexivity.
  lia.
Qed.

End TaskListFacts.

(** X22.  Ticking a task twice puts the whole list back as it was; a
    tick changes nothing but [completed] flags, so the list keeps its
    length, its order and every id; and ticks can be made in any order. *)
Theorem toggleTask_is_an_involution (id other : string) (tasks : list Task) :
  toggleTask id (toggleTask id tasks) = tasks
  /\ map task_id (toggleTask id tasks) = map task_id tasks
  /\ toggleTask id (toggleTask other tasks)
     = toggleTask other (toggleTask id tasks).
Proof.
  unfold toggleTask. split; [|split].
  - rewrite map_map. rewrite <- (map_id tasks) at 2. apply map_ext.
    intros t. destruct (String.eqb (task_id t) id) eqn:E.
    + cbn [flip_completed task_id]. rewrite E.
      apply TaskListFacts.flip_completed_twice.
    + now rewrite E.
  - rewrite map_map. apply map_ext. intros t.
    now destruct (String.eqb (task_id t) id).
  - rewrite !map_map. apply map_ext. intros t.
    destruct (String.eqb (task_id t) id) eqn:E,
             (String.eqb (task_id t) other) eqn:O;
      cbn [flip_completed task_id]; rewrite ?E, ?O; reflexivity.
Qed.

(** X23.  [deleteTask] removes every task with the id and nothing else:
    a task is in the result exactly when it was in the list under another
    id, the tasks that stay keep their order, and deleting again changes
    nothing. *)
Theorem deleteTask_removes_exactly_the_id (id : string) (tasks : list Task) :
  (forall t, In t (deleteTask id tasks) <-> In t tasks /\ task_id t <> id)
  /\ deleteTask id (deleteTask id tasks) = deleteTask id tasks
  /\ (forall other, other <> id ->
        filter (fun t => String.eqb (task_id t) other) (deleteTask id tasks)
        = filter (fun t => String.eqb (task_id t) other) tasks).
Proof.
  unfold deleteTask. split; [|split].
  - intros t. rewrite filter_In, negb_true_iff. split.
    + intros [H E]. split; [exact H|]. now apply String.eqb_neq.
    + intros [H E]. split; [exact H|]. now apply String.eqb_neq.
  - induction tasks as [|t tasks IH]; [reflexivity|]. cbn [filter].
    destruct (negb (String.eqb (task_id t) id)) eqn:E; [|exact IH].
    cbn [filter]. rewrite E. now f_equal.
  - intros other N. induction tasks as [|t tasks IH]; [reflexivity|].
    cbn [filter].
    destruct (String.eqb_spec (task_id t) id) as [E|E]; cbn [negb filter].
    + destruct (String.eqb_spec (task_id t) other) as [E'|E'];
        [congruence | exact IH].
    + now rewrite IH.
Qed.

Lemma deleteTask_removes_exactly_the_id_witness :
  let a := {| task_id := "a"; task_title := "Call"; task_description := "";
              task_priority := HIGH; task_dueDate := None;
              task_assignee := None; task_completed := false;
              task_createdAt := None |} in
  let b := {| task_id := "b"; task_title := "Write"; task_description := "";
              task_priority := LOW; task_dueDate := None;
              task_assignee := None; task_completed := true;
              task_createdAt := None |} in
  In b (deleteTask "a" [a; b; a])
  /\ filter (fun t => String.eqb (task_id t) "b") (deleteTask "a" [a; b; a])
     = [b].
Proof.
  cbv zeta.
  match goal with
  | |- In ?b (deleteTask ?id ?ts) /\ _ =>
      destruct (@deleteTask_removes_exactly_the_id id ts) as (A & _ & B)
  end.
  split.
  - apply A. split; [right; now left | discriminate].
  - rewrite B; [reflexivity | discriminate].
Defined.

(** X24.  [updateTask] with an id that no task has leaves the list as it
    is; in any case the list keeps its length, and the tasks under other
    ids stay as they are, in place. *)
Theorem updateTask_touches_only_the_id
  (id : string) (updates : TaskUpdates) (tasks : list Task) :
  (~ In id (map task_id tasks) -> updateTask id updates tasks = tasks)
  /\ List.length (updateTask id updates tasks) = List.length tasks
  /\ forall k t, nth_error tasks k = Some t -> task_id t <> id ->
       nth_error (updateTask id updates tasks) k = Some t.
Proof.
  unfold updateTask. split; [|split].
  - intros N. rewrite <- (map_id tasks) at 2. apply map_ext_in.
    intros t H. destruct (String.eqb_spec (task_id t) id) as [E|E];
      [|reflexivity].
    exfalso. apply N. rewrite <- E. now apply in_map.
  - apply length_map.
  - intros k t H N. rewrite nth_error_map, H. cbn [option_map].
    destruct (String.eqb_spec (task_id t) id); [contradiction | reflexivity].
Qed.

Lemma updateTask_touches_only_the_id_witness :
  let t := {| task_id := "a"; task_title := "Call"; task_description := "";
              task_priority := HIGH; task_dueDate := None;
              task_assignee := None; task_completed := false;
              task_createdAt := None |} in
  let u := {| upd_id := None; upd_title := Some "Write"%string;
              upd_description := None; upd_priority := None;
              upd_dueDate := Some None; upd_assignee := None;
              upd_completed := None; upd_createdAt := None |} in
  updateTask "b" u [t] = [t]
  /\ nth_error (updateTask "b" u [t]) 0 = Some t.
Proof.
  cbv zeta.
  match goal with
  | |- updateTask ?id ?u ?ts = _ /\ _ =>
      destruct (@updateTask_touches_only_the_id id u ts) as (A & _ & B)
  end.
  split.
  - apply A. cbn. intros [H|[]]. discriminate.
  - apply B; [reflexivity | discriminate].
Defined.

(** X25.  Whatever the filter and the sort, and whatever [localeCompare]
    does, [processedTasks] shows each task that passes the filter once:
    it is a permutation of the filtered list; and with the default sort it
    is the filtered list itself. *)
Theorem processedTasks_shows_each_task_once
  (localeCompare : string -> string -> Z) (f : Filter) (s : Sort)
  (tasks : list Task) :
  Permutation (processedTasks localeCompare f s tasks) (apply_filter f tasks)
  /\ processedTasks localeCompare f SortNewest tasks = apply_filter f tasks
  /\ Forall (fun t => match f with
                      | FilterAll => True
                      | FilterActive => task_completed t = false
                      | FilterCompleted => task_completed t = true
                      end)
            (processedTasks localeCompare f s tasks).
Proof.
  assert (P : Permutation (processedTasks localeCompare f s tasks)
                          (apply_filter f tasks)).
  { unfold processedTasks. cbv zeta.
    destruct s; [reflexivity | |]; apply TaskListFacts.Array_sort_perm. }
  split; [exact P|]. split; [reflexivity|].
  apply Forall_forall. intros t H.
  apply (Permutation_in _ P) in H. destruct f; cbn [apply_filter] in H.
  - exact I.
  - apply filter_In in H. now apply negb_true_iff.
  - apply filter_In in H. apply H.
Qed.

(** X26.  Sorted by priority, the tasks come in the order Critical, High,
    Medium, Low, and the tasks of one priority keep the order they had in
    the filtered list. *)
Theorem priority_sort_is_ordered_and_stable
  (localeCompare : string -> string -> Z) (f : Filter) (tasks : list Task) :
  let shown := processedTasks localeCompare f SortPriority tasks in
  Sorted (fun a b => (pOrder (task_priority a) <= pOrder (task_priority b))%Z)
         shown
  /\ forall p, of_priority p shown = of_priority p (apply_filter f tasks).
Proof.
  cbv zeta. unfold processedTasks. cbv zeta.
  generalize (apply_filter f tasks). intros l.
  assert (S : Sorted priority_le (Array_sort by_priority l)).
  { induction l as [|x l IH]; cbn [Array_sort]; [constructor|].
    now apply TaskListFacts.sort_insert_sorted. }
  split; [exact S|].
  intros p. clear S. induction l as [|x l IH]; [reflexivity|].
  cbn [Array_sort]. rewrite TaskListFacts.of_priority_insert.
  - unfold of_priority in *. cbn [filter]. now rewrite IH.
  - clear IH. induction l as [|y l IH]; cbn [Array_sort]; [constructor|].
    now apply TaskListFacts.sort_insert_sorted.
Qed.

(* ================================================================== *)
(** ** TaskCard: the timer display *)
(* ================================================================== *)

Import TaskCard.

Example formatTime_sample :
  formatTime 3723999 = "1h 2m 3s"%string /\ formatTime 0 = "0h 0m 0s"%string.
Proof. split; reflexivity. Qed.

(** The rounding of [x / y], on quotients whose binary64 values are
    known. *)
Example js_div_samples :
  (js_div 1 10 == 3602879701896397 # (2 ^ 55))%Q
  /\ (js_div 1 3 == 6004799503160661 # (2 ^ 54))%Q
  /\ (js_div 9007199254740993 1 == 9007199254740992)%Q
  /\ (js_div 9007199254740995 1 == 9007199254740996)%Q.
Proof. repeat split. Qed.

(** Past 2^53 the rounding of [ms / 1000] can carry the quotient over a
    whole number: for this (binary64) number of milliseconds the seconds
    shown are 29, where the whole seconds elapsed end in 28. *)
Example formatTime_rounds_large_inputs :
  time_parts 140748434243968992 = (39096787289, 59, 29)%Z
  /\ ((140748434243968992 / 1000) mod 60 = 28)%Z.
Proof. split; reflexivity. Qed.

Module ClockFacts.

Local Open Scope Q_scope.

Lemma floor_between (n : Z) (r : Q) :
  inject_Z n <= r -> r < inject_Z (n + 1) -> Qfloor r = n.
Proof.
  intros L U.
  pose proof (Qfloor_le r) as F1. pose proof (Qlt_floor r) as F2.
  assert (A : (Qfloor r < n + 1)%Z).
  { rewrite Zlt_Qlt. eapply Qle_lt_trans; eassumption. }
  assert (B : (n < Qfloor r + 1)%Z).
  { rewrite Zlt_Qlt. eapply Qle_lt_trans; eassumption. }
  lia.
Qed.

Lemma round_half_even_floor (q : Q) : (Qfloor q <= round_half_even q)%Z.
Proof.
  unfold round_half_even. cbv zeta.
  destruct (Qcompare _ _); [destruct (Z.even _)| |]; lia.
Qed.

Lemma round_half_even_upper (q : Q) :
  inject_Z (round_half_even q) <= q + (1 # 2).
Proof.
  unfold round_half_even. cbv zeta.
  pose proof (Qfloor_le q) as F.
  destruct (Qcompare (q - inject_Z (Qfloor q)) (1 # 2)) eqn:C.
  - apply Qeq_alt in C.
    destruct (Z.even _); [lra|]. rewrite inject_Z_plus.
    change (inject_Z 1) with 1. lra.
  - lra.
  - apply Qgt_alt in C. rewrite inject_Z_plus. change (inject_Z 1) with 1. lra.
Qed.

Lemma pow2_nonpos (e : Z) :
  (e <= 0)%Z -> pow2 e == 1 / inject_Z (2 ^ (- e)).
Proof.
  intros H. destruct e as [|p|p]; [reflexivity | lia |].
  cbn [pow2 Z.opp]. rewrite <- Pos2Z.inj_pow. reflexivity.
Qed.

Lemma pow2_pos (e : Z) : 0 < pow2 e.
Proof.
  destruct e as [|p|p]; [reflexivity | | reflexivity].
  cbn [pow2]. rewrite <- (Zlt_Qlt 0). now apply Z.pow_pos_nonneg.
Qed.

Lemma pow2_nonneg (e : Z) : (0 <= e)%Z -> pow2 e = inject_Z (2 ^ e).
Proof. destruct e; [reflexivity | reflexivity | lia]. Qed.

Lemma pow2_succ (e : Z) : pow2 (e + 1) == 2 * pow2 e.
Proof.
  destruct (Z.le_gt_cases 0 e) as [H|H].
  - rewrite !pow2_nonneg by lia. rewrite Z.pow_add_r by lia.
    rewrite inject_Z_mult. change (inject_Z (2 ^ 1)) with 2. ring.
  - rewrite !pow2_nonpos by lia.
    replace (- e)%Z with (- (e + 1) + 1)%Z by lia.
    rewrite Z.pow_add_r by lia. rewrite inject_Z_mult.
    change (inject_Z (2 ^ 1)) with 2.
    assert (P : 0 < inject_Z (2 ^ (- (e + 1))))
      by (rewrite <- (Zlt_Qlt 0); apply Z.pow_pos_nonneg; lia).
    field. intros C. rewrite C in P. discriminate.
Qed.

Lemma pow2_ratio (a b : Z) :
  (0 <= a)%Z -> (0 <= b)%Z ->
  pow2 (a - b) * inject_Z (2 ^ b) == inject_Z (2 ^ a).
Proof.
  intros Ha Hb. destruct (a - b)%Z as [|p|p] eqn:E.
  - replace a with b by lia. cbn [pow2]. change (inject_Z (2 ^ 0)) with 1.
    ring.
  - cbn [pow2]. rewrite <- inject_Z_mult, <- Z.pow_add_r by lia.
    now replace (Zpos p + b)%Z with a by lia.
  - cbn [pow2]. unfold Qeq, Qmult, inject_Z. cbn [Qnum Qden].
    rewrite Pos2Z.inj_mul, Pos2Z.inj_pow.
    replace b with (a + Zpos p)%Z by lia.
    rewrite Z.pow_add_r by lia. lia.
Qed.

(** [floor_log2] is the floor of the binary logarithm. *)
Lemma floor_log2_spec (q : Q) :
  0 < q -> pow2 (floor_log2 q) <= q /\ q < pow2 (floor_log2 q + 1).
Proof.
  intros Hq. unfold floor_log2. cbv zeta.
  destruct q as [n d]. cbn [Qnum Qden].
  assert (Hn : (0 < n)%Z) by (unfold Qlt in Hq; cbn in Hq; lia).
  set (a := Z.log2 n). set (b := Z.log2 (Zpos d)).
  assert (Ha : (0 <= a)%Z) by apply Z.log2_nonneg.
  assert (Hb : (0 <= b)%Z) by apply Z.log2_nonneg.
  pose proof (Z.log2_spec n Hn) as Sn. fold a in Sn.
  pose proof (Z.log2_spec (Zpos d) eq_refl) as Sd. fold b in Sd.
  replace (Z.succ a) with (a + 1)%Z in Sn by lia.
  replace (Z.succ b) with (b + 1)%Z in Sd by lia.
  rewrite Z.pow_add_r in Sn, Sd by lia. change (2 ^ 1)%Z with 2%Z in Sn, Sd.
  pose proof (pow2_ratio Ha Hb) as R.
  assert (A : 0 < inject_Z (2 ^ a))
    by (rewrite <- (Zlt_Qlt 0); now apply Z.pow_pos_nonneg).
  assert (B : 0 < inject_Z (2 ^ b))
    by (rewrite <- (Zlt_Qlt 0); now apply Z.pow_pos_nonneg).
  assert (Q : (n # d) * inject_Z (Zpos d) == inject_Z n).
  { unfold Qeq, Qmult, inject_Z. cbn [Qnum Qden]. lia. }
  assert (D : 0 < inject_Z (Zpos d)) by reflexivity.
  assert (N1 : inject_Z (2 ^ a) <= inject_Z n)
    by (rewrite <- Zle_Qle; lia).
  assert (N2 : inject_Z n + 1 <= 2 * inject_Z (2 ^ a)).
  { change 1 with (inject_Z 1). change 2 with (inject_Z 2).
    rewrite <- inject_Z_mult, <- inject_Z_plus, <- Zle_Qle. lia. }
  assert (D1 : inject_Z (2 ^ b) <= inject_Z (Zpos d))
    by (rewrite <- Zle_Qle; lia).
  assert (D2 : inject_Z (Zpos d) + 1 <= 2 * inject_Z (2 ^ b)).
  { change 1 with (inject_Z 1). change 2 with (inject_Z 2).
    rewrite <- inject_Z_mult, <- inject_Z_plus, <- Zle_Qle. lia. }
  pose proof (pow2_pos (a - b)) as P0.
  destruct (Qle_bool (pow2 (a - b)) (n # d)) eqn:T.
  - apply Qle_bool_iff in T. split; [exact T|].
    rewrite pow2_succ.
    generalize dependent (pow2 (a - b)). intros p R P0 T.
    generalize dependent (inject_Z (2 ^ a)). intros A'.
    generalize dependent (inject_Z (2 ^ b)). intros B'.
    generalize dependent (inject_Z (Zpos d)). intros D'.
    generalize dependent (inject_Z n). intros N'.
    generalize dependent (n # d). intros x. intros.
    nra.
  - assert (T' : n # d < pow2 (a - b)).
    { apply Qnot_le_lt. intros C. apply Qle_bool_iff in C. congruence. }
    split.
    + assert (S : pow2 (a - b) == 2 * pow2 (a - b - 1)).
      { rewrite <- pow2_succ. now replace (a - b - 1 + 1)%Z with (a - b)%Z by lia. }
      pose proof (pow2_pos (a - b - 1)) as P1.
      generalize dependent (pow2 (a - b - 1)). intros p1.
      generalize dependent (pow2 (a - b)). intros p.
      generalize dependent (inject_Z (2 ^ a)). intros A'.
      generalize dependent (inject_Z (2 ^ b)). intros B'.
      generalize dependent (inject_Z (Zpos d)). intros D'.
      generalize dependent (inject_Z n). intros N'.
      generalize dependent (n # d). intros x. intros.
      nra.
    + now replace (a - b - 1 + 1)%Z with (a - b)%Z by lia.
Qed.

Lemma round_half_even_lower (q : Q) :
  q - (1 # 2) <= inject_Z (round_half_even q).
Proof.
  unfold round_half_even. cbv zeta.
  pose proof (Qlt_floor q) as F. rewrite inject_Z_plus in F.
  change (inject_Z 1) with 1 in F.
  destruct (Qcompare (q - inject_Z (Qfloor q)) (1 # 2)) eqn:C.
  - apply Qeq_alt in C.
    destruct (Z.even _); [lra|]. rewrite inject_Z_plus.
    change (inject_Z 1) with 1. lra.
  - apply Qlt_alt in C. lra.
  - rewrite inject_Z_plus. change (inject_Z 1) with 1. lra.
Qed.

(** The rounded number is a whole multiple of the unit in the last place,
    at most half a unit away. *)
Lemma nearest_close (q : Q) :
  let u := pow2 (quantum q) in
  q - u * (1 # 2) <= nearest q /\ nearest q <= q + u * (1 # 2).
Proof.
  cbv zeta. unfold nearest. cbv zeta.
  pose proof (pow2_pos (quantum q)) as U.
  set (u := pow2 (quantum q)) in *. clearbody u.
  pose proof (round_half_even_lower (q / u)) as L.
  pose proof (round_half_even_upper (q / u)) as H.
  set (r := inject_Z (round_half_even (q / u))) in *. clearbody r.
  assert (E : q / u * u == q) by (field; lra).
  set (y := q / u) in *. clearbody y.
  split.
  - setoid_replace (q - u * (1 # 2)) with ((y - (1 # 2)) * u)
      by (rewrite <- E; ring).
    apply Qmult_le_compat_r; lra.
  - setoid_replace (q + u * (1 # 2)) with ((y + (1 # 2)) * u)
      by (rewrite <- E; ring).
    apply Qmult_le_compat_r; lra.
Qed.

Lemma floor_log2_le (q : Q) :
  (floor_log2 q <= Z.log2 (Qnum q) - Z.log2 (Zpos (Qden q)))%Z.
Proof. unfold floor_log2. cbv zeta. destruct (Qle_bool _ _); lia. Qed.

(** The quotient of a whole number below 2^53 by a whole number, rounded
    to binary64, lies in the same unit interval as the exact quotient. *)
Lemma js_div_whole (m : Z) (k : positive) :
  (0 <= m < 2 ^ 53)%Z -> (Z.log2 (Zpos k) <= 1074)%Z ->
  inject_Z (m / Zpos k) <= js_div (inject_Z m) (inject_Z (Zpos k))
  /\ js_div (inject_Z m) (inject_Z (Zpos k)) < inject_Z (m / Zpos k + 1).
Proof.
  intros Hm Hk. unfold js_div, binary64.
  destruct m as [|m|m]; [| |lia].
  - cbn. split; [discriminate | reflexivity].
  - set (x := inject_Z (Zpos m) / inject_Z (Zpos k)).
    change (Qnum x) with (Zpos (m * 1)). cbv iota.
    set (n := (Zpos m / Zpos k)%Z).
    set (b := Z.log2 (Zpos k)) in *.
    assert (Hb : (0 <= b)%Z) by apply Z.log2_nonneg.
    assert (He : (quantum x <= - b)%Z).
    { unfold quantum. pose proof (floor_log2_le x) as L.
      change (Qnum x) with (Zpos (m * 1)) in L.
      change (Zpos (Qden x)) with (Zpos (1 * k)) in L.
      rewrite Pos.mul_1_r in L. rewrite Pos.mul_1_l in L. fold b in L.
      assert (Z.log2 (Zpos m) < 53)%Z by (apply Z.log2_lt_pow2; lia).
      lia. }
    unfold nearest. cbv zeta.
    set (e := quantum x) in *. clearbody e.
    assert (E0 : (e <= 0)%Z) by lia.
    set (P := (2 ^ (- e))%Z).
    assert (HP : (Zpos k < 2 * P)%Z).
    { pose proof (Z.log2_spec (Zpos k) eq_refl) as S. fold b in S.
      assert (2 ^ b <= P)%Z by (apply Z.pow_le_mono_r; lia).
      replace (Z.succ b) with (b + 1)%Z in S by lia.
      rewrite Z.pow_add_r in S by lia. lia. }
    assert (HP0 : (0 < P)%Z) by lia.
    assert (U : pow2 e == 1 / inject_Z P) by now apply pow2_nonpos.
    assert (PQ : 0 < inject_Z P) by (rewrite <- (Zlt_Qlt 0); exact HP0).
    assert (KQ : 0 < inject_Z (Zpos k)) by reflexivity.
    assert (X : x * inject_Z (Zpos k) == inject_Z (Zpos m)).
    { unfold x. field. intros H. discriminate. }
    assert (D : x / pow2 e == x * inject_Z P).
    { rewrite U. field. intros H. rewrite H in PQ. discriminate. }
    pose proof (Z.mul_div_le (Zpos m) (Zpos k) eq_refl) as Z1.
    pose proof (Z.mul_succ_div_gt (Zpos m) (Zpos k) eq_refl) as Z2.
    fold n in Z1, Z2.
    assert (N1 : inject_Z (Zpos k) * inject_Z n <= inject_Z (Zpos m)).
    { rewrite <- inject_Z_mult, <- Zle_Qle. exact Z1. }
    assert (N2 : inject_Z (Zpos m) + 1
                 <= inject_Z (Zpos k) * inject_Z n + inject_Z (Zpos k)).
    { change 1 with (inject_Z 1).
      rewrite <- inject_Z_mult, <- !inject_Z_plus, <- Zle_Qle. lia. }
    set (r := round_half_even (x / pow2 e)).
    assert (R1 : inject_Z (n * P) <= inject_Z r).
    { rewrite <- Zle_Qle. unfold r.
      etransitivity; [|apply round_half_even_floor].
      rewrite <- (Qfloor_Z (n * P)). apply Qfloor_resp_le.
      rewrite D, inject_Z_mult. apply Qmult_le_compat_r; [|lra].
      apply Qmult_lt_0_le_reg_r with (inject_Z (Zpos k)); [exact KQ|].
      rewrite X. lra. }
    assert (R2 : inject_Z r <= x * inject_Z P + (1 # 2)).
    { unfold r. rewrite <- D. apply round_half_even_upper. }
    rewrite inject_Z_mult in R1.
    assert (PK : inject_Z (Zpos k) + 1 <= 2 * inject_Z P).
    { change 1 with (inject_Z 1). change 2 with (inject_Z 2).
      rewrite <- inject_Z_mult, <- inject_Z_plus, <- Zle_Qle. lia. }
    rewrite U. rewrite inject_Z_plus. change (inject_Z 1) with 1.
    clearbody x.
    set (R := inject_Z r) in *. set (Pq := inject_Z P) in *.
    set (N := inject_Z n) in *. set (K := inject_Z (Zpos k)) in *.
    set (M := inject_Z (Zpos m)) in *. clearbody R Pq N K M.
    clear - PQ KQ X N1 N2 R1 R2 PK.
    split.
    + apply Qmult_lt_0_le_reg_r with Pq; [exact PQ|].
      setoid_replace (R * (1 / Pq) * Pq) with R by (field; lra).
      exact R1.
    + apply Qmult_lt_r with Pq; [exact PQ|].
      setoid_replace (R * (1 / Pq) * Pq) with R by (field; lra).
      (* R <= x Pq + 1/2 < (N+1) Pq *)
      apply Qle_lt_trans with (x * Pq + (1 # 2)); [exact R2|].
      apply Qmult_lt_r with K; [exact KQ|].
      setoid_replace ((x * Pq + (1 # 2)) * K)
        with (M * Pq + (1 # 2) * K) by (rewrite <- X; ring).
      nra.
Qed.

Lemma js_rem_whole (n : Z) (r : Q) :
  (0 <= n)%Z -> inject_Z n <= r -> r < inject_Z (n + 1) ->
  Qfloor (js_rem r 60) = (n mod 60)%Z.
Proof.
  intros H L U. unfold js_rem.
  assert (N0 : 0 <= inject_Z n) by (rewrite <- (Zle_Qle 0); exact H).
  rewrite EncoderFacts.Qtrunc_floor
    by (apply Qle_shift_div_l; [reflexivity | lra]).
  rewrite inject_Z_plus in U. change (inject_Z 1) with 1 in U.
  set (q := (n / 60)%Z).
  assert (Q1 : 60 * inject_Z q <= inject_Z n).
  { change 60 with (inject_Z 60).
    rewrite <- inject_Z_mult, <- Zle_Qle. unfold q. lia. }
  assert (Q2 : inject_Z n + 1 <= 60 * inject_Z q + 60).
  { change 60 with (inject_Z 60). change 1 with (inject_Z 1).
    rewrite <- inject_Z_mult, <- !inject_Z_plus, <- Zle_Qle. unfold q. lia. }
  assert (F : Qfloor (r / 60) = q).
  { apply floor_between.
    - apply Qle_shift_div_l; [reflexivity | lra].
    - rewrite inject_Z_plus. change (inject_Z 1) with 1.
      apply Qlt_shift_div_r; [reflexivity | lra]. }
  rewrite F. apply floor_between.
  - replace (n mod 60)%Z with (n - 60 * q)%Z by (unfold q; lia).
    unfold Zminus. rewrite inject_Z_plus, inject_Z_opp, inject_Z_mult.
    change (inject_Z 60) with 60. lra.
  - replace (n mod 60 + 1)%Z with (n - 60 * q + 1)%Z by (unfold q; lia).
    unfold Zminus. rewrite !inject_Z_plus, inject_Z_opp, inject_Z_mult.
    change (inject_Z 60) with 60. change (inject_Z 1) with 1. lra.
Qed.

End ClockFacts.

(** X27.  For a whole number of milliseconds from 0 up to 2^53,
    [formatTime] prints the whole seconds elapsed split into hours,
    minutes and seconds: no quotient is carried over a whole number by its
    rounding, minutes and seconds are below 60 and never negative, and
    [3600 h + 60 m + s] is the number of whole seconds. *)
Theorem formatTime_splits_the_seconds (ms : Z) :
  (0 <= ms < 2 ^ 53)%Z ->
  let '(hours, minutes, seconds) := time_parts (inject_Z ms) in
  (hours = ms / 3600000 /\ minutes = (ms / 60000) mod 60
   /\ seconds = (ms / 1000) mod 60
   /\ 0 <= hours /\ 0 <= minutes < 60 /\ 0 <= seconds < 60
   /\ 3600 * hours + 60 * minutes + seconds = ms / 1000)%Z.
Proof.
  intros H. unfold time_parts. cbv zeta.
  change (1000 * 60 * 60) with (inject_Z (Zpos 3600000)).
  change (1000 * 60) with (inject_Z (Zpos 60000)).
  change 1000 with (inject_Z (Zpos 1000)).
  destruct (@ClockFacts.js_div_whole ms 3600000 H) as [H1 H2]; [cbn; lia|].
  destruct (@ClockFacts.js_div_whole ms 60000 H) as [M1 M2]; [cbn; lia|].
  destruct (@ClockFacts.js_div_whole ms 1000 H) as [S1 S2]; [cbn; lia|].
  rewrite (@ClockFacts.floor_between _ _ H1 H2).
  rewrite (@ClockFacts.js_rem_whole (ms / 60000) _ ltac:(lia) M1 M2).
  rewrite (@ClockFacts.js_rem_whole (ms / 1000) _ ltac:(lia) S1 S2).
  repeat split; lia.
Qed.

Lemma formatTime_splits_the_seconds_witness :
  time_parts (inject_Z 3723999) = (1, 2, 3)%Z.
Proof.
  pose proof (@formatTime_splits_the_seconds 3723999%Z ltac:(lia)) as P.
  destruct (time_parts (inject_Z 3723999)) as [[h m] s].
  destruct P as (-> & -> & -> & _). reflexivity.
Defined.
